(** * The lexer of [main.go], embedded in Rocq

    The development models the [Lexer] of the tokenizer: the source buffer
    with its cursor and position tracker, the trivia skipper, the literal
    scanners, the symbol scanner and the driver; and [outputFileName], the
    name of the file that [main] writes.

    Conventions of the embedding.
    - Go's [int] and [rune] are [Z].  Cursor, line and column never exceed
      the length of the input, and the lexer passes [peek] the offsets -1,
      0, 1 and 2 only, so 64-bit wrap-around is out of reach of the lexer.
      A statement about other offsets assumes that cursor plus offset fits
      an [int] ([maxInt]).
    - A Go [string] that holds text is the list of its code points.  The
      lexer builds every string from runes of [lx.src] (through
      [strings.Builder.WriteRune] or the conversion [string([]rune)]), and
      both replace an invalid rune by U+FFFD; [fixRune] does the same here.
      The byte-level operations the code applies to such strings
      ([s[0] == '_'], [strings.Contains] with ASCII patterns) coincide with
      the code-point-level ones because UTF-8 never uses an ASCII byte
      inside the encoding of another code point.
    - A run-time panic ([index out of range]) is the outcome [Panic].
    - Every [for] loop is a [Fixpoint] on a fuel counter that bounds the
      number of iterations; running out of fuel is the outcome [OutOfFuel].
      The theorems show that a fuel above the number of remaining code
      points is always enough.
    - The Unicode tables of Go's standard library ([unicode.IsLetter],
      [unicode.IsDigit], [unicode.ToLower], [strconv.QuoteRune]) are not
      part of the repository.  Their fast paths for Latin-1 / ASCII are
      written out as in the library; the tables behind them are fields of
      [Tables]. *)

From Stdlib Require Import Ascii String DecimalString.
From Stdlib Require Import ZArith List Lia Bool Sorted.
Import ListNotations.
Local Open Scope Z_scope.

Abbreviation len := Datatypes.length.

(** ** Runes and strings *)

Abbreviation rune := Z.
Abbreviation gostring := (list rune).

Definition rune_of_bytes (bs : list Byte.byte) : option Z :=
  match bs with
  | [b] => Some (Z.of_N (Byte.to_N b))
  | _ => None
  end.

Definition bytes_of_rune (r : Z) : option (list Byte.byte) :=
  if (32 <=? r) && (r <? 127) then
    match Byte.of_N (Z.to_N r) with
    | Some b => Some [b]
    | None => None
    end
  else None.

Declare Scope rune_scope.
Delimit Scope rune_scope with r.
String Notation Z rune_of_bytes bytes_of_rune : rune_scope.

(** Code points that have no printable literal. *)
Abbreviation NUL := 0 (only parsing).
Abbreviation TAB := 9 (only parsing).
Abbreviation LF := 10 (only parsing).
Abbreviation CR := 13 (only parsing).
Abbreviation DQUOTE := 34 (only parsing).
Abbreviation RuneError := 65533 (only parsing).

(** The text of a Rocq string literal (ASCII) as a Go string. *)
Definition str (s : String.string) : gostring :=
  map (fun a => Z.of_N (Ascii.N_of_ascii a)) (String.list_ascii_of_string s).
Arguments str s%_string.

(** [utf8.ValidRune]. *)
Definition ValidRune (r : rune) : bool :=
  ((0 <=? r) && (r <? 55296)) || ((57343 <? r) && (r <=? 1114111)).

(** What [WriteRune] and [string([]rune)] store for a rune. *)
Definition fixRune (r : rune) : rune :=
  if ValidRune r then r else RuneError.

Definition string_of_runes (rs : list rune) : gostring := map fixRune rs.

(** [utf8.RuneLen] of a stored (valid) rune: the bytes of its encoding. *)
Definition RuneLen (r : rune) : Z :=
  if r <? 128 then 1 else if r <? 2048 then 2 else if r <? 65536 then 3 else 4.

(** [strings.Builder]: [WriteRune], [Len] (in bytes) and [String]. *)
Abbreviation Builder := gostring (only parsing).
Definition WriteRune (b : Builder) (r : rune) : Builder := b ++ [fixRune r].
Definition Len (b : Builder) : Z := fold_right (fun r n => RuneLen r + n) 0 b.

(** [utf8.DecodeLastRuneInString]: the last rune, U+FFFD on the empty string. *)
Definition DecodeLastRuneInString (s : gostring) : rune := last s RuneError.

(** [strconv.Itoa], as [fmt] prints a [%d] argument. *)
Definition itoa (z : Z) : gostring :=
  str (DecimalString.NilZero.string_of_int (Z.to_int z)).

Fixpoint HasPrefix (s p : gostring) : bool :=
  match p, s with
  | [], _ => true
  | _ :: _, [] => false
  | b :: p', a :: s' => (a =? b) && HasPrefix s' p'
  end.

(** [strings.Contains]. *)
Fixpoint Contains (s p : gostring) : bool :=
  HasPrefix s p ||
  match s with
  | [] => false
  | _ :: s' => Contains s' p
  end.

(** [strings.ContainsAny]. *)
Definition ContainsAny (s chars : gostring) : bool :=
  existsb (fun a => existsb (Z.eqb a) chars) s.

Definition gostring_eqb (a b : gostring) : bool :=
  if list_eq_dec Z.eq_dec a b then true else false.

(** ** Unicode tables of the Go library *)

Record Tables := {
  (** [unicode.Letter] beyond Latin-1 *)
  letterTable : rune -> bool;
  (** [unicode.Digit] beyond Latin-1 *)
  digitTable : rune -> bool;
  (** [unicode.LowerCase] mapping beyond ASCII *)
  lowerTable : rune -> rune;
  (** [strconv.QuoteRune] outside the plain printable ASCII characters *)
  quoteTable : rune -> gostring
}.

(** Tables that know nothing beyond Latin-1; they serve to evaluate the
    lexer on plain printable ASCII inputs, where no table is consulted. *)
Definition latin1Tables : Tables :=
  {| letterTable := fun _ => false;
     digitTable := fun _ => false;
     lowerTable := fun r => r;
     quoteTable := fun r => [39; r; 39] |}.

(** The letters of Latin-1 ([pLmask] in [unicode.properties]). *)
Definition latin1Letter (r : rune) : bool :=
  (("A"%r <=? r) && (r <=? "Z"%r)) || (("a"%r <=? r) && (r <=? "z"%r))
  || (r =? 170) || (r =? 181) || (r =? 186)
  || ((192 <=? r) && (r <=? 214)) || ((216 <=? r) && (r <=? 246))
  || ((248 <=? r) && (r <=? 255)).

(** ** Token kinds, tokens and the lexer state *)

Inductive TokenType : Set :=
| KW_PKG | KW_IMP | KW_DEF | KW_VAR | KW_CONS | KW_TYPE | KW_STRUCT
| KW_INTERFACE | KW_MAPPING | KW_CHANNEL | KW_J | KW_SELECT | KW_LATER
| KW_RET | KW_IF | KW_ELSE | KW_SWITCH | KW_CASE | KW_FALL | KW_FR
| KW_RANGE | KW_BREAK | KW_CONTINUE | KW_JOTO | KW_DFT | KW_PANIC
| KW_RECOVER
| IDENT | INT_LIT | FLOAT_LIT | STRING_LIT | CHAR_LIT | TYPE_NAME
| LPAREN | RPAREN | LBRACE | RBRACE | LBRACK | RBRACK | COMMA | SEMI
| COLON | DOT
| ASSIGN | DECL | PLUS | MINUS | STAR | SLASH | PERCENT | LT | GT | LE
| GE | EQ | NE | ANDAND | OROR | BAND | BOR | BXOR | SHL | SHR | ADDEQ
| SUBEQ | MULEQ | DIVEQ | MODEQ | ANDEQ | OREQ | XOREQ | SHLEQ | SHREQ
| CH_SEND | BANG.

(** [var keywords = map[string]TokenType{...}] *)
Definition keywords : list (gostring * TokenType) :=
  [ (str "pkg", KW_PKG); (str "imp", KW_IMP); (str "def", KW_DEF);
    (str "var", KW_VAR); (str "cons", KW_CONS); (str "type", KW_TYPE);
    (str "struct", KW_STRUCT); (str "interface", KW_INTERFACE);
    (str "mapping", KW_MAPPING); (str "channel", KW_CHANNEL);
    (str "j", KW_J); (str "select", KW_SELECT); (str "later", KW_LATER);
    (str "ret", KW_RET); (str "if", KW_IF); (str "else", KW_ELSE);
    (str "switch", KW_SWITCH); (str "case", KW_CASE); (str "fall", KW_FALL);
    (str "fr", KW_FR); (str "range", KW_RANGE); (str "break", KW_BREAK);
    (str "continue", KW_CONTINUE); (str "joto", KW_JOTO); (str "dft", KW_DFT);
    (str "panic", KW_PANIC); (str "recover", KW_RECOVER);
    (str "recovery", KW_RECOVER) ].

(** [var typeNames = map[string]struct{}{...}] *)
Definition typeNames : list gostring :=
  [ str "i8"; str "i16"; str "i32"; str "i64";
    str "u8"; str "u16"; str "u32"; str "u64";
    str "f32"; str "f64"; str "bool"; str "string" ].

(** [t, ok := keywords[low]] *)
Definition keywords_lookup (low : gostring) : option TokenType :=
  match find (fun kv => gostring_eqb (fst kv) low) keywords with
  | Some kv => Some (snd kv)
  | None => None
  end.

(** [_, ok := typeNames[lex]] *)
Definition typeNames_mem (lex : gostring) : bool :=
  existsb (gostring_eqb lex) typeNames.

(** [IntVal] and [FloatVal] are pointers that no scanning path ever sets;
    [None] is [nil].  The payload of [FloatVal] is the bit pattern of the
    [float64]. *)
Record Token := mkToken {
  Type_ : TokenType;
  Lexeme : gostring;
  Line : Z;
  Column : Z;
  IntVal : option Z;
  FloatVal : option Z
}.

Record Lexer := mkLexer {
  src : list rune;
  i : Z;
  line : Z;
  col : Z;
  length : Z;
  tokens : list Token;
  errors : list gostring
}.

(** [NewLexer], from the decoded input [[]rune(input)]. *)
Definition NewLexer (rs : list rune) : Lexer :=
  {| src := rs; i := 0; line := 1; col := 1; length := Z.of_nat (len rs);
     tokens := []; errors := [] |}.

(** ** Outcomes and the lexer monad *)

Inductive outcome (A : Type) : Type :=
| Ok (a : A) (lx : Lexer)
| Panic
| OutOfFuel.
Arguments Ok {A} a lx.
Arguments Panic {A}.
Arguments OutOfFuel {A}.

Definition M (A : Type) : Type := Lexer -> outcome A.

Definition ret {A} (a : A) : M A := fun lx => Ok a lx.

Definition bind {A B} (m : M A) (k : A -> M B) : M B :=
  fun lx =>
    match m lx with
    | Ok a lx' => k a lx'
    | Panic => Panic
    | OutOfFuel => OutOfFuel
    end.

Definition timeout {A} : M A := fun _ => OutOfFuel.

(** Reading a field of the receiver. *)
Definition gets {A} (f : Lexer -> A) : M A := fun lx => Ok (f lx) lx.

Notation "x <- m ;; k" := (bind m (fun x => k))
  (at level 61, m at next level, right associativity).
Notation "m ;; k" := (bind m (fun _ => k))
  (at level 61, right associativity).

(** Go's short-circuit [&&] and [||] over conditions that call [peek]. *)
Definition andM (a b : M bool) : M bool :=
  x <- a ;; if x then b else ret false.
Definition orM (a b : M bool) : M bool :=
  x <- a ;; if x then ret true else b.

(** ** Source buffer: [peek], [advance], [add], [errorAt] *)

(** [s[j]]: panics outside [0 <= j < len(s)]. *)
Definition index (s : list rune) (j : Z) : option rune :=
  if j <? 0 then None else nth_error s (Z.to_nat j).

(** [s[lo:hi]]: panics unless [0 <= lo <= hi <= len(s)]. *)
Definition slice (s : list rune) (lo hi : Z) : option (list rune) :=
  if (0 <=? lo) && (lo <=? hi) && (hi <=? Z.of_nat (len s))
  then Some (firstn (Z.to_nat (hi - lo)) (skipn (Z.to_nat lo) s))
  else None.

(** [math.MaxInt64], the largest [int]. *)
Definition maxInt : Z := 9223372036854775807.

(** [j := lx.i + n] is computed in [Z]: it is Go's [j] as long as the sum
    fits an [int]. *)
Definition peek (n : Z) : M rune := fun lx =>
  let j := i lx + n in
  if j >=? length lx then Ok NUL lx
  else
    match index (src lx) j with
    | Some r => Ok r lx
    | None => Panic
    end.

Definition advance : M rune := fun lx =>
  if i lx >=? length lx then Ok NUL lx
  else
    match index (src lx) (i lx) with
    | None => Panic
    | Some ch =>
        if ch =? LF then
          Ok ch {| src := src lx; i := i lx + 1; line := line lx + 1; col := 1;
                   length := length lx; tokens := tokens lx;
                   errors := errors lx |}
        else
          Ok ch {| src := src lx; i := i lx + 1; line := line lx;
                   col := col lx + 1; length := length lx;
                   tokens := tokens lx; errors := errors lx |}
    end.

Definition add (ty : TokenType) (lex : gostring) (l c : Z)
    (iv fv : option Z) : M unit := fun lx =>
  Ok tt
     {| src := src lx; i := i lx; line := line lx; col := col lx;
        length := length lx;
        tokens := tokens lx ++ [mkToken ty lex l c iv fv];
        errors := errors lx |}.

(** [fmt.Sprintf("lexical error at %d:%d: %s", l, c, msg)] *)
Definition errorString (l c : Z) (msg : gostring) : gostring :=
  str "lexical error at " ++ itoa l ++ str ":" ++ itoa c ++ str ": " ++ msg.

Definition errorAt (l c : Z) (msg : gostring) : M unit := fun lx =>
  Ok tt
     {| src := src lx; i := i lx; line := line lx; col := col lx;
        length := length lx; tokens := tokens lx;
        errors := errors lx ++ [errorString l c msg] |}.

Section Lexer.

Variable T : Tables.

(** [unicode.IsLetter]: Latin-1 fast path, then the table. *)
Definition IsLetter (r : rune) : bool :=
  if (0 <=? r) && (r <=? 255) then latin1Letter r else letterTable T r.

(** [unicode.IsDigit]: Latin-1 fast path, then the table. *)
Definition IsDigit (r : rune) : bool :=
  if r <=? 255 then ("0"%r <=? r) && (r <=? "9"%r) else digitTable T r.

(** [unicode.ToLower]: ASCII fast path, then the table. *)
Definition ToLower (r : rune) : rune :=
  if r <=? 127 then
    if ("A"%r <=? r) && (r <=? "Z"%r) then r + ("a"%r - "A"%r) else r
  else lowerTable T r.

(** [strings.ToLower]. *)
Definition strings_ToLower (s : gostring) : gostring := map ToLower s.

(** [fmt]'s [%q] of a rune is [strconv.QuoteRune]: a printable ASCII
    character other than the quote and the backslash stands between two
    single quotes. *)
Definition QuoteRune (r : rune) : gostring :=
  if (32 <=? r) && (r <? 127) && negb (r =? "'"%r) && negb (r =? "\"%r)
  then ["'"%r; r; "'"%r]
  else quoteTable T r.

Definition isIdentStart (r : rune) : bool :=
  (r =? "_"%r) || IsLetter r.

Definition isIdentPart (r : rune) : bool :=
  (r =? "_"%r) || IsLetter r || IsDigit r.

(** ** Trivia skipper *)

Definition isSpace (ch : rune) : bool :=
  (ch =? " "%r) || (ch =? TAB) || (ch =? CR) || (ch =? LF).

(** [for ch != '\n' && ch != 0 { ch = lx.advance() }] *)
Fixpoint lineComment_loop (fuel : nat) (ch : rune) : M unit :=
  if negb (ch =? LF) && negb (ch =? NUL) then
    match fuel with
    | O => timeout
    | S f => ch' <- advance ;; lineComment_loop f ch'
    end
  else ret tt.

(** [for depth > 0 { ... }]; the result is [false] when the loop left the
    whole function through [return] (unterminated comment). *)
Fixpoint blockComment_loop (fuel : nat) (startLine startCol depth : Z)
    : M bool :=
  if depth >? 0 then
    match fuel with
    | O => timeout
    | S f =>
        c <- peek 0 ;;
        if c =? NUL then
          errorAt startLine startCol (str "unterminated block comment") ;;
          ret false
        else
          opening <- andM (ret (c =? "/"%r))
                          (n <- peek 1 ;; ret (n =? "*"%r)) ;;
          if opening then
            advance ;; advance ;;
            blockComment_loop f startLine startCol (depth + 1)
          else
            closing <- andM (ret (c =? "*"%r))
                            (n <- peek 1 ;; ret (n =? "/"%r)) ;;
            if closing then
              advance ;; advance ;;
              blockComment_loop f startLine startCol (depth - 1)
            else
              advance ;; blockComment_loop f startLine startCol depth
    end
  else ret true.

Fixpoint skipWSAndComments (fuel : nat) : M unit :=
  let continue := match fuel with
                  | O => timeout
                  | S f => skipWSAndComments f
                  end in
  ch <- peek 0 ;;
  if isSpace ch then advance ;; continue
  else if ch =? "/"%r then
    n <- peek 1 ;;
    if n =? "/"%r then lineComment_loop fuel ch ;; continue
    else if n =? "*"%r then
      startLine <- gets line ;;
      startCol <- gets col ;;
      advance ;; advance ;;
      closed <- blockComment_loop fuel startLine startCol 1 ;;
      if closed then continue else ret tt
    else ret tt
  else ret tt.

(** ** Identifiers, keywords and type names *)

(** [for lx.isIdentPart(lx.peek(0)) { b.WriteRune(lx.advance()) }] *)
Fixpoint scanIdent_loop (fuel : nat) (b : Builder) : M Builder :=
  c <- peek 0 ;;
  if isIdentPart c then
    match fuel with
    | O => timeout
    | S f => r <- advance ;; scanIdent_loop f (WriteRune b r)
    end
  else ret b.

Definition scanIdentOrKeyword (fuel : nat) : M unit :=
  l <- gets line ;;
  c <- gets col ;;
  lex <- scanIdent_loop fuel [] ;;
  let low := strings_ToLower lex in
  match keywords_lookup low with
  | Some t => add t lex l c None None
  | None =>
      if typeNames_mem lex then add TYPE_NAME lex l c None None
      else add IDENT lex l c None None
  end.

(** ** Numbers *)

Definition bad : list gostring :=
  [ str "_."; str "._"; str "e_"; str "_e"; str "E_"; str "_E";
    str "x_"; str "_x"; str "X_"; str "_X"; str "b_"; str "_b";
    str "B_"; str "_B"; str "o_"; str "_o"; str "O_"; str "_O" ].

Definition validUnderscores (s : gostring) : bool :=
  match s with
  | [] => false
  | first :: _ =>
      if (first =? "_"%r) || (last s 0 =? "_"%r) then false
      else if Contains s (str "__") then false
      else if existsb (fun p => Contains s p) bad then false
      else true
  end.

(** The condition of the digit loop of a base-prefixed literal. *)
Definition isBaseDigit (base ch : rune) : bool :=
  (ch =? "_"%r) || IsDigit ch
  || (((base =? "x"%r) || (base =? "X"%r))
      && ((("a"%r <=? ch) && (ch <=? "f"%r))
          || (("A"%r <=? ch) && (ch <=? "F"%r))))
  || (((base =? "b"%r) || (base =? "B"%r))
      && ((ch =? "0"%r) || (ch =? "1"%r)))
  || (((base =? "o"%r) || (base =? "O"%r))
      && (("0"%r <=? ch) && (ch <=? "7"%r))).

Fixpoint baseDigits_loop (fuel : nat) (base : rune) (count : Z) : M Z :=
  ch <- peek 0 ;;
  if isBaseDigit base ch then
    match fuel with
    | O => timeout
    | S f => advance ;; baseDigits_loop f base (count + 1)
    end
  else ret count.

(** [for unicode.IsDigit(lx.peek(0)) || lx.peek(0) == '_' { lx.advance() }] *)
Fixpoint digits_loop (fuel : nat) : M unit :=
  more <- orM (c <- peek 0 ;; ret (IsDigit c))
              (c <- peek 0 ;; ret (c =? "_"%r)) ;;
  if more then
    match fuel with
    | O => timeout
    | S f => advance ;; digits_loop f
    end
  else ret tt.

(** [string(lx.src[lo:hi])] *)
Definition srcString (lo hi : Z) : M gostring := fun lx =>
  match slice (src lx) lo hi with
  | Some rs => Ok (string_of_runes rs) lx
  | None => Panic
  end.

Definition baseMessage (base : rune) : gostring :=
  if (base =? "x"%r) || (base =? "X"%r) then str "invalid hex literal"
  else if (base =? "b"%r) || (base =? "B"%r) then str "invalid binary literal"
  else if (base =? "o"%r) || (base =? "O"%r) then str "invalid octal literal"
  else str "invalid numeric literal".

(** The end of [scanNumber], from [lex := string(lx.src[start:lx.i])] on;
    both ways out of the exponent branch reach it. *)
Definition scanNumber_finish (l c start : Z) (isFloat : bool) : M unit :=
  stop <- gets i ;;
  lex <- srcString start stop ;;
  if negb (validUnderscores lex) then
    errorAt l c (str "illegal underscore placement in number")
  else if isFloat || ContainsAny lex (str ".eE") then
    add FLOAT_LIT lex l c None None
  else add INT_LIT lex l c None None.

Definition isBasePrefix : M bool :=
  andM (c <- peek 0 ;; ret (c =? "0"%r))
    (orM (c <- peek 1 ;; ret (c =? "x"%r))
    (orM (c <- peek 1 ;; ret (c =? "X"%r))
    (orM (c <- peek 1 ;; ret (c =? "b"%r))
    (orM (c <- peek 1 ;; ret (c =? "B"%r))
    (orM (c <- peek 1 ;; ret (c =? "o"%r))
         (c <- peek 1 ;; ret (c =? "O"%r))))))).

Definition scanNumber (fuel : nat) : M unit :=
  l <- gets line ;;
  c <- gets col ;;
  start <- gets i ;;
  prefixed <- isBasePrefix ;;
  if prefixed then
    base <- peek 1 ;;
    advance ;; advance ;;
    count <- baseDigits_loop fuel base 0 ;;
    stop <- gets i ;;
    body <- srcString (start + 2) stop ;;
    if (count =? 0) || negb (validUnderscores body) then
      errorAt l c (baseMessage base)
    else
      stop <- gets i ;;
      lex <- srcString start stop ;;
      add INT_LIT lex l c None None
  else
    digits_loop fuel ;;
    frac <- andM (c <- peek 0 ;; ret (c =? "."%r))
                 (c <- peek 1 ;; ret (IsDigit c)) ;;
    isFloat <- (if frac then advance ;; digits_loop fuel ;; ret true
                else ret false) ;;
    expo <- orM (c <- peek 0 ;; ret (c =? "e"%r))
                (c <- peek 0 ;; ret (c =? "E"%r)) ;;
    if expo then
      advance ;;
      sign <- orM (c <- peek 0 ;; ret (c =? "+"%r))
                  (c <- peek 0 ;; ret (c =? "-"%r)) ;;
      (if sign then advance ;; ret tt else ret tt) ;;
      d <- peek 0 ;;
      if negb (IsDigit d) then errorAt l c (str "invalid float exponent")
      else digits_loop fuel ;; scanNumber_finish l c start true
    else scanNumber_finish l c start isFloat.

(** ** Strings and characters *)

(** The [for] loop of [scanString]; [None] when it left the function
    through [return] after an error, [Some b] at a [break]. *)
Fixpoint scanString_loop (fuel : nat) (l c : Z) (b : Builder)
    : M (option Builder) :=
  let continue b := match fuel with
                    | O => timeout
                    | S f => scanString_loop f l c b
                    end in
  ch <- peek 0 ;;
  if (ch =? NUL) || (ch =? LF) then
    errorAt l c (str "unterminated string literal") ;; ret None
  else if ch =? "\"%r then
    r <- advance ;;
    let b := WriteRune b r in
    cut <- orM (p <- peek 0 ;; ret (p =? NUL))
               (p <- peek 0 ;; ret (p =? LF)) ;;
    if cut then errorAt l c (str "unterminated string escape") ;; ret None
    else
      r <- advance ;;
      continue (WriteRune b r)
  else
    r <- advance ;;
    let b := WriteRune b r in
    closing <- (if Len b >=? 2 then
                  andM (ret (DecodeLastRuneInString b =? DQUOTE))
                       (p <- peek (-1) ;; ret (negb (p =? "\"%r)))
                else ret false) ;;
    if closing then ret (Some b)
    else
      q <- peek 0 ;;
      if q =? DQUOTE then r <- advance ;; ret (Some (WriteRune b r))
      else continue b.

Definition scanString (fuel : nat) : M unit :=
  l <- gets line ;;
  c <- gets col ;;
  r <- advance ;;
  res <- scanString_loop fuel l c (WriteRune [] r) ;;
  match res with
  | Some b => add STRING_LIT b l c None None
  | None => ret tt
  end.

Fixpoint scanRawString_loop (fuel : nat) (l c : Z) (b : Builder)
    : M (option Builder) :=
  ch <- peek 0 ;;
  if ch =? NUL then errorAt l c (str "unterminated raw string") ;; ret None
  else
    r <- advance ;;
    let b := WriteRune b r in
    if ch =? "`"%r then ret (Some b)
    else
      match fuel with
      | O => timeout
      | S f => scanRawString_loop f l c b
      end.

Definition scanRawString (fuel : nat) : M unit :=
  l <- gets line ;;
  c <- gets col ;;
  r <- advance ;;
  res <- scanRawString_loop fuel l c (WriteRune [] r) ;;
  match res with
  | Some b => add STRING_LIT b l c None None
  | None => ret tt
  end.

Definition scanChar : M unit :=
  l <- gets line ;;
  c <- gets col ;;
  r <- advance ;;
  let b := WriteRune [] r in
  ch <- peek 0 ;;
  let close b :=
    q <- peek 0 ;;
    if negb (q =? "'"%r) then errorAt l c (str "unterminated char literal")
    else
      r <- advance ;;
      add CHAR_LIT (WriteRune b r) l c None None in
  if ch =? "\"%r then
    r <- advance ;;
    let b := WriteRune b r in
    cut <- orM (p <- peek 0 ;; ret (p =? NUL))
               (p <- peek 0 ;; ret (p =? LF)) ;;
    if cut then errorAt l c (str "unterminated char escape")
    else
      r <- advance ;;
      close (WriteRune b r)
  else if (ch =? NUL) || (ch =? LF) || (ch =? "'"%r) then
    errorAt l c (str "empty or invalid char literal")
  else
    r <- advance ;;
    close (WriteRune b r).

(** ** Symbols and the driver *)

(** The [switch ch { ... }] of [nextToken]. *)
Definition scanSymbol (ch : rune) (l c : Z) : M unit :=
  let one ty lex := advance ;; add ty (str lex) l c None None in
  let two ty lex := advance ;; advance ;; add ty (str lex) l c None None in
  let three ty lex :=
    advance ;; advance ;; advance ;; add ty (str lex) l c None None in
  if ch =? "("%r then one LPAREN "("%string
  else if ch =? ")"%r then one RPAREN ")"%string
  else if ch =? "{"%r then one LBRACE "{"%string
  else if ch =? "}"%r then one RBRACE "}"%string
  else if ch =? "["%r then one LBRACK "["%string
  else if ch =? "]"%r then one RBRACK "]"%string
  else if ch =? ","%r then one COMMA ","%string
  else if ch =? ";"%r then one SEMI ";"%string
  else if ch =? ":"%r then
    n <- peek 1 ;;
    if n =? "="%r then two DECL ":="%string else one COLON ":"%string
  else if ch =? "."%r then one DOT "."%string
  else if ch =? "+"%r then
    n <- peek 1 ;;
    if n =? "="%r then two ADDEQ "+="%string else one PLUS "+"%string
  else if ch =? "-"%r then
    n <- peek 1 ;;
    if n =? "="%r then two SUBEQ "-="%string else one MINUS "-"%string
  else if ch =? "*"%r then
    n <- peek 1 ;;
    if n =? "="%r then two MULEQ "*="%string else one STAR "*"%string
  else if ch =? "/"%r then
    n <- peek 1 ;;
    if n =? "="%r then two DIVEQ "/="%string else one SLASH "/"%string
  else if ch =? "%"%r then
    n <- peek 1 ;;
    if n =? "="%r then two MODEQ "%="%string else one PERCENT "%"%string
  else if ch =? "<"%r then
    n <- peek 1 ;;
    if n =? "-"%r then two CH_SEND "<-"%string
    else
      n <- peek 1 ;;
      if n =? "="%r then two LE "<="%string
      else
        n <- peek 1 ;;
        if n =? "<"%r then
          m <- peek 2 ;;
          if m =? "="%r then three SHLEQ "<<="%string
          else two SHL "<<"%string
        else one LT "<"%string
  else if ch =? ">"%r then
    n <- peek 1 ;;
    if n =? "="%r then two GE ">="%string
    else
      n <- peek 1 ;;
      if n =? ">"%r then
        m <- peek 2 ;;
        if m =? "="%r then three SHREQ ">>="%string
        else two SHR ">>"%string
      else one GT ">"%string
  else if ch =? "="%r then
    n <- peek 1 ;;
    if n =? "="%r then two EQ "=="%string else one ASSIGN "="%string
  else if ch =? "!"%r then
    n <- peek 1 ;;
    if n =? "="%r then two NE "!="%string else one BANG "!"%string
  else if ch =? "&"%r then
    n <- peek 1 ;;
    if n =? "&"%r then two ANDAND "&&"%string
    else
      n <- peek 1 ;;
      if n =? "="%r then two ANDEQ "&="%string else one BAND "&"%string
  else if ch =? "|"%r then
    n <- peek 1 ;;
    if n =? "|"%r then two OROR "||"%string
    else
      n <- peek 1 ;;
      if n =? "="%r then two OREQ "|="%string else one BOR "|"%string
  else if ch =? "^"%r then
    n <- peek 1 ;;
    if n =? "="%r then two XOREQ "^="%string else one BXOR "^"%string
  else
    errorAt l c (str "invalid character " ++ QuoteRune ch) ;;
    advance ;; ret tt.

(** [nextToken] after its call of [skipWSAndComments]. *)
Definition dispatch (fuel : nat) : M bool :=
  ch <- peek 0 ;;
  if ch =? NUL then ret false
  else
    l <- gets line ;;
    c <- gets col ;;
    if isIdentStart ch then scanIdentOrKeyword fuel ;; ret true
    else if IsDigit ch then scanNumber fuel ;; ret true
    else if ch =? DQUOTE then scanString fuel ;; ret true
    else if ch =? "`"%r then scanRawString fuel ;; ret true
    else if ch =? "'"%r then scanChar ;; ret true
    else scanSymbol ch l c ;; ret true.

Definition nextToken (fuel : nat) : M bool :=
  skipWSAndComments fuel ;; dispatch fuel.

(** [for lx.nextToken() { }; return lx.tokens, lx.errors] *)
Fixpoint LexAll (fuel : nat) : M (list Token * list gostring) :=
  more <- nextToken fuel ;;
  if more then
    match fuel with
    | O => timeout
    | S f => LexAll f
    end
  else
    toks <- gets tokens ;;
    errs <- gets errors ;;
    ret (toks, errs).

(** * Reasoning about the lexer *)

(** ** The shape of a reachable state

    [st pre rest toks errs] is the lexer whose cursor stands between the
    consumed code points [pre] and the remaining ones [rest]. *)

Definition step_pos (p : Z * Z) (r : rune) : Z * Z :=
  if r =? LF then (fst p + 1, 1) else (fst p, snd p + 1).

Definition posAfter (pre : list rune) : Z * Z :=
  fold_left step_pos pre (1, 1).

Definition st (pre rest : list rune) (toks : list Token)
    (errs : list gostring) : Lexer :=
  {| src := pre ++ rest;
     i := Z.of_nat (len pre);
     line := fst (posAfter pre);
     col := snd (posAfter pre);
     length := Z.of_nat (len (pre ++ rest));
     tokens := toks;
     errors := errs |}.

(** The invariant of the cursor and of the position tracker. *)
Definition wf (lx : Lexer) : Prop :=
  0 <= i lx <= length lx /\
  length lx = Z.of_nat (len (src lx)) /\
  (line lx, col lx) = posAfter (firstn (Z.to_nat (i lx)) (src lx)).

Lemma NewLexer_st rs : NewLexer rs = st [] rs [] [].
Proof. reflexivity. Qed.

Lemma wf_st pre rest t e : wf (st pre rest t e).
Proof.
  unfold wf, st; cbn [i length src line col].
  rewrite Nat2Z.id, firstn_app, Nat.sub_diag, firstn_all, app_nil_r.
  rewrite length_app. repeat split; try lia.
  destruct (posAfter pre); reflexivity.
Qed.

Lemma wf_view lx :
  wf lx ->
  lx = st (firstn (Z.to_nat (i lx)) (src lx)) (skipn (Z.to_nat (i lx)) (src lx))
          (tokens lx) (errors lx).
Proof.
  intros (Hi & Hl & Hp). destruct lx as [s k l c n t e]; cbn in *.
  unfold st. rewrite firstn_skipn, <- Hp; cbn [fst snd].
  rewrite length_firstn, Nat.min_l by lia.
  rewrite Z2Nat.id by lia. congruence.
Qed.

Lemma posAfter_snoc pre r :
  posAfter (pre ++ [r]) = step_pos (posAfter pre) r.
Proof. unfold posAfter. rewrite fold_left_app. reflexivity. Qed.

(** ** The primitive operations on a reachable state *)

Lemma bind_ret {A B} (a : A) (k : A -> M B) lx : bind (ret a) k lx = k a lx.
Proof. reflexivity. Qed.

Lemma ret_Ok {A} (a : A) lx : ret a lx = Ok a lx.
Proof. reflexivity. Qed.

Lemma bind_bind {A B C} (m : M A) (k : A -> M B) (h : B -> M C) lx :
  bind (bind m k) h lx = bind m (fun a => bind (k a) h) lx.
Proof. unfold bind. destruct (m lx); reflexivity. Qed.

Lemma peek_st n pre rest t e :
  peek (Z.of_nat n) (st pre rest t e) = Ok (nth n rest NUL) (st pre rest t e).
Proof.
  unfold peek, st; cbn [i length src].
  rewrite length_app.
  destruct (Z.geb_spec (Z.of_nat (len pre) + Z.of_nat n)
                       (Z.of_nat (len pre + len rest))) as [H | H].
  - rewrite nth_overflow by lia. reflexivity.
  - unfold index.
    destruct (Z.ltb_spec (Z.of_nat (len pre) + Z.of_nat n) 0); [lia |].
    replace (Z.to_nat (Z.of_nat (len pre) + Z.of_nat n)) with (len pre + n)%nat
      by lia.
    rewrite nth_error_app2 by lia.
    replace (len pre + n - len pre)%nat with n by lia.
    rewrite (nth_error_nth' rest NUL) by lia. reflexivity.
Qed.

Lemma bind_peek0 {B} (k : rune -> M B) pre rest t e :
  bind (peek 0) k (st pre rest t e) = k (nth 0 rest NUL) (st pre rest t e).
Proof. unfold bind. rewrite (peek_st 0). reflexivity. Qed.

Lemma bind_peek1 {B} (k : rune -> M B) pre rest t e :
  bind (peek 1) k (st pre rest t e) = k (nth 1 rest NUL) (st pre rest t e).
Proof. unfold bind. rewrite (peek_st 1). reflexivity. Qed.

Lemma bind_peek2 {B} (k : rune -> M B) pre rest t e :
  bind (peek 2) k (st pre rest t e) = k (nth 2 rest NUL) (st pre rest t e).
Proof. unfold bind. rewrite (peek_st 2). reflexivity. Qed.

Lemma peek_back pre c rest t e :
  peek (-1) (st (pre ++ [c]) rest t e) = Ok c (st (pre ++ [c]) rest t e).
Proof.
  unfold peek, st; cbn [i length src].
  rewrite !length_app; cbn [len].
  destruct (Z.geb_spec (Z.of_nat (len pre + 1) + -1)
                       (Z.of_nat (len pre + 1 + len rest))); [lia |].
  unfold index.
  destruct (Z.ltb_spec (Z.of_nat (len pre + 1) + -1) 0); [lia |].
  replace (Z.to_nat (Z.of_nat (len pre + 1) + -1)) with (len pre) by lia.
  rewrite <- app_assoc. rewrite nth_error_app2 by lia.
  rewrite Nat.sub_diag. reflexivity.
Qed.

Lemma bind_peek_back {B} (k : rune -> M B) pre c rest t e :
  bind (peek (-1)) k (st (pre ++ [c]) rest t e)
  = k c (st (pre ++ [c]) rest t e).
Proof. unfold bind. rewrite peek_back. reflexivity. Qed.

Lemma advance_cons pre r rest t e :
  advance (st pre (r :: rest) t e) = Ok r (st (pre ++ [r]) rest t e).
Proof.
  unfold advance, st; cbn [i length src line col tokens errors].
  rewrite !length_app; cbn [len].
  destruct (Z.geb_spec (Z.of_nat (len pre))
                       (Z.of_nat (len pre + S (len rest)))); [lia |].
  unfold index.
  destruct (Z.ltb_spec (Z.of_nat (len pre)) 0); [lia |].
  rewrite Nat2Z.id, nth_error_app2, Nat.sub_diag by lia. cbn [nth_error].
  rewrite posAfter_snoc. unfold step_pos.
  rewrite <- app_assoc. cbn [app].
  replace (Z.of_nat (len pre + 1)) with (Z.of_nat (len pre) + 1) by lia.
  replace (len pre + 1 + len rest)%nat with (len pre + S (len rest))%nat by lia.
  destruct (r =? LF); reflexivity.
Qed.

Lemma advance_nil pre t e :
  advance (st pre [] t e) = Ok NUL (st pre [] t e).
Proof.
  unfold advance, st; cbn [i length src].
  rewrite app_nil_r.
  destruct (Z.geb_spec (Z.of_nat (len pre)) (Z.of_nat (len pre))); [| lia].
  reflexivity.
Qed.

Lemma bind_advance {B} (k : rune -> M B) pre r rest t e :
  bind advance k (st pre (r :: rest) t e) = k r (st (pre ++ [r]) rest t e).
Proof. unfold bind. rewrite advance_cons. reflexivity. Qed.

Lemma bind_advance_nil {B} (k : rune -> M B) pre t e :
  bind advance k (st pre [] t e) = k NUL (st pre [] t e).
Proof. unfold bind. rewrite advance_nil. reflexivity. Qed.

Lemma bind_gets_line {B} (k : Z -> M B) pre rest t e :
  bind (gets line) k (st pre rest t e)
  = k (fst (posAfter pre)) (st pre rest t e).
Proof. reflexivity. Qed.

Lemma bind_gets_col {B} (k : Z -> M B) pre rest t e :
  bind (gets col) k (st pre rest t e)
  = k (snd (posAfter pre)) (st pre rest t e).
Proof. reflexivity. Qed.

Lemma bind_gets_i {B} (k : Z -> M B) pre rest t e :
  bind (gets i) k (st pre rest t e)
  = k (Z.of_nat (len pre)) (st pre rest t e).
Proof. reflexivity. Qed.

Lemma add_st ty lex l c iv fv pre rest t e :
  add ty lex l c iv fv (st pre rest t e)
  = Ok tt (st pre rest (t ++ [mkToken ty lex l c iv fv]) e).
Proof. reflexivity. Qed.

Lemma errorAt_st l c msg pre rest t e :
  errorAt l c msg (st pre rest t e)
  = Ok tt (st pre rest t (e ++ [errorString l c msg])).
Proof. reflexivity. Qed.

Lemma bind_add {B} (k : unit -> M B) ty lex l c iv fv pre rest t e :
  bind (add ty lex l c iv fv) k (st pre rest t e)
  = k tt (st pre rest (t ++ [mkToken ty lex l c iv fv]) e).
Proof. reflexivity. Qed.

Lemma bind_errorAt {B} (k : unit -> M B) l c msg pre rest t e :
  bind (errorAt l c msg) k (st pre rest t e)
  = k tt (st pre rest t (e ++ [errorString l c msg])).
Proof. reflexivity. Qed.

Lemma bind_advance_app {B} (k : rune -> M B) pre m r rest t e :
  bind advance k (st (pre ++ m) (r :: rest) t e)
  = k r (st (pre ++ m ++ [r]) rest t e).
Proof. rewrite bind_advance, <- app_assoc. reflexivity. Qed.

Lemma src_st pre rest t e : src (st pre rest t e) = pre ++ rest.
Proof. reflexivity. Qed.

Lemma i_st pre rest t e : i (st pre rest t e) = Z.of_nat (len pre).
Proof. reflexivity. Qed.

Lemma length_st pre rest t e :
  length (st pre rest t e) = Z.of_nat (len (pre ++ rest)).
Proof. reflexivity. Qed.

Lemma line_st pre rest t e : line (st pre rest t e) = fst (posAfter pre).
Proof. reflexivity. Qed.

Lemma col_st pre rest t e : col (st pre rest t e) = snd (posAfter pre).
Proof. reflexivity. Qed.

Lemma tokens_st pre rest t e : tokens (st pre rest t e) = t.
Proof. reflexivity. Qed.

Lemma errors_st pre rest t e : errors (st pre rest t e) = e.
Proof. reflexivity. Qed.

Global Opaque st.

(** One step of symbolic execution on a state of the form [st _ _ _ _]. *)
Ltac mstep :=
  first
    [ rewrite bind_bind
    | rewrite bind_ret
    | rewrite bind_peek0 | rewrite bind_peek1 | rewrite bind_peek2
    | rewrite bind_peek_back
    | rewrite bind_advance_app | rewrite bind_advance
    | rewrite bind_advance_nil
    | rewrite bind_gets_line | rewrite bind_gets_col | rewrite bind_gets_i
    | rewrite bind_add | rewrite bind_errorAt
    | rewrite add_st | rewrite errorAt_st | rewrite ret_Ok ];
  cbv beta; rewrite <- ?app_assoc;
  cbn [nth skipn firstn app Z.eqb Pos.eqb negb orb andb].

Ltac nsimp := cbn [nth skipn firstn app len Z.eqb Pos.eqb negb orb andb].

Ltac msteps := nsimp; repeat mstep.

Ltac split_if :=
  match goal with
  | |- context [if ?a =? ?b then _ else _] =>
      destruct (Z.eqb_spec a b); try subst a
  | |- context [if ?b then _ else _] => destruct b eqn:?
  end.

Lemma bind_eq {A B} (m : M A) (k : A -> M B) lx o :
  m lx = o ->
  bind m k lx = match o with
                | Ok a lx' => k a lx'
                | Panic => Panic
                | OutOfFuel => OutOfFuel
                end.
Proof. unfold bind. intros ->. reflexivity. Qed.

Lemma bind_Ok {A B} (m : M A) (k : A -> M B) lx a lx' :
  m lx = Ok a lx' -> bind m k lx = k a lx'.
Proof. unfold bind. intros ->. reflexivity. Qed.

(** ** What one scanner call does

    [scanned pre rest t e o]: started on [st pre rest t e], a scanner ends
    in outcome [o], having consumed a non-empty prefix [m] of [rest] and
    having appended either one token, whose lexeme is [m] and whose
    position is that of the first code point of [m], or one error message
    at that same position. *)

Definition tokenAt (pre m : list rune) (ty : TokenType) : Token :=
  mkToken ty (string_of_runes m) (fst (posAfter pre)) (snd (posAfter pre))
          None None.

Definition errorFrom (pre : list rune) (msg : gostring) : gostring :=
  errorString (fst (posAfter pre)) (snd (posAfter pre)) msg.

Definition scanned (pre rest : list rune) (t : list Token)
    (e : list gostring) (o : outcome unit) : Prop :=
  exists m rest',
    rest = m ++ rest' /\ m <> [] /\
    ((exists ty, o = Ok tt (st (pre ++ m) rest' (t ++ [tokenAt pre m ty]) e))
     \/ (exists msg, o = Ok tt (st (pre ++ m) rest' t (e ++ [errorFrom pre msg])))).

Lemma scanned_token pre m rest' t e ty :
  m <> [] ->
  scanned pre (m ++ rest') t e
          (Ok tt (st (pre ++ m) rest' (t ++ [tokenAt pre m ty]) e)).
Proof. intros; exists m, rest'; eauto. Qed.

Lemma scanned_error pre m rest' t e msg :
  m <> [] ->
  scanned pre (m ++ rest') t e
          (Ok tt (st (pre ++ m) rest' t (e ++ [errorFrom pre msg]))).
Proof. intros; exists m, rest'; eauto. Qed.

Ltac scanned_done :=
  lazymatch goal with
  | |- scanned ?pre _ _ _
         (Ok tt (st (?pre ++ ?m) ?r (_ ++ [mkToken ?ty _ _ _ _ _]) _)) =>
      exact (scanned_token pre m r _ _ ty ltac:(discriminate))
  | |- scanned ?pre _ _ _
         (Ok tt (st (?pre ++ ?m) ?r _ (_ ++ [errorString _ _ ?msg]))) =>
      exact (scanned_error pre m r _ _ msg ltac:(discriminate))
  end.

Lemma scanChar_scanned pre rest t e :
  scanned pre ("'"%r :: rest) t e (scanChar (st pre ("'"%r :: rest) t e)).
Proof.
  unfold scanChar, orM; cbv zeta; msteps.
  destruct rest as [| a [| b [| c rest]]];
    repeat (msteps; try split_if); scanned_done.
Qed.

Lemma scanSymbol_scanned pre ch rest t e :
  scanned pre (ch :: rest) t e
    (scanSymbol ch (fst (posAfter pre)) (snd (posAfter pre))
                (st pre (ch :: rest) t e)).
Proof.
  unfold scanSymbol; cbv zeta.
  destruct rest as [| a [| b rest]];
    repeat (msteps; try split_if); scanned_done.
Qed.

(** ** Runs of code points *)

Fixpoint takeWhile (p : rune -> bool) (l : list rune) : list rune :=
  match l with
  | [] => []
  | r :: l' => if p r then r :: takeWhile p l' else []
  end.

Fixpoint dropWhile (p : rune -> bool) (l : list rune) : list rune :=
  match l with
  | [] => []
  | r :: l' => if p r then dropWhile p l' else l
  end.

Lemma takeWhile_dropWhile p l : takeWhile p l ++ dropWhile p l = l.
Proof.
  induction l as [| r l IH]; cbn; [reflexivity |].
  destruct (p r); cbn; congruence.
Qed.

Lemma dropWhile_len p l : (len (dropWhile p l) <= len l)%nat.
Proof.
  induction l as [| r l IH]; cbn; [lia |]. destruct (p r); cbn; lia.
Qed.

(** A run that is followed by a code point outside [p] (or by the end of the
    input) is the maximal one. *)
Lemma takeWhile_app p run tail :
  Forall (fun r => p r = true) run -> p (nth 0 tail NUL) = false ->
  p NUL = false ->
  takeWhile p (run ++ tail) = run /\ dropWhile p (run ++ tail) = tail.
Proof.
  intros Hrun Htail H0. induction Hrun as [| r run Hr _ IH]; cbn.
  - destruct tail as [| a tail]; cbn in *; [auto |]. rewrite Htail. auto.
  - rewrite Hr. destruct IH as [-> ->]. auto.
Qed.

Lemma isIdentPart_NUL : isIdentPart NUL = false.
Proof. reflexivity. Qed.

Lemma isIdentStart_Part r : isIdentStart r = true -> isIdentPart r = true.
Proof. unfold isIdentStart, isIdentPart. intros ->. reflexivity. Qed.

(** ** Identifiers *)

Lemma scanIdent_loop_spec rest : forall pre b fuel t e,
  (len rest < fuel)%nat ->
  scanIdent_loop fuel b (st pre rest t e)
  = Ok (b ++ string_of_runes (takeWhile isIdentPart rest))
       (st (pre ++ takeWhile isIdentPart rest) (dropWhile isIdentPart rest) t e).
Proof.
  induction rest as [| r rest IH]; intros pre b fuel t e Hf;
    (destruct fuel as [| f]; [cbn in Hf; lia |]); cbn [scanIdent_loop].
  - msteps. rewrite isIdentPart_NUL. cbn. rewrite !app_nil_r. reflexivity.
  - msteps. cbn [takeWhile dropWhile]. destruct (isIdentPart r) eqn:E.
    + msteps. rewrite IH by (cbn in Hf; lia).
      unfold WriteRune. rewrite <- !app_assoc. reflexivity.
    + cbn. rewrite !app_nil_r. reflexivity.
Qed.

(** The kind [scanIdentOrKeyword] gives to a captured lexeme. *)
Definition identKind (lex : gostring) : TokenType :=
  match keywords_lookup (strings_ToLower lex) with
  | Some k => k
  | None => if typeNames_mem lex then TYPE_NAME else IDENT
  end.

Lemma scanIdentOrKeyword_spec pre rest t e fuel :
  (len rest < fuel)%nat ->
  scanIdentOrKeyword fuel (st pre rest t e)
  = Ok tt (st (pre ++ takeWhile isIdentPart rest) (dropWhile isIdentPart rest)
              (t ++ [mkToken (identKind (string_of_runes (takeWhile isIdentPart rest)))
                             (string_of_runes (takeWhile isIdentPart rest))
                             (fst (posAfter pre)) (snd (posAfter pre)) None None])
              e).
Proof.
  intros Hf. unfold scanIdentOrKeyword. msteps.
  erewrite bind_Ok by (apply scanIdent_loop_spec; exact Hf).
  cbn [app]. unfold identKind.
  destruct (keywords_lookup _); [| destruct (typeNames_mem _)]; msteps;
    reflexivity.
Qed.

Lemma scanIdentOrKeyword_scanned pre r rest t e fuel :
  isIdentStart r = true -> (len (r :: rest) < fuel)%nat ->
  scanned pre (r :: rest) t e (scanIdentOrKeyword fuel (st pre (r :: rest) t e)).
Proof.
  intros Hr Hf. rewrite scanIdentOrKeyword_spec by exact Hf.
  rewrite <- (takeWhile_dropWhile isIdentPart (r :: rest)) at 1.
  apply scanned_token.
  cbn. rewrite (isIdentStart_Part _ Hr). discriminate.
Qed.

(** ** Numbers *)

Lemma srcString_st lo hi a b pre rest t e :
  pre = a ++ b -> lo = Z.of_nat (len a) -> hi = Z.of_nat (len pre) ->
  srcString lo hi (st pre rest t e) = Ok (string_of_runes b) (st pre rest t e).
Proof.
  intros -> -> ->. unfold srcString.
  assert (Hs : src (st (a ++ b) rest t e) = (a ++ b) ++ rest) by reflexivity.
  rewrite Hs. unfold slice. rewrite !length_app.
  destruct (Z.leb_spec 0 (Z.of_nat (len a))); [| lia].
  destruct (Z.leb_spec (Z.of_nat (len a)) (Z.of_nat (len a + len b))); [| lia].
  destruct (Z.leb_spec (Z.of_nat (len a + len b))
                       (Z.of_nat (len a + len b + len rest))); [| lia].
  cbn [andb]. rewrite Nat2Z.id.
  replace (Z.to_nat (Z.of_nat (len a + len b) - Z.of_nat (len a)))
    with (len b) by lia.
  rewrite <- app_assoc, skipn_app, skipn_all, Nat.sub_diag. cbn [skipn app].
  rewrite firstn_app, firstn_all, Nat.sub_diag. cbn [firstn].
  rewrite app_nil_r. reflexivity.
Qed.

(** The condition of the decimal digit loops. *)
Definition decPart (c : rune) : bool := IsDigit c || (c =? "_"%r).

Lemma isBaseDigit_NUL base : isBaseDigit base NUL = false.
Proof.
  unfold isBaseDigit. change (IsDigit NUL) with false. cbn.
  rewrite !andb_false_r. reflexivity.
Qed.

Lemma digits_loop_spec rest : forall pre fuel t e,
  (len rest < fuel)%nat ->
  digits_loop fuel (st pre rest t e)
  = Ok tt (st (pre ++ takeWhile decPart rest) (dropWhile decPart rest) t e).
Proof.
  induction rest as [| r rest IH]; intros pre fuel t e Hf;
    (destruct fuel as [| f]; [cbn in Hf; lia |]);
    cbn [digits_loop]; unfold orM.
  - msteps. change (IsDigit NUL) with false. msteps.
    cbn. rewrite app_nil_r. reflexivity.
  - msteps. cbn [takeWhile dropWhile].
    assert (Hd : decPart r = IsDigit r || (r =? "_"%r)) by reflexivity.
    destruct (IsDigit r); [| msteps; destruct (r =? "_"%r)];
      cbn [orb] in Hd; rewrite Hd; msteps;
      try (rewrite IH by (cbn in Hf; lia); rewrite <- app_assoc);
      cbn [app]; rewrite ?app_nil_r; reflexivity.
Qed.

Lemma baseDigits_loop_spec base rest : forall pre count fuel t e,
  (len rest < fuel)%nat ->
  baseDigits_loop fuel base count (st pre rest t e)
  = Ok (count + Z.of_nat (len (takeWhile (isBaseDigit base) rest)))
       (st (pre ++ takeWhile (isBaseDigit base) rest)
           (dropWhile (isBaseDigit base) rest) t e).
Proof.
  induction rest as [| r rest IH]; intros pre count fuel t e Hf;
    (destruct fuel as [| f]; [cbn in Hf; lia |]);
    cbn [baseDigits_loop].
  - msteps. rewrite isBaseDigit_NUL. msteps.
    cbn. rewrite app_nil_r, Z.add_0_r. reflexivity.
  - msteps. cbn [takeWhile dropWhile].
    destruct (isBaseDigit base r); msteps.
    + rewrite IH by (cbn in Hf; lia). rewrite <- app_assoc.
      cbn [app len]. f_equal. lia.
    + cbn. rewrite app_nil_r, Z.add_0_r. reflexivity.
Qed.

Definition hasBasePrefix (rest : list rune) : bool :=
  (nth 0 rest NUL =? "0"%r)
  && ((nth 1 rest NUL =? "x"%r) || (nth 1 rest NUL =? "X"%r)
      || (nth 1 rest NUL =? "b"%r) || (nth 1 rest NUL =? "B"%r)
      || (nth 1 rest NUL =? "o"%r) || (nth 1 rest NUL =? "O"%r)).

Lemma isBasePrefix_st pre rest t e :
  isBasePrefix (st pre rest t e) = Ok (hasBasePrefix rest) (st pre rest t e).
Proof.
  unfold isBasePrefix, hasBasePrefix, andM, orM. msteps.
  destruct (nth 0 rest NUL =? 48); cbn [andb]; msteps; [| reflexivity].
  repeat (destruct (nth 1 rest NUL =? _); cbn [orb]; msteps;
          [reflexivity |]).
  reflexivity.
Qed.

(** How a scan attempt ends: with a token of some kind, or with a message. *)
Inductive scanResult : Type :=
| Emit (ty : TokenType)
| Fail (msg : gostring).

(** The final check of a decimal literal on its whole lexeme. *)
Definition decimalResult (m : list rune) (isFloat : bool) : scanResult :=
  if negb (validUnderscores (string_of_runes m)) then
    Fail (str "illegal underscore placement in number")
  else if isFloat || ContainsAny (string_of_runes m) (str ".eE") then
    Emit FLOAT_LIT
  else Emit INT_LIT.

(** The exponent of a decimal literal: after the text [m], with [r2] left. *)
Definition exponentRun (m r2 : list rune) (isFloat : bool)
    : list rune * list rune * scanResult :=
  if (nth 0 r2 NUL =? "e"%r) || (nth 0 r2 NUL =? "E"%r) then
    let r3 := skipn 1 r2 in
    let hasSign := (nth 0 r3 NUL =? "+"%r) || (nth 0 r3 NUL =? "-"%r) in
    let r4 := if hasSign then skipn 1 r3 else r3 in
    let mark := firstn 1 r2 ++ (if hasSign then firstn 1 r3 else []) in
    if negb (IsDigit (nth 0 r4 NUL)) then
      (m ++ mark, r4, Fail (str "invalid float exponent"))
    else
      let m' := m ++ mark ++ takeWhile decPart r4 in
      (m', dropWhile decPart r4, decimalResult m' true)
  else (m, r2, decimalResult m isFloat).

(** The text [scanNumber] consumes from the remaining input, what is left,
    and how the attempt ends. *)
Definition numberRun (rest : list rune) : list rune * list rune * scanResult :=
  if hasBasePrefix rest then
    let base := nth 1 rest NUL in
    let body := takeWhile (isBaseDigit base) (skipn 2 rest) in
    (firstn 2 rest ++ body, dropWhile (isBaseDigit base) (skipn 2 rest),
     if (Z.of_nat (len body) =? 0)
        || negb (validUnderscores (string_of_runes body))
     then Fail (baseMessage base) else Emit INT_LIT)
  else
    let int := takeWhile decPart rest in
    let r1 := dropWhile decPart rest in
    let hasFrac := (nth 0 r1 NUL =? "."%r) && IsDigit (nth 1 r1 NUL) in
    let frac :=
      if hasFrac then firstn 1 r1 ++ takeWhile decPart (skipn 1 r1) else [] in
    let r2 := if hasFrac then dropWhile decPart (skipn 1 r1) else r1 in
    exponentRun (int ++ frac) r2 hasFrac.

(** The state a scan attempt leaves behind. *)
Definition after (pre : list rune) (t : list Token) (e : list gostring)
    (run : list rune * list rune * scanResult) : Lexer :=
  let '(m, rest', res) := run in
  match res with
  | Emit ty => st (pre ++ m) rest' (t ++ [tokenAt pre m ty]) e
  | Fail msg => st (pre ++ m) rest' t (e ++ [errorFrom pre msg])
  end.

Lemma scanNumber_finish_spec pre m rest t e isFloat :
  scanNumber_finish (fst (posAfter pre)) (snd (posAfter pre))
                    (Z.of_nat (len pre)) isFloat (st (pre ++ m) rest t e)
  = Ok tt (after pre t e (m, rest, decimalResult m isFloat)).
Proof.
  unfold scanNumber_finish. msteps.
  erewrite bind_Ok by (apply (srcString_st _ _ pre m); reflexivity).
  unfold after, decimalResult.
  destruct (negb (validUnderscores _)); [msteps; reflexivity |].
  destruct (isFloat || _); msteps; reflexivity.
Qed.

Lemma hasBasePrefix_cons rest :
  hasBasePrefix rest = true ->
  exists c1 tl, rest = "0"%r :: c1 :: tl /\ c1 <> NUL.
Proof.
  unfold hasBasePrefix. intros H. apply andb_true_iff in H as [H0 H1].
  destruct rest as [| c0 [| c1 tl]]; cbn in *; try discriminate.
  apply Z.eqb_eq in H0. subst c0. exists c1, tl. split; [reflexivity |].
  intros ->. discriminate.
Qed.

Lemma scanNumber_spec pre rest t e fuel :
  (len rest < fuel)%nat ->
  scanNumber fuel (st pre rest t e) = Ok tt (after pre t e (numberRun rest)).
Proof.
  intros Hf. unfold scanNumber. msteps.
  erewrite bind_Ok by apply isBasePrefix_st.
  unfold numberRun. destruct (hasBasePrefix rest) eqn:Hp.
  - destruct (hasBasePrefix_cons _ Hp) as (c1 & tl & -> & _).
    cbn [nth skipn firstn]. msteps.
    erewrite bind_Ok by (apply baseDigits_loop_spec; cbn in Hf; lia).
    rewrite <- app_assoc. cbn [app]. msteps.
    erewrite bind_Ok
      by (apply (srcString_st _ _ (pre ++ ["0"%r; c1])
                   (takeWhile (isBaseDigit c1) tl));
          [ rewrite <- app_assoc; reflexivity
          | rewrite length_app; cbn; lia
          | reflexivity ]).
    cbn [Z.add]. unfold after.
    destruct (_ || _).
    + msteps. reflexivity.
    + msteps.
      erewrite bind_Ok by (apply (srcString_st _ _ pre); reflexivity).
      msteps. reflexivity.
  - erewrite bind_Ok by (apply digits_loop_spec; exact Hf).
    pose proof (dropWhile_len decPart rest) as Hl1.
    set (int := takeWhile decPart rest).
    (* the exponent part, whatever precedes it *)
    lazymatch goal with
    | |- bind _ (fun _ => bind _ ?K) _ = _ =>
        assert (Htail : forall m r2 isFloat, (len r2 < fuel)%nat ->
                  K isFloat (st (pre ++ m) r2 t e)
                  = Ok tt (after pre t e (exponentRun m r2 isFloat)))
    end.
    { intros m r2 isFloat Hl. unfold exponentRun, orM. msteps.
      destruct r2 as [| x r3]; nsimp.
      - msteps. apply scanNumber_finish_spec.
      - destruct (x =? "e"%r) eqn:E1; [| msteps; destruct (x =? "E"%r) eqn:E2];
          nsimp; msteps; [| | apply scanNumber_finish_spec].
        all: destruct r3 as [| s r4]; nsimp;
          [ msteps; change (IsDigit NUL) with false; nsimp; msteps;
            reflexivity |].
        all: destruct (s =? "+"%r) eqn:S1;
          [| msteps; destruct (s =? "-"%r) eqn:S2]; nsimp; msteps.
        all: match goal with
             | |- context [IsDigit ?d] => destruct (IsDigit d) eqn:D
             end; nsimp; msteps; [| reflexivity].
        all: erewrite bind_Ok
               by (apply digits_loop_spec; cbn [len] in *; lia);
          rewrite <- ?app_assoc; cbn [app]; apply scanNumber_finish_spec. }
    cbv beta in Htail. unfold andM. msteps.
    destruct (dropWhile decPart rest) as [| d r1]; nsimp.
    + msteps. rewrite app_nil_r. apply Htail. cbn; lia.
    + destruct (d =? "."%r) eqn:E1; nsimp; msteps.
      * destruct (IsDigit (nth 0 r1 NUL)) eqn:E2; msteps.
        -- erewrite bind_Ok by (apply digits_loop_spec; cbn [len] in *; lia).
           msteps.
           pose proof (dropWhile_len decPart r1).
           apply Htail. cbn [len] in *; lia.
        -- rewrite app_nil_r. apply Htail. cbn [len] in *; lia.
      * rewrite app_nil_r. apply Htail. cbn [len] in *; lia.
Qed.

Lemma firstn1_skipn1 (l : list rune) : firstn 1 l ++ skipn 1 l = l.
Proof. apply firstn_skipn. Qed.

Lemma decimalResult_invalid m isFloat :
  validUnderscores (string_of_runes m) = false ->
  decimalResult m isFloat = Fail (str "illegal underscore placement in number").
Proof. unfold decimalResult. intros ->. reflexivity. Qed.

Lemma exponentRun_app m r2 isFloat :
  exists x r' res,
    exponentRun m r2 isFloat = (m ++ x, r', res) /\ r2 = x ++ r' /\
    (validUnderscores (string_of_runes (m ++ x)) = false ->
     exists msg, res = Fail msg).
Proof.
  unfold exponentRun.
  destruct ((nth 0 r2 NUL =? "e"%r) || (nth 0 r2 NUL =? "E"%r)).
  - set (r3 := skipn 1 r2).
    set (hasSign := (nth 0 r3 NUL =? "+"%r) || (nth 0 r3 NUL =? "-"%r)).
    set (r4 := if hasSign then skipn 1 r3 else r3).
    set (mark := firstn 1 r2 ++ (if hasSign then firstn 1 r3 else [])).
    assert (Hm : r2 = mark ++ r4).
    { subst mark r4. rewrite <- app_assoc.
      rewrite <- (firstn1_skipn1 r2) at 1. f_equal. fold r3.
      destruct hasSign; [symmetry; apply firstn1_skipn1 | reflexivity]. }
    destruct (negb (IsDigit (nth 0 r4 NUL))).
    + exists mark, r4, (Fail (str "invalid float exponent")). eauto.
    + exists (mark ++ takeWhile decPart r4), (dropWhile decPart r4).
      eexists. split; [reflexivity |]. split.
      * rewrite <- app_assoc, takeWhile_dropWhile. exact Hm.
      * intros Hv. rewrite decimalResult_invalid by exact Hv. eauto.
  - exists [], r2. eexists. rewrite app_nil_r.
    split; [reflexivity |]. split; [reflexivity |].
    intros Hv. rewrite decimalResult_invalid by exact Hv. eauto.
Qed.

(** The text of a literal that carries its digits: all of a decimal
    literal, and what follows the two code points of a base prefix. *)
Definition digitText (rest m : list rune) : list rune :=
  if hasBasePrefix rest then skipn 2 m else m.

(** [numberRun] splits the remaining input, takes at least the digit it
    starts at, and fails when the digit-bearing text does not pass
    [validUnderscores]. *)
Lemma numberRun_app rest :
  exists m rest' res,
    numberRun rest = (m, rest', res) /\
    rest = m ++ rest' /\
    (IsDigit (nth 0 rest NUL) = true -> m <> []) /\
    (validUnderscores (string_of_runes (digitText rest m)) = false ->
     exists msg, res = Fail msg).
Proof.
  unfold numberRun, digitText.
  destruct (hasBasePrefix rest) eqn:Hp.
  - destruct (hasBasePrefix_cons _ Hp) as (c1 & tl & Heq & _).
    rewrite Heq. cbn [nth skipn firstn].
    do 3 eexists. split; [reflexivity |].
    split; [| split; [discriminate |]].
    + cbn [app]. now rewrite takeWhile_dropWhile.
    + cbn [app skipn]. intros ->. rewrite orb_true_r. eauto.
  - set (int := takeWhile decPart rest).
    set (r1 := dropWhile decPart rest).
    set (hasFrac := (nth 0 r1 NUL =? "."%r) && IsDigit (nth 1 r1 NUL)).
    set (frac := if hasFrac
                 then firstn 1 r1 ++ takeWhile decPart (skipn 1 r1) else []).
    set (r2 := if hasFrac then dropWhile decPart (skipn 1 r1) else r1).
    destruct (exponentRun_app (int ++ frac) r2 hasFrac)
      as (x & r' & res & -> & Hr2 & Hv).
    do 3 eexists. split; [reflexivity |]. split; [| split; [| exact Hv]].
    + rewrite <- !app_assoc, <- Hr2.
      assert (H1 : r1 = frac ++ r2).
      { subst frac r2. destruct hasFrac; [| reflexivity].
        rewrite <- app_assoc, takeWhile_dropWhile.
        symmetry; apply firstn1_skipn1. }
      rewrite <- H1. subst int r1. symmetry. apply takeWhile_dropWhile.
    + intros Hr. subst int. destruct rest as [| r rest]; [discriminate Hr |].
      cbn [nth] in Hr. cbn [takeWhile]. unfold decPart at 1. rewrite Hr.
      discriminate.
Qed.

Lemma after_scanned pre rest t e m rest' res :
  rest = m ++ rest' -> m <> [] ->
  scanned pre rest t e (Ok tt (after pre t e (m, rest', res))).
Proof.
  intros -> Hm. unfold after. destruct res.
  - apply scanned_token; assumption.
  - apply scanned_error; assumption.
Qed.

Lemma scanNumber_scanned pre r rest t e fuel :
  IsDigit r = true -> (len (r :: rest) < fuel)%nat ->
  scanned pre (r :: rest) t e (scanNumber fuel (st pre (r :: rest) t e)).
Proof.
  intros Hr Hf. rewrite scanNumber_spec by exact Hf.
  destruct (numberRun_app (r :: rest)) as (m & rest' & res & -> & Hs & Hm & _).
  apply after_scanned; [exact Hs | exact (Hm Hr)].
Qed.

(** ** Strings *)

Lemma RuneLen_pos r : 1 <= RuneLen r.
Proof. unfold RuneLen. repeat destruct (_ <? _); lia. Qed.

Lemma Len_app b x : Len (b ++ [x]) = Len b + RuneLen x.
Proof.
  unfold Len. induction b as [| a b IH]; cbn [app fold_right] in *; lia.
Qed.

Lemma Len_nonempty b : b <> [] -> 1 <= Len b.
Proof.
  destruct b as [| a b]; [congruence |]. intros _.
  unfold Len. cbn [fold_right].
  pose proof (RuneLen_pos a).
  assert (0 <= fold_right (fun r n => RuneLen r + n) 0 b).
  { clear. induction b as [| x b IH]; cbn [fold_right]; [lia |].
    pose proof (RuneLen_pos x). lia. }
  lia.
Qed.

Lemma Len_WriteRune b r : b <> [] -> (Len (WriteRune b r) >=? 2) = true.
Proof.
  intros Hb. unfold WriteRune. rewrite Len_app.
  pose proof (Len_nonempty b Hb). pose proof (RuneLen_pos (fixRune r)).
  apply Z.geb_le. lia.
Qed.

Lemma DecodeLast_WriteRune b r :
  DecodeLastRuneInString (WriteRune b r) = fixRune r.
Proof. unfold DecodeLastRuneInString, WriteRune. apply last_last. Qed.

Lemma fixRune_DQUOTE r : (fixRune r =? DQUOTE) = (r =? DQUOTE).
Proof.
  unfold fixRune. destruct (ValidRune r) eqn:V; [reflexivity |].
  destruct (Z.eqb_spec r DQUOTE) as [-> |]; [discriminate V | reflexivity].
Qed.

Lemma WriteRune_nonempty b r : WriteRune b r <> [].
Proof. unfold WriteRune. destruct b; discriminate. Qed.

(** How the body of a double-quoted string ends. *)
Inductive strEnd : Type :=
| StrClosed     (* at a closing quote *)
| StrOpen       (* at the end of the input, U+0000 or a newline *)
| StrEscape.    (* after a backslash that nothing may follow *)

(** The body of a double-quoted string, after the opening quote: the text
    consumed, the text left, and how it ended.  U+0000 is where [peek]
    reports the end of the input. *)
Fixpoint stringRun (rest : list rune) : list rune * list rune * strEnd :=
  match rest with
  | [] => ([], [], StrOpen)
  | c :: rs =>
      if (c =? NUL) || (c =? LF) then ([], rest, StrOpen)
      else if c =? "\"%r then
        match rs with
        | [] => ([c], [], StrEscape)
        | d :: rs' =>
            if (d =? NUL) || (d =? LF) then ([c], rs, StrEscape)
            else let '(m, r, k) := stringRun rs' in (c :: d :: m, r, k)
        end
      else if c =? DQUOTE then ([c], rs, StrClosed)
      else let '(m, r, k) := stringRun rs in (c :: m, r, k)
  end.

Definition stringLoopEnd (l c : Z) (b : Builder) (pre : list rune)
    (t : list Token) (e : list gostring)
    (run : list rune * list rune * strEnd) : outcome (option Builder) :=
  let '(m, r, k) := run in
  match k with
  | StrClosed => Ok (Some (b ++ string_of_runes m)) (st (pre ++ m) r t e)
  | StrOpen =>
      Ok None (st (pre ++ m) r t
                  (e ++ [errorString l c (str "unterminated string literal")]))
  | StrEscape =>
      Ok None (st (pre ++ m) r t
                  (e ++ [errorString l c (str "unterminated string escape")]))
  end.

Lemma stringLoopEnd_cons l c b pre t e x m r k :
  stringLoopEnd l c (b ++ string_of_runes x) (pre ++ x) t e (m, r, k)
  = stringLoopEnd l c b pre t e (x ++ m, r, k).
Proof.
  unfold stringLoopEnd, string_of_runes.
  rewrite map_app, <- !app_assoc. reflexivity.
Qed.

Lemma scanString_loop_spec fuel : forall rest pre b l c t e,
  (len rest < fuel)%nat -> b <> [] ->
  scanString_loop fuel l c b (st pre rest t e)
  = stringLoopEnd l c b pre t e (stringRun rest).
Proof.
  induction fuel as [| f IH]; intros rest pre b l c t e Hf Hb; [lia |].
  cbn [scanString_loop]. unfold orM.
  destruct rest as [| ch rs]; msteps.
  { cbn. rewrite app_nil_r. reflexivity. }
  cbn [stringRun].
  destruct ((ch =? NUL) || (ch =? LF)) eqn:E0; msteps.
  { cbn. rewrite app_nil_r. reflexivity. }
  destruct (Z.eqb_spec ch "\"%r) as [-> | Hbs]; msteps.
  - destruct rs as [| d rs']; msteps; [reflexivity |].
    destruct (Z.eqb_spec d NUL) as [-> | Hd0]; msteps; [reflexivity |].
    destruct (Z.eqb_spec d LF) as [-> | Hd1]; msteps; [reflexivity |].
    rewrite IH by (cbn [len] in *; first [lia | apply WriteRune_nonempty]).
    destruct (stringRun rs') as [[m r] k].
    unfold WriteRune. rewrite <- app_assoc.
    apply (stringLoopEnd_cons l c b pre t e ["\"%r; d]).
  - rewrite Len_WriteRune by exact Hb. unfold andM. msteps.
    rewrite DecodeLast_WriteRune, fixRune_DQUOTE.
    destruct (Z.eqb_spec ch DQUOTE) as [-> | Hq]; msteps.
    + destruct (Z.eqb_spec DQUOTE "\"%r); [discriminate |]. msteps.
      reflexivity.
    + destruct rs as [| q rs']; msteps.
      * rewrite IH by (cbn [len] in *; first [lia | apply WriteRune_nonempty]).
        apply (stringLoopEnd_cons l c b pre t e [ch]).
      * destruct (Z.eqb_spec q DQUOTE) as [-> | Hq'].
        -- msteps. unfold WriteRune. rewrite <- app_assoc. reflexivity.
        -- rewrite IH
             by (cbn [len] in *; first [lia | apply WriteRune_nonempty]).
           destruct (stringRun (q :: rs')) as [[m r] k].
           apply (stringLoopEnd_cons l c b pre t e [ch]).
Qed.

Definition stringResult (k : strEnd) : scanResult :=
  match k with
  | StrClosed => Emit STRING_LIT
  | StrOpen => Fail (str "unterminated string literal")
  | StrEscape => Fail (str "unterminated string escape")
  end.

(** What [scanString] does from the opening quote [q] on. *)
Definition stringAttempt (q : rune) (rest : list rune)
    : list rune * list rune * scanResult :=
  let '(m, r, k) := stringRun rest in (q :: m, r, stringResult k).

Lemma scanString_spec pre q rest t e fuel :
  (len rest < fuel)%nat ->
  scanString fuel (st pre (q :: rest) t e)
  = Ok tt (after pre t e (stringAttempt q rest)).
Proof.
  intros Hf. unfold scanString, stringAttempt. msteps.
  erewrite bind_eq
    by (apply scanString_loop_spec; [exact Hf | apply WriteRune_nonempty]).
  destruct (stringRun rest) as [[m r] k].
  destruct k; cbn [stringLoopEnd stringResult after]; msteps; reflexivity.
Qed.

Lemma stringRun_app n : forall rest,
  (len rest <= n)%nat ->
  let '(m, r, _) := stringRun rest in rest = m ++ r.
Proof.
  induction n as [| n IH]; intros rest Hn.
  - destruct rest; [reflexivity | cbn in Hn; lia].
  - destruct rest as [| c rs]; [reflexivity |]. cbn [stringRun].
    destruct ((c =? NUL) || (c =? LF)); [reflexivity |].
    destruct (c =? "\"%r).
    + destruct rs as [| d rs']; [reflexivity |].
      destruct ((d =? NUL) || (d =? LF)); [reflexivity |].
      specialize (IH rs'). destruct (stringRun rs') as [[m r] k].
      cbn [app]. rewrite <- IH by (cbn in Hn; lia). reflexivity.
    + destruct (c =? DQUOTE); [reflexivity |].
      specialize (IH rs). destruct (stringRun rs) as [[m r] k].
      cbn [app]. rewrite <- IH by (cbn in Hn; lia). reflexivity.
Qed.

Lemma scanString_scanned pre q rest t e fuel :
  (len (q :: rest) < fuel)%nat ->
  scanned pre (q :: rest) t e (scanString fuel (st pre (q :: rest) t e)).
Proof.
  intros Hf. rewrite scanString_spec by (cbn in Hf; lia).
  unfold stringAttempt.
  pose proof (stringRun_app (len rest) rest (Nat.le_refl _)) as Happ.
  destruct (stringRun rest) as [[m r] k].
  apply after_scanned; [cbn; congruence | discriminate].
Qed.

(** The body of a raw string, after the opening back quote: the text
    consumed, the text left, and whether a closing back quote was found. *)
Fixpoint rawRun (rest : list rune) : list rune * list rune * bool :=
  match rest with
  | [] => ([], [], false)
  | c :: rs =>
      if c =? NUL then ([], rest, false)
      else if c =? "`"%r then ([c], rs, true)
      else let '(m, r, k) := rawRun rs in (c :: m, r, k)
  end.

Definition rawAttempt (q : rune) (rest : list rune)
    : list rune * list rune * scanResult :=
  let '(m, r, k) := rawRun rest in
  (q :: m, r,
   if k then Emit STRING_LIT else Fail (str "unterminated raw string")).

Lemma scanRawString_loop_spec rest : forall fuel pre b l c t e,
  (len rest < fuel)%nat ->
  scanRawString_loop fuel l c b (st pre rest t e)
  = let '(m, r, k) := rawRun rest in
    if k then Ok (Some (b ++ string_of_runes m)) (st (pre ++ m) r t e)
    else Ok None (st (pre ++ m) r t
                     (e ++ [errorString l c (str "unterminated raw string")])).
Proof.
  induction rest as [| ch rs IH]; intros fuel pre b l c t e Hf;
    (destruct fuel as [| f]; [cbn in Hf; lia |]);
    cbn [scanRawString_loop rawRun]; msteps.
  { rewrite app_nil_r. reflexivity. }
  destruct (Z.eqb_spec ch NUL) as [-> | H0]; msteps.
  { rewrite app_nil_r. reflexivity. }
  destruct (Z.eqb_spec ch "`"%r) as [-> | Hq]; msteps; [reflexivity |].
  rewrite IH by (cbn in Hf; lia).
  destruct (rawRun rs) as [[m r] k].
  unfold WriteRune. rewrite <- !app_assoc. reflexivity.
Qed.

Lemma scanRawString_spec pre q rest t e fuel :
  (len rest < fuel)%nat ->
  scanRawString fuel (st pre (q :: rest) t e)
  = Ok tt (after pre t e (rawAttempt q rest)).
Proof.
  intros Hf. unfold scanRawString, rawAttempt. msteps.
  erewrite bind_eq by (apply scanRawString_loop_spec; exact Hf).
  destruct (rawRun rest) as [[m r] k].
  destruct k; cbn [after]; msteps; reflexivity.
Qed.

Lemma rawRun_app rest : let '(m, r, _) := rawRun rest in rest = m ++ r.
Proof.
  induction rest as [| c rs IH]; [reflexivity |]. cbn [rawRun].
  destruct (c =? NUL); [reflexivity |].
  destruct (c =? "`"%r); [reflexivity |].
  destruct (rawRun rs) as [[m r] k]. cbn [app]. congruence.
Qed.

Lemma scanRawString_scanned pre q rest t e fuel :
  (len (q :: rest) < fuel)%nat ->
  scanned pre (q :: rest) t e (scanRawString fuel (st pre (q :: rest) t e)).
Proof.
  intros Hf. rewrite scanRawString_spec by (cbn in Hf; lia).
  unfold rawAttempt. pose proof (rawRun_app rest) as Happ.
  destruct (rawRun rest) as [[m r] k].
  apply after_scanned; [cbn; congruence | discriminate].
Qed.

(** ** Trivia *)

Lemma lineComment_loop_stop fuel ch lx :
  ch = LF \/ ch = NUL -> lineComment_loop fuel ch lx = Ok tt lx.
Proof. intros [-> | ->]; destruct fuel; reflexivity. Qed.

Lemma lineComment_loop_post fuel : forall rest ch pre t e,
  (len rest < fuel)%nat ->
  exists m rest',
    rest = m ++ rest' /\
    lineComment_loop fuel ch (st pre rest t e) = Ok tt (st (pre ++ m) rest' t e) /\
    (ch <> LF -> ch <> NUL -> rest <> [] -> m <> []).
Proof.
  induction fuel as [| f IH]; intros rest ch pre t e Hf; [lia |].
  cbn [lineComment_loop].
  destruct (Z.eqb_spec ch LF) as [-> | H1]; cbn [negb andb].
  { exists [], rest. rewrite !app_nil_r. repeat split. intros; lia. }
  destruct (Z.eqb_spec ch NUL) as [-> | H0]; cbn [negb andb].
  { exists [], rest. rewrite !app_nil_r. repeat split. intros; lia. }
  destruct rest as [| x rs]; msteps.
  - exists [], [].
    rewrite lineComment_loop_stop by auto. rewrite !app_nil_r.
    repeat split. tauto.
  - destruct (IH rs x (pre ++ [x]) t e) as (m & rest' & -> & Heq & _);
      [cbn in Hf; lia |].
    exists (x :: m), rest'. rewrite Heq, <- app_assoc.
    repeat split. discriminate.
Qed.

Lemma blockComment_loop_post fuel : forall rest pre sl sc depth t e,
  (len rest < fuel)%nat ->
  exists m rest',
    rest = m ++ rest' /\
    (blockComment_loop fuel sl sc depth (st pre rest t e)
     = Ok true (st (pre ++ m) rest' t e)
     \/ (nth 0 rest' NUL = NUL /\
         blockComment_loop fuel sl sc depth (st pre rest t e)
         = Ok false
             (st (pre ++ m) rest' t
                 (e ++ [errorString sl sc (str "unterminated block comment")])))).
Proof.
  induction fuel as [| f IH]; intros rest pre sl sc depth t e Hf; [lia |].
  cbn [blockComment_loop].
  destruct (depth >? 0).
  2:{ exists [], rest. rewrite !app_nil_r. split; [reflexivity |].
      left; reflexivity. }
  unfold andM.
  destruct rest as [| c rs]; msteps.
  { exists [], []. rewrite !app_nil_r. split; [reflexivity |].
    right; split; reflexivity. }
  destruct (Z.eqb_spec c NUL) as [-> | H0]; msteps.
  { exists [], (NUL :: rs). rewrite !app_nil_r.
    split; [reflexivity |]. right; split; reflexivity. }
  assert (Hone : forall d,
    exists m rest',
      c :: rs = m ++ rest' /\
      (blockComment_loop f sl sc d (st (pre ++ [c]) rs t e)
       = Ok true (st (pre ++ m) rest' t e)
       \/ (nth 0 rest' NUL = NUL /\
           blockComment_loop f sl sc d (st (pre ++ [c]) rs t e)
           = Ok false
               (st (pre ++ m) rest' t
                   (e ++ [errorString sl sc
                            (str "unterminated block comment")]))))).
  { intros d.
    destruct (IH rs (pre ++ [c]) sl sc d t e) as (m & rest' & -> & Hr);
      [cbn in Hf; lia |].
    exists (c :: m), rest'. rewrite <- app_assoc in Hr. auto. }
  assert (Htwo : forall x rs' d, rs = x :: rs' ->
    exists m rest',
      c :: rs = m ++ rest' /\
      (blockComment_loop f sl sc d (st (pre ++ [c; x]) rs' t e)
       = Ok true (st (pre ++ m) rest' t e)
       \/ (nth 0 rest' NUL = NUL /\
           blockComment_loop f sl sc d (st (pre ++ [c; x]) rs' t e)
           = Ok false
               (st (pre ++ m) rest' t
                   (e ++ [errorString sl sc
                            (str "unterminated block comment")]))))).
  { intros x rs' d ->.
    destruct (IH rs' (pre ++ [c; x]) sl sc d t e) as (m & rest' & -> & Hr);
      [cbn in Hf; lia |].
    exists (c :: x :: m), rest'. rewrite <- app_assoc in Hr. auto. }
  destruct (Z.eqb_spec c "/"%r) as [-> | Hs]; msteps.
  - destruct rs as [| x rs']; msteps; [apply Hone |].
    destruct (Z.eqb_spec x "*"%r) as [-> | Hx]; msteps.
    + eapply Htwo; reflexivity.
    + apply Hone.
  - destruct (Z.eqb_spec c "*"%r) as [-> | Hc]; msteps; [| apply Hone].
    destruct rs as [| x rs']; msteps; [apply Hone |].
    destruct (Z.eqb_spec x "/"%r) as [-> | Hx]; msteps.
    + eapply Htwo; reflexivity.
    + apply Hone.
Qed.

(** [skipped pre rest t e o]: started on [st pre rest t e], the skipper
    ends in outcome [o], having consumed a prefix [m] of [rest] and either
    recorded nothing, or recorded one error at the opening of a block
    comment inside [m], in which case [peek] reports the end of the input
    where it stopped. *)
Definition skipped (pre rest : list rune) (t : list Token)
    (e : list gostring) (o : outcome unit) : Prop :=
  exists m rest',
    rest = m ++ rest' /\
    (o = Ok tt (st (pre ++ m) rest' t e)
     \/ exists m1 m2,
         m = m1 ++ "/"%r :: "*"%r :: m2 /\ nth 0 rest' NUL = NUL /\
         o = Ok tt (st (pre ++ m) rest' t
                       (e ++ [errorFrom (pre ++ m1)
                                (str "unterminated block comment")]))).

Lemma skipped_more pre x rest rest0 t e o :
  rest0 = x ++ rest ->
  skipped (pre ++ x) rest t e o -> skipped pre rest0 t e o.
Proof.
  intros -> (m & rest' & -> & H). exists (x ++ m), rest'.
  rewrite <- !app_assoc in *. split; [reflexivity |].
  destruct H as [-> | (m1 & m2 & -> & Hn & ->)]; [now left |].
  right. exists (x ++ m1), m2. rewrite <- !app_assoc. auto.
Qed.

Lemma skipWSAndComments_skipped fuel : forall rest pre t e,
  (len rest < fuel)%nat ->
  skipped pre rest t e (skipWSAndComments fuel (st pre rest t e)).
Proof.
  induction fuel as [| f IH]; intros rest pre t e Hf; [lia |].
  cbn [skipWSAndComments]. cbv zeta. msteps.
  assert (Hstop : skipped pre rest t e (Ok tt (st pre rest t e))).
  { exists [], rest. rewrite !app_nil_r. auto. }
  destruct rest as [| ch rs]; nsimp; [exact Hstop |].
  destruct (isSpace ch) eqn:Hsp; msteps.
  { apply (skipped_more pre [ch] rs); [reflexivity |].
    apply IH. cbn in Hf; lia. }
  destruct (Z.eqb_spec ch "/"%r) as [-> | Hs]; msteps; [| exact Hstop].
  destruct rs as [| n rs']; msteps; [exact Hstop |].
  destruct (Z.eqb_spec n "/"%r) as [-> | Hn]; msteps.
  - destruct (lineComment_loop_post (S f) ("/"%r :: "/"%r :: rs') "/"%r pre t e Hf)
      as (m & rest' & Heq & Hrun & Hm).
    erewrite bind_Ok by exact Hrun.
    apply (skipped_more pre m rest'); [exact Heq |]. apply IH.
    assert (m <> []) by (apply Hm; discriminate).
    apply (f_equal (@Datatypes.length _)) in Heq.
    rewrite length_app in Heq. cbn [len] in *.
    destruct m; [congruence | cbn [len] in *; lia].
  - destruct (Z.eqb_spec n "*"%r) as [-> | Hn']; msteps; [| exact Hstop].
    destruct (blockComment_loop_post (S f) rs' (pre ++ ["/"%r; "*"%r])
                (fst (posAfter pre)) (snd (posAfter pre)) 1 t e)
      as (m & rest' & -> & [Hrun | [Hnul Hrun]]);
      [cbn in Hf; lia | |];
      erewrite bind_Ok by exact Hrun; rewrite <- app_assoc; cbn [app]; msteps.
    + apply (skipped_more pre ("/"%r :: "*"%r :: m) rest'); [reflexivity |].
      apply IH.
      cbn [len] in Hf. rewrite length_app in Hf. lia.
    + exists ("/"%r :: "*"%r :: m), rest'. split; [reflexivity |].
      right. exists [], m. rewrite !app_nil_r. auto.
Qed.

(** ** One call of [nextToken] *)

Lemma scanned_then_true pre rest t e (m : M unit) lx :
  scanned pre rest t e (m lx) ->
  exists lx', scanned pre rest t e (Ok tt lx') /\
              bind m (fun _ => ret true) lx = Ok true lx'.
Proof.
  intros H. pose proof H as (a & rest' & Hr & Ha & [(ty & Ho) | (msg & Ho)]);
    rewrite Ho in H; eexists; (split; [exact H |]);
    unfold bind; rewrite Ho; reflexivity.
Qed.

Lemma dispatch_stop fuel pre rest t e :
  nth 0 rest NUL = NUL ->
  dispatch fuel (st pre rest t e) = Ok false (st pre rest t e).
Proof. intros H. unfold dispatch. msteps. rewrite H. reflexivity. Qed.

Lemma dispatch_scanned fuel pre rest t e :
  (len rest < fuel)%nat -> nth 0 rest NUL <> NUL ->
  exists lx', scanned pre rest t e (Ok tt lx') /\
              dispatch fuel (st pre rest t e) = Ok true lx'.
Proof.
  intros Hf Hn. unfold dispatch. msteps.
  destruct rest as [| ch rs]; [contradiction |]. nsimp. cbn [nth] in Hn.
  destruct (Z.eqb_spec ch NUL); [contradiction |]. msteps.
  destruct (isIdentStart ch) eqn:Hs.
  { apply scanned_then_true, scanIdentOrKeyword_scanned; assumption. }
  destruct (IsDigit ch) eqn:Hd.
  { apply scanned_then_true, scanNumber_scanned; assumption. }
  destruct (Z.eqb_spec ch DQUOTE) as [-> |].
  { apply scanned_then_true, scanString_scanned; assumption. }
  destruct (Z.eqb_spec ch "`"%r) as [-> |].
  { apply scanned_then_true, scanRawString_scanned; assumption. }
  destruct (Z.eqb_spec ch "'"%r) as [-> |].
  { apply scanned_then_true, scanChar_scanned. }
  apply scanned_then_true, scanSymbol_scanned.
Qed.

(** ** The whole run, call by call *)

(** The three states of one call of [nextToken]: when it is called, when
    [skipWSAndComments] has returned, and when it returns. *)
Record step := mkStep {
  atCall : Lexer;
  atScan : Lexer;
  atReturn : Lexer
}.

(** The calls of [nextToken] that [LexAll] makes, in order. *)
Fixpoint LexAll_steps (fuel : nat) (lx : Lexer) : list step :=
  match skipWSAndComments fuel lx with
  | Ok _ lx1 =>
      match dispatch fuel lx1 with
      | Ok more lx2 =>
          mkStep lx lx1 lx2 ::
          (if more then
             match fuel with
             | O => []
             | S f => LexAll_steps f lx2
             end
           else [])
      | _ => []
      end
  | _ => []
  end.

(** What the skipper may have added to the error list. *)
Definition skipErrors (pre m rest' : list rune) (e e' : list gostring) : Prop :=
  e' = e \/
  exists m1 m2,
    m = m1 ++ "/"%r :: "*"%r :: m2 /\ nth 0 rest' NUL = NUL /\
    e' = e ++ [errorFrom (pre ++ m1) (str "unterminated block comment")].

(** [Run pre rest t e steps final]: the calls [steps] lead from
    [st pre rest t e] to the state [final] in which [LexAll] returns. *)
Inductive Run : list rune -> list rune -> list Token -> list gostring ->
                list step -> Lexer -> Prop :=
| Run_stop pre m rest' t e e' :
    skipErrors pre m rest' e e' -> nth 0 rest' NUL = NUL ->
    Run pre (m ++ rest') t e
        [mkStep (st pre (m ++ rest') t e) (st (pre ++ m) rest' t e')
                (st (pre ++ m) rest' t e')]
        (st (pre ++ m) rest' t e')
| Run_token pre m a rest' t e ty steps final :
    a <> [] ->
    Run (pre ++ m ++ a) rest' (t ++ [tokenAt (pre ++ m) a ty]) e steps final ->
    Run pre (m ++ a ++ rest') t e
        (mkStep (st pre (m ++ a ++ rest') t e) (st (pre ++ m) (a ++ rest') t e)
                (st (pre ++ m ++ a) rest' (t ++ [tokenAt (pre ++ m) a ty]) e)
         :: steps)
        final
| Run_error pre m a rest' t e msg steps final :
    a <> [] ->
    Run (pre ++ m ++ a) rest' t (e ++ [errorFrom (pre ++ m) msg]) steps final ->
    Run pre (m ++ a ++ rest') t e
        (mkStep (st pre (m ++ a ++ rest') t e) (st (pre ++ m) (a ++ rest') t e)
                (st (pre ++ m ++ a) rest' t (e ++ [errorFrom (pre ++ m) msg]))
         :: steps)
        final.

Lemma LexAll_Run fuel : forall rest pre t e,
  (len rest < fuel)%nat ->
  exists final,
    Run pre rest t e (LexAll_steps fuel (st pre rest t e)) final /\
    LexAll fuel (st pre rest t e) = Ok (tokens final, errors final) final.
Proof.
  induction fuel as [| f IH]; intros rest pre t e Hf; [lia |].
  cbn [LexAll_steps LexAll]. unfold nextToken. rewrite bind_bind.
  destruct (skipWSAndComments_skipped (S f) rest pre t e Hf)
    as (m & rest1 & -> & Hskip).
  assert (Hstop : forall e', skipErrors pre m rest1 e e' ->
            nth 0 rest1 NUL = NUL ->
            skipWSAndComments (S f) (st pre (m ++ rest1) t e)
            = Ok tt (st (pre ++ m) rest1 t e') ->
            exists final,
              Run pre (m ++ rest1) t e
                  (LexAll_steps (S f) (st pre (m ++ rest1) t e)) final /\
              bind (skipWSAndComments (S f))
                   (fun _ => bind (dispatch (S f))
                     (fun more => if more then LexAll f
                                  else toks <- gets tokens ;;
                                       errs <- gets errors ;;
                                       ret (toks, errs)))
                   (st pre (m ++ rest1) t e)
              = Ok (tokens final, errors final) final).
  { intros e' He' Hn Heq. exists (st (pre ++ m) rest1 t e').
    cbn [LexAll_steps]. erewrite bind_Ok by exact Heq. rewrite Heq.
    erewrite bind_Ok by (apply dispatch_stop; exact Hn).
    rewrite dispatch_stop by exact Hn.
    split; [apply Run_stop; assumption | reflexivity]. }
  destruct Hskip as [Heq | (m1 & m2 & Hm & Hn & Heq)].
  2:{ apply (Hstop _ (or_intror (ex_intro _ m1 (ex_intro _ m2
               (conj Hm (conj Hn eq_refl))))) Hn Heq). }
  destruct (Z.eq_dec (nth 0 rest1 NUL) NUL) as [Hn | Hn].
  { apply (Hstop e (or_introl eq_refl) Hn Heq). }
  rewrite length_app in Hf.
  destruct (dispatch_scanned (S f) (pre ++ m) rest1 t e ltac:(lia) Hn)
    as (lx' & (a & rest' & -> & Ha & Hres) & Hd).
  erewrite bind_Ok by exact Heq. rewrite Heq.
  erewrite bind_Ok by exact Hd. rewrite Hd.
  assert (Hlen : (len rest' < f)%nat).
  { rewrite length_app in Hf. destruct a; [congruence |]. cbn [len] in Hf. lia. }
  destruct Hres as [(ty & Hlx) | (msg & Hlx)]; injection Hlx as ->;
    rewrite <- app_assoc.
  - destruct (IH rest' (pre ++ m ++ a) (t ++ [tokenAt (pre ++ m) a ty]) e Hlen)
      as (final & HR & HL).
    exists final. rewrite HL. split; [apply Run_token; assumption | reflexivity].
  - destruct (IH rest' (pre ++ m ++ a) t
                 (e ++ [errorFrom (pre ++ m) msg]) Hlen)
      as (final & HR & HL).
    exists final. rewrite HL. split; [apply Run_error; assumption | reflexivity].
Qed.

(** * The claims *)

(** ** C3: [peek] *)

(** X2.  Inside the buffer and beyond its end [peek] does what its contract
    says, for every state that satisfies the lexer's invariant, with a
    buffer whose length fits an [int], and every offset for which
    [cursor + offset] is not negative and fits an [int] (so that Go's sum
    does not wrap around): it returns the code point at
    [cursor + offset], or the sentinel from the end of the buffer on, and
    it does not fail. *)
Theorem peek_from_zero lx n :
  wf lx -> length lx <= maxInt -> 0 <= i lx + n <= maxInt ->
  peek n lx
  = Ok (if i lx + n <? length lx
        then nth (Z.to_nat (i lx + n)) (src lx) NUL else NUL) lx.
Proof.
  intros (Hi & Hl & _) _ (Hn & _). unfold peek.
  destruct (Z.geb_spec (i lx + n) (length lx)) as [H | H];
    destruct (Z.ltb_spec (i lx + n) (length lx)); try lia; [reflexivity |].
  unfold index. destruct (Z.ltb_spec (i lx + n) 0); [lia |].
  rewrite (nth_error_nth' (src lx) NUL) by lia. reflexivity.
Qed.

(** C3 (the failing call): with the cursor at index 0, [peek(-1)] indexes
    [lx.src[-1]] and panics; the guard [j >= lx.length] only covers the
    upper end of the buffer. *)
Theorem peek_minus_one_at_start (rs : list rune) :
  peek (-1) (NewLexer rs) = Panic.
Proof.
  unfold peek, NewLexer; cbn [i length src].
  destruct (Z.geb_spec (0 + -1) (Z.of_nat (len rs))); [lia |].
  reflexivity.
Qed.

(** ** C7: underscore validation *)

Lemma HasPrefix_spec p : forall s,
  HasPrefix s p = true <-> exists b, s = p ++ b.
Proof.
  induction p as [| x p IH]; intros s.
  - split; [intros _; exists s; reflexivity | destruct s; reflexivity].
  - destruct s as [| a s]; cbn [HasPrefix].
    + split; [discriminate | intros (b & Hb); discriminate].
    + rewrite andb_true_iff, Z.eqb_eq, IH. split.
      * intros (-> & b & ->). exists b. reflexivity.
      * intros (b & Hb). injection Hb as -> ->. eauto.
Qed.

Lemma Contains_spec p : forall s,
  Contains s p = true <-> exists a b, s = a ++ p ++ b.
Proof.
  induction s as [| x s IH]; cbn [Contains]; rewrite orb_true_iff, HasPrefix_spec.
  - split.
    + intros [(b & Hb) | H]; [| discriminate]. exists [], b. exact Hb.
    + intros (a & b & H). left. destruct a; [exists b; exact H |].
      discriminate.
  - rewrite IH. split.
    + intros [(b & Hb) | (a & b & ->)]; [exists [], b; exact Hb |].
      exists (x :: a), b. reflexivity.
    + intros (a & b & H). destruct a as [| y a]; [left; exists b; exact H |].
      right. injection H as -> ->. eauto.
Qed.

(** The characters next to which no underscore may stand. *)
Definition separators : list rune := str ".eExXbBoO".

Lemma bad_spec p :
  In p bad <->
  exists c, In c separators /\ (p = ["_"%r; c] \/ p = [c; "_"%r]).
Proof.
  split.
  - intros H. cbv in H.
    repeat (destruct H as [<- | H];
            [eexists; split; [| first [left; reflexivity | right; reflexivity]];
             cbv; tauto |]).
    contradiction.
  - intros (c & Hc & Hp). cbv in Hc.
    repeat (destruct Hc as [<- | Hc]; [destruct Hp as [-> | ->]; cbv; tauto |]).
    contradiction.
Qed.

(** [validUnderscores] rejects exactly the strings the rule describes. *)
Lemma validUnderscores_false s :
  validUnderscores s = false <->
  s = []
  \/ (exists s', s = "_"%r :: s')
  \/ (exists s', s = s' ++ ["_"%r])
  \/ (exists a b, s = a ++ ["_"%r; "_"%r] ++ b)
  \/ (exists a b c, In c separators /\
        (s = a ++ ["_"%r; c] ++ b \/ s = a ++ [c; "_"%r] ++ b)).
Proof.
  unfold validUnderscores. destruct s as [| x s]; [tauto |].
  destruct (Z.eqb_spec x "_"%r) as [-> | Hx]; cbn [orb].
  { split; [eauto | reflexivity]. }
  destruct (Z.eqb_spec (last (x :: s) NUL) "_"%r) as [Hl | Hl].
  { split; [intros _ | reflexivity]. right; right; left.
    destruct (exists_last (l := x :: s)) as (s' & y & E); [discriminate |].
    rewrite E in Hl. rewrite last_last in Hl. subst y. eauto. }
  destruct (Contains (x :: s) (str "__")) eqn:Hc.
  { split; [intros _ | reflexivity]. apply Contains_spec in Hc. auto. }
  destruct (existsb (fun p => Contains (x :: s) p) bad) eqn:Hb.
  { split; [intros _ | reflexivity]. right; right; right; right.
    apply existsb_exists in Hb as (p & Hp & Hcp).
    apply bad_spec in Hp as (c & Hc' & Hpc).
    apply Contains_spec in Hcp as (a & b & E).
    exists a, b, c. split; [exact Hc' |].
    destruct Hpc as [-> | ->]; auto. }
  split; [discriminate |].
  intros [H | [(s' & H) | [(s' & H) | [(a & b & H) | (a & b & c & Hc' & H)]]]].
  - discriminate.
  - injection H as -> _. congruence.
  - rewrite H, last_last in Hl. congruence.
  - assert (Contains (x :: s) (str "__") = true)
      by (apply Contains_spec; eauto). congruence.
  - assert (existsb (fun p => Contains (x :: s) p) bad = true); [| congruence].
    apply existsb_exists.
    destruct H as [H | H];
      [exists ["_"%r; c] | exists [c; "_"%r]];
      (split; [apply bad_spec; eauto | apply Contains_spec; eauto]).
Qed.

(** The rule of the specification: what makes the digit-bearing text of a
    literal unacceptable. *)
Definition underscoreRuleViolated (s : gostring) : Prop :=
  s = []
  \/ (exists s', s = "_"%r :: s')
  \/ (exists s', s = s' ++ ["_"%r])
  \/ (exists a b, s = a ++ ["_"%r; "_"%r] ++ b)
  \/ (exists a b c, In c separators /\
        (s = a ++ ["_"%r; c] ++ b \/ s = a ++ [c; "_"%r] ++ b)).

(** ** C8: an invalid character *)

(** C8 (amended).  On the input [@] alone, one run of [LexAll] returns no
    token and exactly one error, at line 1 column 1, whose message shows
    the character the way [%q] prints a rune, between single quotes; the
    run ends normally, with the cursor at the end of the input. *)
Theorem C8_invalid_character (n : nat) :
  LexAll (S n) (NewLexer (str "@"))
  = Ok ([], [str "lexical error at 1:1: invalid character '@'"])
       {| src := str "@"; i := 1; line := 1; col := 2; length := 1;
          tokens := [];
          errors := [str "lexical error at 1:1: invalid character '@'"] |}.
Proof. destruct n; vm_compute; reflexivity. Qed.

(** ** C4: malformed numeric literals *)

(** C4 (the failing input).  [0b2] is a binary prefix followed by no
    binary digit, yet [scanNumber] records no error and emits the integer
    literal [0b2]: the digit loop accepts every [unicode.IsDigit] code
    point whatever the base, which leaves its binary and octal clauses
    without effect. *)
Theorem scanNumber_accepts_0b2 (n : nat) :
  scanNumber (4 + n) (NewLexer (str "0b2"))
  = Ok tt {| src := str "0b2"; i := 3; line := 1; col := 4; length := 3;
             tokens := [mkToken INT_LIT (str "0b2") 1 1 None None];
             errors := [] |}.
Proof. vm_compute. reflexivity. Qed.

(** ** C5: identifiers, keywords and type names *)

Lemma gostring_eqb_eq a b : gostring_eqb a b = true <-> a = b.
Proof.
  unfold gostring_eqb. destruct (list_eq_dec Z.eq_dec a b); split;
    congruence.
Qed.

Lemma keywords_lookup_In low k :
  In (low, k) keywords -> keywords_lookup low = Some k.
Proof.
  intros H. cbv [keywords] in H.
  repeat (destruct H as [H | H];
          [injection H as <- <-; vm_compute; reflexivity |]).
  contradiction.
Qed.

Lemma keywords_lookup_None low :
  keywords_lookup low = None -> forall k, ~ In (low, k) keywords.
Proof.
  intros H k Hin. rewrite (keywords_lookup_In _ _ Hin) in H. discriminate.
Qed.

Lemma keywords_lookup_Some low k :
  keywords_lookup low = Some k -> In (low, k) keywords.
Proof.
  unfold keywords_lookup.
  destruct (find _ keywords) as [[low' k'] |] eqn:E; [| discriminate].
  intros H. injection H as <-. apply find_some in E as [Hin Heq].
  apply gostring_eqb_eq in Heq. cbn in Heq. subst low'. exact Hin.
Qed.

Lemma typeNames_mem_In lex : typeNames_mem lex = true <-> In lex typeNames.
Proof.
  unfold typeNames_mem. rewrite existsb_exists. split.
  - intros (x & Hin & Heq). apply gostring_eqb_eq in Heq. congruence.
  - intros Hin. exists lex. split; [exact Hin | now apply gostring_eqb_eq].
Qed.

Lemma string_of_runes_valid rs :
  Forall (fun r => ValidRune r = true) rs -> string_of_runes rs = rs.
Proof.
  induction 1 as [| r rs Hr _ IH]; [reflexivity |].
  cbn [string_of_runes map]. unfold fixRune at 1. rewrite Hr.
  f_equal. exact IH.
Qed.

(** C5.  On a maximal run of identifier-continue code points that begins
    with an identifier-start code point, [scanIdentOrKeyword] records no
    error and emits one token whose lexeme is the run as written, of the
    keyword kind that the table gives to the lowercased run, else of kind
    [TYPE_NAME] when the run as written is in the type-name table, else of
    kind [IDENT]. *)
Theorem C5_identifier_kinds pre run tail t e fuel :
  isIdentStart (nth 0 run NUL) = true ->
  Forall (fun r => isIdentPart r = true) run ->
  isIdentPart (nth 0 tail NUL) = false ->
  Forall (fun r => ValidRune r = true) run ->
  (len (run ++ tail) < fuel)%nat ->
  exists kind,
    scanIdentOrKeyword fuel (st pre (run ++ tail) t e)
    = Ok tt (st (pre ++ run) tail
                (t ++ [mkToken kind run (fst (posAfter pre))
                               (snd (posAfter pre)) None None])
                e) /\
    (forall k, In (strings_ToLower run, k) keywords -> kind = k) /\
    ((forall k, ~ In (strings_ToLower run, k) keywords) ->
     In run typeNames -> kind = TYPE_NAME) /\
    ((forall k, ~ In (strings_ToLower run, k) keywords) ->
     ~ In run typeNames -> kind = IDENT).
Proof.
  intros _ Hrun Htail Hvalid Hf.
  destruct (takeWhile_app isIdentPart run tail Hrun Htail isIdentPart_NUL)
    as [Htake Hdrop].
  exists (identKind run).
  rewrite scanIdentOrKeyword_spec, Htake, Hdrop by exact Hf.
  rewrite (string_of_runes_valid run Hvalid).
  split; [reflexivity |]. unfold identKind.
  destruct (keywords_lookup (strings_ToLower run)) as [k0 |] eqn:Ek.
  - apply keywords_lookup_Some in Ek. split; [| split].
    + intros k Hin.
      pose proof (keywords_lookup_In _ _ Hin) as H1.
      pose proof (keywords_lookup_In _ _ Ek) as H2. congruence.
    + intros Hno. destruct (Hno _ Ek).
    + intros Hno. destruct (Hno _ Ek).
  - pose proof (keywords_lookup_None _ Ek) as Hno. split; [| split].
    + intros k Hin. destruct (Hno _ Hin).
    + intros _ Hin. apply typeNames_mem_In in Hin. rewrite Hin. reflexivity.
    + intros _ Hnin. destruct (typeNames_mem run) eqn:Em; [| reflexivity].
      apply typeNames_mem_In in Em. contradiction.
Qed.

(** ** C6: double-quoted strings *)

(** C6 (amended).  From an opening double quote, [scanString] consumes the
    body that [stringRun] describes: up to and including the first double
    quote that is not the second half of a backslash pair, and then it
    emits one [STRING_LIT] token whose lexeme is the consumed text, both
    quotes included and escapes left as written; or up to a backslash that
    is followed by the end of the input, by U+0000 or by a newline, and
    then it records [unterminated string escape]; or up to the end of the
    input, a U+0000 or a newline outside a backslash pair, and then it
    records [unterminated string literal].  Both errors carry the position
    of the opening quote and leave the token list as it was. *)
Theorem C6_scanString pre rest t e fuel :
  (len rest < fuel)%nat ->
  scanString fuel (st pre (DQUOTE :: rest) t e)
  = match stringRun rest with
    | (m, r, StrClosed) =>
        Ok tt (st (pre ++ DQUOTE :: m) r
                  (t ++ [mkToken STRING_LIT (string_of_runes (DQUOTE :: m))
                                 (fst (posAfter pre)) (snd (posAfter pre))
                                 None None])
                  e)
    | (m, r, StrEscape) =>
        Ok tt (st (pre ++ DQUOTE :: m) r t
                  (e ++ [errorString (fst (posAfter pre)) (snd (posAfter pre))
                           (str "unterminated string escape")]))
    | (m, r, StrOpen) =>
        Ok tt (st (pre ++ DQUOTE :: m) r t
                  (e ++ [errorString (fst (posAfter pre)) (snd (posAfter pre))
                           (str "unterminated string literal")]))
    end.
Proof.
  intros Hf. rewrite scanString_spec by exact Hf. unfold stringAttempt.
  destruct (stringRun rest) as [[m r] k]. destruct k; reflexivity.
Qed.

(** ** C2: progress and termination *)

Lemma nextToken_post fuel pre rest t e :
  (len rest < fuel)%nat ->
  exists m rest' t' e' more,
    rest = m ++ rest' /\
    nextToken fuel (st pre rest t e) = Ok more (st (pre ++ m) rest' t' e') /\
    (more = true -> m <> []) /\
    (more = false -> nth 0 rest' NUL = NUL).
Proof.
  intros Hf. unfold nextToken.
  destruct (skipWSAndComments_skipped fuel rest pre t e Hf)
    as (m & rest1 & -> & Hskip).
  assert (Hstop : forall e', nth 0 rest1 NUL = NUL ->
            skipWSAndComments fuel (st pre (m ++ rest1) t e)
            = Ok tt (st (pre ++ m) rest1 t e') ->
            exists m0 rest' t' e'0 more,
              m ++ rest1 = m0 ++ rest' /\
              bind (skipWSAndComments fuel) (fun _ => dispatch fuel)
                   (st pre (m ++ rest1) t e)
              = Ok more (st (pre ++ m0) rest' t' e'0) /\
              (more = true -> m0 <> []) /\
              (more = false -> nth 0 rest' NUL = NUL)).
  { intros e' Hn Heq. exists m, rest1, t, e', false.
    erewrite bind_Ok by exact Heq. rewrite dispatch_stop by exact Hn.
    repeat split; [discriminate | intros _; exact Hn]. }
  destruct Hskip as [Heq | (m1 & m2 & Hm & Hn & Heq)]; [| eauto].
  destruct (Z.eq_dec (nth 0 rest1 NUL) NUL) as [Hn | Hn]; [eauto |].
  rewrite length_app in Hf.
  destruct (dispatch_scanned fuel (pre ++ m) rest1 t e ltac:(lia) Hn)
    as (lx' & (a & rest' & -> & Ha & Hres) & Hd).
  erewrite bind_Ok by exact Heq. rewrite Hd.
  assert (Hma : m ++ a <> []) by (destruct m; [exact Ha | discriminate]).
  destruct Hres as [(ty & Hlx) | (msg & Hlx)]; injection Hlx as ->;
    [ exists (m ++ a), rest', (t ++ [tokenAt (pre ++ m) a ty]), e, true
    | exists (m ++ a), rest', t, (e ++ [errorFrom (pre ++ m) msg]), true ];
    rewrite <- !app_assoc;
    (split; [reflexivity |]); (split; [reflexivity |]);
    (split; [intros _; exact Hma | discriminate]).
Qed.

(** C2 (amended).  A call of [nextToken] on a state that satisfies the
    lexer's invariant, with fuel above the number of remaining code
    points, returns without panic; it preserves the invariant and the
    source, and never moves the cursor backward; when it returns [true],
    on the path of a token as on every error path, the cursor has strictly
    advanced; it returns [false], which ends [LexAll], only when [peek]
    reports the end of the input at the cursor.  Hence [LexAll] returns on
    every input, for every fuel above its length. *)
Theorem C2_progress_and_termination :
  (forall lx fuel,
      wf lx -> (Z.to_nat (length lx - i lx) < fuel)%nat ->
      exists more lx',
        nextToken fuel lx = Ok more lx' /\
        wf lx' /\ src lx' = src lx /\ length lx' = length lx /\
        i lx <= i lx' /\
        (more = true -> i lx < i lx') /\
        (more = false -> peek 0 lx' = Ok NUL lx'))
  /\
  (forall input fuel,
      (len input < fuel)%nat ->
      exists toks errs final,
        LexAll fuel (NewLexer input) = Ok (toks, errs) final).
Proof.
  split.
  - intros lx fuel Hwf Hf.
    pose proof Hwf as (Hi & Hl & _).
    remember (firstn (Z.to_nat (i lx)) (src lx)) as pre eqn:Epre.
    remember (skipn (Z.to_nat (i lx)) (src lx)) as rest eqn:Erest.
    assert (Hrest : (len rest < fuel)%nat).
    { subst rest. rewrite length_skipn. lia. }
    assert (Hpre : Z.of_nat (len pre) = i lx).
    { subst pre. rewrite length_firstn. lia. }
    assert (Hsrc : pre ++ rest = src lx).
    { subst pre rest. apply firstn_skipn. }
    assert (Hview : lx = st pre rest (tokens lx) (errors lx)).
    { subst pre rest. apply wf_view. exact Hwf. }
    destruct (nextToken_post fuel pre rest (tokens lx) (errors lx) Hrest)
      as (m & rest' & t' & e' & more & Hs & Heq & Ht & Hfalse).
    exists more, (st (pre ++ m) rest' t' e').
    rewrite <- Hview in Heq. split; [exact Heq |].
    split; [apply wf_st |].
    rewrite src_st, i_st, length_st, <- app_assoc, <- Hs, Hsrc, length_app.
    repeat split; try lia.
    + intros Hm. specialize (Ht Hm). destruct m; [congruence | cbn; lia].
    + intros Hm. rewrite (peek_st 0), (Hfalse Hm). reflexivity.
  - intros input fuel Hf. rewrite NewLexer_st.
    destruct (LexAll_Run fuel input [] [] [] Hf) as (final & _ & HL).
    eauto.
Qed.

(** ** C10: U+0000 is the end-of-input sentinel *)

(** A string body that is unterminated at the end of the input is equally
    unterminated when a U+0000 and more input follow it. *)
Lemma stringRun_NUL n : forall body tail k,
  (len body <= n)%nat ->
  stringRun body = (body, [], k) -> k <> StrClosed ->
  stringRun (body ++ NUL :: tail) = (body, NUL :: tail, k).
Proof.
  induction n as [| n IH]; intros body tail k Hn Hrun Hk.
  - destruct body; [| cbn in Hn; lia]. cbn in Hrun.
    injection Hrun as <-. reflexivity.
  - destruct body as [| c rs].
    { cbn in Hrun. injection Hrun as <-. reflexivity. }
    cbn [app stringRun] in *.
    destruct ((c =? NUL) || (c =? LF)); [discriminate Hrun |].
    destruct (c =? "\"%r).
    + destruct rs as [| d rs'].
      { injection Hrun as <-. reflexivity. }
      cbn [app] in *.
      destruct ((d =? NUL) || (d =? LF)); [discriminate Hrun |].
      destruct (stringRun rs') as [[m r] k'] eqn:E.
      injection Hrun as -> -> ->.
      rewrite (IH rs' tail k) by (cbn in Hn; first [lia | assumption]).
      reflexivity.
    + destruct (c =? DQUOTE).
      { injection Hrun as _ <-. congruence. }
      destruct (stringRun rs) as [[m r] k'] eqn:E.
      injection Hrun as -> -> ->.
      rewrite (IH rs tail k) by (cbn in Hn; first [lia | assumption]).
      reflexivity.
Qed.

Lemma rawRun_NUL body tail :
  rawRun body = (body, [], false) ->
  rawRun (body ++ NUL :: tail) = (body, NUL :: tail, false).
Proof.
  induction body as [| c rs IH]; [reflexivity |]. cbn [app rawRun].
  destruct (c =? NUL); [discriminate |].
  destruct (c =? "`"%r); [discriminate |].
  destruct (rawRun rs) as [[m r] k] eqn:E.
  intros H. injection H as -> -> ->. rewrite IH by reflexivity. reflexivity.
Qed.

(** The body of a block comment, after its opening, at nesting depth
    [depth]: the text consumed, the text left, and whether the comment was
    closed. *)
Fixpoint blockRun (depth : Z) (rest : list rune) {struct rest}
    : list rune * list rune * bool :=
  if depth >? 0 then
    match rest with
    | [] => ([], [], false)
    | c :: rs =>
        if c =? NUL then ([], rest, false)
        else
          match rs with
          | x :: rs' =>
              if (c =? "/"%r) && (x =? "*"%r) then
                let '(m, r, k) := blockRun (depth + 1) rs' in (c :: x :: m, r, k)
              else if (c =? "*"%r) && (x =? "/"%r) then
                let '(m, r, k) := blockRun (depth - 1) rs' in (c :: x :: m, r, k)
              else let '(m, r, k) := blockRun depth rs in (c :: m, r, k)
          | [] => let '(m, r, k) := blockRun depth rs in (c :: m, r, k)
          end
    end
  else ([], rest, true).

Definition blockLoopEnd (sl sc : Z) (pre : list rune) (t : list Token)
    (e : list gostring) (run : list rune * list rune * bool) : outcome bool :=
  let '(m, r, k) := run in
  if k then Ok true (st (pre ++ m) r t e)
  else Ok false (st (pre ++ m) r t
                    (e ++ [errorString sl sc
                             (str "unterminated block comment")])).

Lemma blockLoopEnd_cons sl sc pre t e x m r k :
  blockLoopEnd sl sc (pre ++ x) t e (m, r, k)
  = blockLoopEnd sl sc pre t e (x ++ m, r, k).
Proof. unfold blockLoopEnd. rewrite <- !app_assoc. reflexivity. Qed.

Lemma blockComment_loop_spec fuel : forall rest pre sl sc depth t e,
  (len rest < fuel)%nat ->
  blockComment_loop fuel sl sc depth (st pre rest t e)
  = blockLoopEnd sl sc pre t e (blockRun depth rest).
Proof.
  induction fuel as [| f IH]; intros rest pre sl sc depth t e Hf; [lia |].
  cbn [blockComment_loop].
  destruct rest as [| c rs]; cbn [blockRun]; destruct (depth >? 0);
    unfold andM; msteps;
    try (cbn [blockLoopEnd]; rewrite !app_nil_r; reflexivity).
  destruct (Z.eqb_spec c NUL) as [-> | H0]; msteps.
  { cbn [blockLoopEnd]. rewrite !app_nil_r. reflexivity. }
  assert (Hone : forall d,
            blockComment_loop f sl sc d (st (pre ++ [c]) rs t e)
            = blockLoopEnd sl sc pre t e
                (let '(m, r, k) := blockRun d rs in (c :: m, r, k))).
  { intros d. rewrite IH by (cbn in Hf; lia).
    destruct (blockRun d rs) as [[m r] k].
    apply (blockLoopEnd_cons sl sc pre t e [c]). }
  destruct rs as [| x rs'].
  { destruct (Z.eqb_spec c "/"%r) as [-> | Hs]; msteps; [apply Hone |].
    destruct (Z.eqb_spec c "*"%r) as [-> | Hc]; msteps; apply Hone. }
  assert (Htwo : forall d,
            blockComment_loop f sl sc d (st (pre ++ [c; x]) rs' t e)
            = blockLoopEnd sl sc pre t e
                (let '(m, r, k) := blockRun d rs' in (c :: x :: m, r, k))).
  { intros d. rewrite IH by (cbn in Hf; lia).
    destruct (blockRun d rs') as [[m r] k].
    apply (blockLoopEnd_cons sl sc pre t e [c; x]). }
  destruct (Z.eqb_spec c "/"%r) as [-> | Hs]; msteps.
  - destruct (Z.eqb_spec x "*"%r) as [-> | Hx]; msteps; [apply Htwo |].
    apply Hone.
  - destruct (Z.eqb_spec c "*"%r) as [-> | Hc]; msteps; [| apply Hone].
    destruct (Z.eqb_spec x "/"%r) as [-> | Hx]; msteps; [apply Htwo |].
    apply Hone.
Qed.

(** A comment body that is unterminated at the end of the input is equally
    unterminated when a U+0000 and more input follow it. *)
Lemma blockRun_NUL n : forall body depth tail,
  (len body <= n)%nat ->
  blockRun depth body = (body, [], false) ->
  blockRun depth (body ++ NUL :: tail) = (body, NUL :: tail, false).
Proof.
  induction n as [| n IH]; intros body depth tail Hn Hrun.
  - destruct body; [| cbn in Hn; lia]. cbn [app blockRun] in *.
    destruct (depth >? 0); [reflexivity | discriminate].
  - destruct body as [| c rs]; cbn [app blockRun] in *.
    { destruct (depth >? 0); [reflexivity | discriminate]. }
    destruct (depth >? 0); [| discriminate].
    destruct (c =? NUL); [discriminate |].
    assert (Hone : forall d,
              (let '(m, r, k) := blockRun d rs in (c :: m, r, k))
              = (c :: rs, [], false) ->
              (let '(m, r, k) := blockRun d (rs ++ NUL :: tail) in
               (c :: m, r, k))
              = (c :: rs, NUL :: tail, false)).
    { intros d H. destruct (blockRun d rs) as [[m r] k] eqn:E.
      injection H as -> -> ->.
      rewrite (IH rs d tail) by (cbn in Hn; first [lia | assumption]).
      reflexivity. }
    destruct rs as [| x rs']; cbn [app].
    { change (NUL =? "*"%r) with false. change (NUL =? "/"%r) with false.
      rewrite !andb_false_r. apply (Hone depth Hrun). }
    assert (Htwo : forall d,
              (let '(m, r, k) := blockRun d rs' in (c :: x :: m, r, k))
              = (c :: x :: rs', [], false) ->
              (let '(m, r, k) := blockRun d (rs' ++ NUL :: tail) in
               (c :: x :: m, r, k))
              = (c :: x :: rs', NUL :: tail, false)).
    { intros d H. destruct (blockRun d rs') as [[m r] k] eqn:E.
      injection H as -> -> ->.
      rewrite (IH rs' d tail) by (cbn in Hn; first [lia | assumption]).
      reflexivity. }
    destruct ((c =? "/"%r) && (x =? "*"%r)); [apply Htwo; exact Hrun |].
    destruct ((c =? "*"%r) && (x =? "/"%r)); [apply Htwo; exact Hrun |].
    apply (Hone depth). exact Hrun.
Qed.

Lemma skipWSAndComments_NUL fuel pre tail t e :
  skipWSAndComments fuel (st pre (NUL :: tail) t e)
  = Ok tt (st pre (NUL :: tail) t e).
Proof. destruct fuel; cbn [skipWSAndComments]; msteps; reflexivity. Qed.

Lemma LexAll_stop fuel pre m rest' t e e' :
  skipWSAndComments fuel (st pre (m ++ rest') t e)
  = Ok tt (st (pre ++ m) rest' t e') ->
  nth 0 rest' NUL = NUL ->
  LexAll fuel (st pre (m ++ rest') t e) = Ok (t, e') (st (pre ++ m) rest' t e').
Proof.
  intros Hskip Hn.
  destruct fuel; cbn [LexAll]; unfold nextToken; rewrite bind_bind;
    erewrite bind_Ok by exact Hskip;
    erewrite bind_Ok by (apply dispatch_stop; exact Hn);
    reflexivity.
Qed.

(** C10 (amended).  [peek] returns [0] both at the end of the input and
    at a U+0000 code point, and the lexer cannot tell them apart, whatever
    input follows the U+0000:
    - when a U+0000 is the next code point after the trivia, [LexAll]
      returns the tokens and errors collected so far and leaves the cursor
      on the U+0000;
    - in a double-quoted string whose body is not closed before it, a
      U+0000 gives [unterminated string literal], or [unterminated string
      escape] right after a backslash;
    - in a raw string not closed before it, [unterminated raw string];
    - in a character literal, [empty or invalid char literal] when it
      stands where the character is expected, [unterminated char escape]
      right after the backslash, and [unterminated char literal] where the
      closing quote is expected;
    - in a block comment that, nested comments included, is not closed
      before it, [unterminated block comment], after which [LexAll] stops
      as in the first case. *)
Theorem C10_NUL_is_end_of_input :
  (forall fuel pre m tail t e,
      skipWSAndComments fuel (st pre (m ++ NUL :: tail) t e)
      = Ok tt (st (pre ++ m) (NUL :: tail) t e) ->
      LexAll fuel (st pre (m ++ NUL :: tail) t e)
      = Ok (t, e) (st (pre ++ m) (NUL :: tail) t e))
  /\
  (forall fuel pre body tail t e k,
      stringRun body = (body, [], k) -> k <> StrClosed ->
      (len (body ++ NUL :: tail) < fuel)%nat ->
      scanString fuel (st pre (DQUOTE :: body ++ NUL :: tail) t e)
      = Ok tt (st (pre ++ DQUOTE :: body) (NUL :: tail) t
                  (e ++ [errorFrom pre
                           (match k with
                            | StrEscape => str "unterminated string escape"
                            | _ => str "unterminated string literal"
                            end)])))
  /\
  (forall fuel pre body tail t e,
      rawRun body = (body, [], false) ->
      (len (body ++ NUL :: tail) < fuel)%nat ->
      scanRawString fuel (st pre ("`"%r :: body ++ NUL :: tail) t e)
      = Ok tt (st (pre ++ "`"%r :: body) (NUL :: tail) t
                  (e ++ [errorFrom pre (str "unterminated raw string")])))
  /\
  (forall pre tail t e,
      scanChar (st pre ("'"%r :: NUL :: tail) t e)
      = Ok tt (st (pre ++ ["'"%r]) (NUL :: tail) t
                  (e ++ [errorFrom pre (str "empty or invalid char literal")])))
  /\
  (forall pre tail t e,
      scanChar (st pre ("'"%r :: "\"%r :: NUL :: tail) t e)
      = Ok tt (st (pre ++ ["'"%r; "\"%r]) (NUL :: tail) t
                  (e ++ [errorFrom pre (str "unterminated char escape")])))
  /\
  (forall pre c tail t e,
      c <> "\"%r -> c <> NUL -> c <> LF -> c <> "'"%r ->
      scanChar (st pre ("'"%r :: c :: NUL :: tail) t e)
      = Ok tt (st (pre ++ ["'"%r; c]) (NUL :: tail) t
                  (e ++ [errorFrom pre (str "unterminated char literal")])))
  /\
  (forall fuel pre body tail t e,
      blockRun 1 body = (body, [], false) ->
      (len ("/"%r :: "*"%r :: body ++ NUL :: tail) < fuel)%nat ->
      LexAll fuel (st pre ("/"%r :: "*"%r :: body ++ NUL :: tail) t e)
      = Ok (t, e ++ [errorFrom pre (str "unterminated block comment")])
           (st (pre ++ "/"%r :: "*"%r :: body) (NUL :: tail) t
               (e ++ [errorFrom pre (str "unterminated block comment")]))).
Proof.
  repeat split.
  - intros fuel pre m tail t e Hskip. apply LexAll_stop; [exact Hskip |].
    reflexivity.
  - intros fuel pre body tail t e k Hrun Hk Hf.
    rewrite scanString_spec by exact Hf. unfold stringAttempt.
    rewrite (stringRun_NUL (len body) body tail k (Nat.le_refl _) Hrun Hk).
    destruct k; [congruence | reflexivity | reflexivity].
  - intros fuel pre body tail t e Hrun Hf.
    rewrite scanRawString_spec by exact Hf. unfold rawAttempt.
    rewrite (rawRun_NUL body tail Hrun). reflexivity.
  - intros pre tail t e. unfold scanChar; cbv zeta. msteps. reflexivity.
  - intros pre tail t e. unfold scanChar, orM; cbv zeta. msteps. reflexivity.
  - intros pre c tail t e H1 H2 H3 H4. unfold scanChar; cbv zeta. msteps.
    destruct (Z.eqb_spec c "\"%r); [contradiction |].
    destruct (Z.eqb_spec c NUL); [contradiction |].
    destruct (Z.eqb_spec c LF); [contradiction |].
    destruct (Z.eqb_spec c "'"%r); [contradiction |].
    msteps. reflexivity.
  - intros fuel pre body tail t e Hb Hf.
    apply (LexAll_stop fuel pre ("/"%r :: "*"%r :: body) (NUL :: tail));
      [| reflexivity].
    destruct fuel as [| f]; [cbn in Hf; lia |].
    cbn [skipWSAndComments app]. msteps.
    change (isSpace "/"%r) with false. msteps.
    erewrite bind_eq
      by (rewrite blockComment_loop_spec by (cbn [len] in Hf; lia);
          rewrite (blockRun_NUL (len body) body 1 tail (Nat.le_refl _) Hb);
          reflexivity).
    cbn [blockLoopEnd]. rewrite <- app_assoc. msteps. reflexivity.
Qed.

(** ** What a run consumes, emits and reports, call by call *)

(** The source text between the cursors of two states of one run. *)
Definition between (a b : Lexer) : list rune :=
  firstn (Z.to_nat (i b - i a)) (skipn (Z.to_nat (i a)) (src a)).

(** The trivia one call skips, the text its scanner consumes, and what the
    call adds to the token list and to the error list. *)
Definition trivia (s : step) : list rune := between (atCall s) (atScan s).
Definition attempt (s : step) : list rune := between (atScan s) (atReturn s).
Definition emitted (s : step) : list Token :=
  skipn (len (tokens (atCall s))) (tokens (atReturn s)).
Definition skipReported (s : step) : list gostring :=
  skipn (len (errors (atCall s))) (errors (atScan s)).
Definition scanReported (s : step) : list gostring :=
  skipn (len (errors (atScan s))) (errors (atReturn s)).
Definition reported (s : step) : list gostring :=
  skipn (len (errors (atCall s))) (errors (atReturn s)).

(** Line and column of the code point at index [k] of the input, by the
    rule of the position tracker. *)
Definition posAt (input : list rune) (k : Z) : Z * Z :=
  posAfter (firstn (Z.to_nat k) input).

Lemma skipn_exact {A} (l x : list A) : skipn (len l) (l ++ x) = x.
Proof. rewrite skipn_app, skipn_all, Nat.sub_diag. reflexivity. Qed.

Lemma firstn_exact {A} (l x : list A) : firstn (len l) (l ++ x) = l.
Proof. rewrite firstn_app, firstn_all, Nat.sub_diag, app_nil_r. reflexivity. Qed.

Lemma between_st p1 r1 t1 e1 p2 r2 t2 e2 m :
  p2 = p1 ++ m -> r1 = m ++ r2 ->
  between (st p1 r1 t1 e1) (st p2 r2 t2 e2) = m.
Proof.
  intros -> ->. unfold between. rewrite !i_st, src_st, length_app.
  rewrite Nat2Z.id, skipn_exact.
  replace (Z.to_nat (Z.of_nat (len p1 + len m) - Z.of_nat (len p1)))
    with (len m) by lia.
  apply firstn_exact.
Qed.

Lemma posAt_st input p r t e :
  input = p ++ r -> posAt input (i (st p r t e)) = posAfter p.
Proof.
  intros ->. unfold posAt. rewrite i_st, Nat2Z.id, firstn_exact. reflexivity.
Qed.

(** The three kinds of call: one that emits a token, one whose scanner
    fails, and the last one, which finds the end of the input (or U+0000)
    after the trivia. *)
Definition tokenStep (input : list rune) (s : step) : Prop :=
  exists tok,
    emitted s = [tok] /\ reported s = [] /\ attempt s <> [] /\
    Lexeme tok = string_of_runes (attempt s) /\
    (Line tok, Column tok) = posAt input (i (atScan s)).

Definition failedStep (input : list rune) (s : step) : Prop :=
  emitted s = [] /\ skipReported s = [] /\ attempt s <> [] /\
  exists msg,
    reported s = [errorString (fst (posAt input (i (atScan s))))
                              (snd (posAt input (i (atScan s)))) msg] /\
    scanReported s = reported s.

Definition lastStep (input : list rune) (s : step) : Prop :=
  emitted s = [] /\ scanReported s = [] /\ attempt s = [] /\
  reported s = skipReported s /\
  peek 0 (atReturn s) = Ok NUL (atReturn s) /\
  (reported s = [] \/
   exists k,
     i (atCall s) <= k /\ k + 2 <= i (atScan s) /\
     firstn 2 (skipn (Z.to_nat k) input) = ["/"%r; "*"%r] /\
     reported s = [errorString (fst (posAt input k)) (snd (posAt input k))
                               (str "unterminated block comment")]).

Definition stepOK (input : list rune) (s : step) : Prop :=
  src (atCall s) = input /\
  i (atCall s) <= i (atScan s) <= i (atReturn s) /\
  (tokenStep input s \/ failedStep input s \/ lastStep input s).

Lemma Run_stepOK pre rest t e steps final :
  Run pre rest t e steps final -> Forall (stepOK (pre ++ rest)) steps.
Proof.
  induction 1 as [pre m rest' t e e' Herr Hn
                 | pre m a rest' t e ty steps final Ha HR IH
                 | pre m a rest' t e msg steps final Ha HR IH].
  - constructor; [| constructor]. unfold stepOK; cbn [atCall atScan atReturn].
    rewrite src_st, !i_st, length_app.
    split; [reflexivity |]. split; [lia |].
    right; right.
    unfold lastStep, emitted, reported, scanReported, skipReported, attempt;
      cbn [atCall atScan atReturn].
    rewrite !tokens_st, !errors_st, !skipn_all, ?i_st.
    rewrite (between_st _ _ _ _ _ _ _ _ [])
      by (rewrite ?app_nil_r; reflexivity).
    rewrite (peek_st 0), Hn.
    do 5 (split; [reflexivity |]).
    destruct Herr as [-> | (m1 & m2 & -> & _ & ->)].
    + left. apply skipn_all.
    + right. exists (Z.of_nat (len (pre ++ m1))).
      rewrite skipn_exact.
      assert (Hin : pre ++ (m1 ++ "/"%r :: "*"%r :: m2) ++ rest'
                    = (pre ++ m1) ++ "/"%r :: "*"%r :: m2 ++ rest')
        by (rewrite <- !app_assoc; reflexivity).
      rewrite Hin. unfold posAt.
      rewrite Nat2Z.id, skipn_exact, firstn_exact.
      split; [rewrite length_app; lia |].
      split; [rewrite !length_app; cbn [len]; lia |].
      split; reflexivity.
  - rewrite !app_assoc in IH. rewrite <- !app_assoc in IH.
    constructor; [| exact IH]. unfold stepOK; cbn [atCall atScan atReturn].
    rewrite src_st, !i_st, !length_app.
    split; [reflexivity |]. split; [lia |].
    left. exists (tokenAt (pre ++ m) a ty).
    unfold emitted, reported, attempt; cbn [atCall atScan atReturn].
    rewrite !tokens_st, !errors_st, skipn_exact, skipn_all.
    rewrite (between_st _ _ _ _ _ _ _ _ a)
      by (rewrite <- ?app_assoc; reflexivity).
    rewrite posAt_st by (rewrite <- !app_assoc; reflexivity).
    repeat split; [exact Ha |]. cbn. destruct (posAfter (pre ++ m)); reflexivity.
  - rewrite !app_assoc in IH. rewrite <- !app_assoc in IH.
    constructor; [| exact IH]. unfold stepOK; cbn [atCall atScan atReturn].
    rewrite src_st, !i_st, !length_app.
    split; [reflexivity |]. split; [lia |].
    right; left.
    unfold failedStep, emitted, reported, scanReported, skipReported, attempt;
      cbn [atCall atScan atReturn].
    rewrite !tokens_st, !errors_st, skipn_exact, !skipn_all.
    rewrite (between_st _ _ _ _ _ _ _ _ a)
      by (rewrite <- ?app_assoc; reflexivity).
    rewrite posAt_st by (rewrite <- !app_assoc; reflexivity).
    repeat split; [exact Ha |]. exists msg. split; reflexivity.
Qed.

Lemma emitted_more p1 r1 t e1 X p3 r3 x e3 :
  emitted (mkStep (st p1 r1 t e1) X (st p3 r3 (t ++ x) e3)) = x.
Proof.
  unfold emitted; cbn [atCall atReturn].
  rewrite !tokens_st. apply skipn_exact.
Qed.

Lemma emitted_same p1 r1 t e1 X p3 r3 e3 :
  emitted (mkStep (st p1 r1 t e1) X (st p3 r3 t e3)) = [].
Proof.
  unfold emitted; cbn [atCall atReturn].
  rewrite !tokens_st. apply skipn_all.
Qed.

Lemma reported_more p1 r1 t1 e X p3 r3 t3 x :
  reported (mkStep (st p1 r1 t1 e) X (st p3 r3 t3 (e ++ x))) = x.
Proof.
  unfold reported; cbn [atCall atReturn].
  rewrite !errors_st. apply skipn_exact.
Qed.

Lemma reported_same p1 r1 t1 e X p3 r3 t3 :
  reported (mkStep (st p1 r1 t1 e) X (st p3 r3 t3 e)) = [].
Proof.
  unfold reported; cbn [atCall atReturn].
  rewrite !errors_st. apply skipn_all.
Qed.

Lemma trivia_mk p1 m r2 t1 e1 t2 e2 Y :
  trivia (mkStep (st p1 (m ++ r2) t1 e1) (st (p1 ++ m) r2 t2 e2) Y) = m.
Proof. apply between_st; reflexivity. Qed.

Lemma attempt_mk X p1 m a r3 t2 e2 t3 e3 :
  attempt (mkStep X (st (p1 ++ m) (a ++ r3) t2 e2) (st (p1 ++ m ++ a) r3 t3 e3))
  = a.
Proof. apply between_st; [apply app_assoc | reflexivity]. Qed.

Lemma attempt_none X p r t2 e2 t3 e3 :
  attempt (mkStep X (st p r t2 e2) (st p r t3 e3)) = [].
Proof. apply between_st; [symmetry; apply app_nil_r | reflexivity]. Qed.

Lemma Run_final pre rest t e steps final :
  Run pre rest t e steps final ->
  exists c rf,
    rest = c ++ rf /\ nth 0 rf NUL = NUL /\
    concat (map (fun s => trivia s ++ attempt s) steps) = c /\
    final = st (pre ++ c) rf (t ++ concat (map emitted steps))
               (e ++ concat (map reported steps)).
Proof.
  induction 1 as [pre m rest' t e e' Herr Hn
                 | pre m a rest' t e ty steps final Ha HR IH
                 | pre m a rest' t e msg steps final Ha HR IH].
  - exists m, rest'. cbn [map concat].
    rewrite trivia_mk, attempt_none, emitted_same, !app_nil_r.
    split; [reflexivity |]. split; [exact Hn |]. split; [reflexivity |].
    destruct Herr as [-> | (m1 & m2 & _ & _ & ->)];
      [rewrite reported_same, app_nil_r | rewrite reported_more]; reflexivity.
  - destruct IH as (c & rf & -> & Hn & Hc & ->).
    exists (m ++ a ++ c), rf. cbn [map concat].
    rewrite trivia_mk, attempt_mk, emitted_more, reported_same, Hc.
    rewrite <- !app_assoc.
    split; [reflexivity |]. split; [exact Hn |]. split; reflexivity.
  - destruct IH as (c & rf & -> & Hn & Hc & ->).
    exists (m ++ a ++ c), rf. cbn [map concat].
    rewrite trivia_mk, attempt_mk, emitted_same, reported_more, Hc.
    rewrite <- !app_assoc.
    split; [reflexivity |]. split; [exact Hn |]. split; reflexivity.
Qed.

Lemma Run_lower pre rest t e steps final :
  Run pre rest t e steps final ->
  Forall (fun s => Z.of_nat (len pre) <= i (atScan s)) steps.
Proof.
  induction 1 as [pre m rest' t e e' Herr Hn
                 | pre m a rest' t e ty steps final Ha HR IH
                 | pre m a rest' t e msg steps final Ha HR IH].
  - constructor; [| constructor]. cbn [atScan]. rewrite i_st, length_app. lia.
  - constructor.
    + cbn [atScan]. rewrite i_st, length_app. lia.
    + eapply Forall_impl; [| exact IH]. cbv beta. intros s Hs.
      rewrite length_app in Hs. lia.
  - constructor.
    + cbn [atScan]. rewrite i_st, length_app. lia.
    + eapply Forall_impl; [| exact IH]. cbv beta. intros s Hs.
      rewrite length_app in Hs. lia.
Qed.

(** The text of a later call starts where an earlier call ended, or after. *)
Lemma Run_ordered pre rest t e steps final :
  Run pre rest t e steps final ->
  StronglySorted (fun s s' => i (atReturn s) <= i (atScan s')) steps.
Proof.
  induction 1 as [pre m rest' t e e' Herr Hn
                 | pre m a rest' t e ty steps final Ha HR IH
                 | pre m a rest' t e msg steps final Ha HR IH].
  - repeat constructor.
  - constructor; [exact IH |]. cbn [atReturn]. rewrite i_st.
    exact (Run_lower _ _ _ _ _ _ HR).
  - constructor; [exact IH |]. cbn [atReturn]. rewrite i_st.
    exact (Run_lower _ _ _ _ _ _ HR).
Qed.

(** The order of positions: first by line, then by column. *)
Definition pos_le (p q : Z * Z) : Prop :=
  fst p < fst q \/ (fst p = fst q /\ snd p <= snd q).

Definition tokenPos (tok : Token) : Z * Z := (Line tok, Column tok).

Lemma pos_le_refl p : pos_le p p.
Proof. unfold pos_le. lia. Qed.

Lemma pos_le_trans p q r : pos_le p q -> pos_le q r -> pos_le p r.
Proof. unfold pos_le. lia. Qed.

Lemma posAfter_mono p x : pos_le (posAfter p) (posAfter (p ++ x)).
Proof.
  induction x as [| r x IH] using rev_ind.
  - rewrite app_nil_r. apply pos_le_refl.
  - rewrite app_assoc, posAfter_snoc.
    eapply pos_le_trans; [exact IH |].
    unfold step_pos, pos_le. destruct (r =? LF); cbn [fst snd]; lia.
Qed.

Lemma Run_tokens_lower pre rest t e steps final :
  Run pre rest t e steps final ->
  Forall (fun tok => pos_le (posAfter pre) (tokenPos tok))
         (concat (map emitted steps)).
Proof.
  induction 1 as [pre m rest' t e e' Herr Hn
                 | pre m a rest' t e ty steps final Ha HR IH
                 | pre m a rest' t e msg steps final Ha HR IH];
    cbn [map concat].
  - rewrite emitted_same. constructor.
  - rewrite emitted_more. cbn [app]. constructor.
    + unfold tokenPos, tokenAt; cbn [Line Column].
      rewrite <- surjective_pairing. apply posAfter_mono.
    + eapply Forall_impl; [| exact IH]. cbv beta. intros tok Htok.
      eapply pos_le_trans; [| exact Htok]. apply posAfter_mono.
  - rewrite emitted_same. cbn [app].
    eapply Forall_impl; [| exact IH]. cbv beta. intros tok Htok.
    eapply pos_le_trans; [| exact Htok]. apply posAfter_mono.
Qed.

Lemma Run_tokens_sorted pre rest t e steps final :
  Run pre rest t e steps final ->
  StronglySorted (fun t1 t2 => pos_le (tokenPos t1) (tokenPos t2))
                 (concat (map emitted steps)).
Proof.
  induction 1 as [pre m rest' t e e' Herr Hn
                 | pre m a rest' t e ty steps final Ha HR IH
                 | pre m a rest' t e msg steps final Ha HR IH];
    cbn [map concat].
  - rewrite emitted_same. constructor.
  - rewrite emitted_more. cbn [app]. constructor; [exact IH |].
    eapply Forall_impl; [| exact (Run_tokens_lower _ _ _ _ _ _ HR)].
    cbv beta. intros tok Htok.
    eapply pos_le_trans; [| exact Htok].
    unfold tokenPos, tokenAt; cbn [Line Column].
    rewrite <- surjective_pairing, app_assoc. apply posAfter_mono.
  - rewrite emitted_same. exact IH.
Qed.

(** C7.  [validUnderscores s] is [false] exactly when [s] is empty, starts
    or ends with an underscore, contains two underscores in a row, or
    contains an underscore next to one of [. e E x X b B o O]; and
    [scanNumber] applies this one predicate to the digit-bearing text of
    every literal (the text after the prefix of a hex, binary or octal
    literal, the whole lexeme of a decimal or float literal): when the
    text it consumed fails the predicate, the attempt ends with one error
    and no token, and a token is emitted only when the text passes it. *)
Theorem C7_validUnderscores_rule :
  (forall s, validUnderscores s = false <-> underscoreRuleViolated s) /\
  (forall pre rest t e fuel,
      (len rest < fuel)%nat ->
      exists lx',
        scanNumber fuel (st pre rest t e) = Ok tt lx' /\
        let digits :=
          string_of_runes (digitText rest (between (st pre rest t e) lx')) in
        (validUnderscores digits = false ->
         tokens lx' = t /\ exists msg, errors lx' = e ++ [errorFrom pre msg]) /\
        (tokens lx' <> t -> validUnderscores digits = true)).
Proof.
  split; [exact validUnderscores_false |].
  intros pre rest t e fuel Hf.
  destruct (numberRun_app rest) as (m & rest' & res & Hrun & Hs & _ & Hv).
  rewrite scanNumber_spec, Hrun by exact Hf. cbn [after].
  eexists. split; [reflexivity |].
  assert (Hm : forall t' e',
             between (st pre rest t e) (st (pre ++ m) rest' t' e') = m)
    by (intros; apply between_st; [reflexivity | exact Hs]).
  destruct res as [ty | msg]; rewrite Hm, tokens_st, errors_st; cbv zeta.
  - split.
    + intros Hbad. destruct (Hv Hbad) as (msg & Hmsg). discriminate Hmsg.
    + intros _.
      destruct (validUnderscores (string_of_runes (digitText rest m))) eqn:E;
        [reflexivity |].
      destruct (Hv eq_refl) as (msg & Hmsg). discriminate Hmsg.
  - split; [eauto | congruence].
Qed.

(** ** C1: round trip *)

(** The token lexemes and the skipped trivia of a run, in order. *)
Definition reassemble (steps : list step) : list rune :=
  concat (map (fun s => trivia s ++ concat (map Lexeme (emitted s))) steps).

Lemma reassemble_all steps :
  Forall (fun r => ValidRune r = true)
         (concat (map (fun s => trivia s ++ attempt s) steps)) ->
  Forall (fun s => (exists tok, emitted s = [tok] /\
                                Lexeme tok = string_of_runes (attempt s))
                   \/ (emitted s = [] /\ attempt s = [])) steps ->
  reassemble steps = concat (map (fun s => trivia s ++ attempt s) steps).
Proof.
  unfold reassemble. induction steps as [| s steps IH]; [reflexivity |].
  cbn [map concat]. intros Hv Hs.
  apply Forall_app in Hv as [Hv1 Hv2]. apply Forall_app in Hv1 as [_ Hva].
  inversion Hs as [| ? ? Hs1 Hs2]; subst.
  rewrite IH by assumption. f_equal. f_equal.
  destruct Hs1 as [(tok & -> & Hlex) | [-> ->]]; [| reflexivity].
  cbn [map concat]. rewrite app_nil_r, Hlex.
  apply string_of_runes_valid. exact Hva.
Qed.

(** C1 (amended).  One run of [LexAll], with fuel above the length of the
    input, returns; the trivia skipped and the text consumed by the scan
    attempts, call after call, make up the input up to the cursor at which
    the run ends.  An attempt that emits a token emits exactly one, whose
    lexeme is the text of the attempt; an attempt that emits none is a
    failed one, which recorded an error, or the empty one of the last
    call.  The run ends at the end of the input when the input holds no
    U+0000.  So on an input of valid code points without U+0000 on which no
    error is recorded, the lexemes of the tokens and the trivia, in order,
    give back the input. *)
Theorem C1_round_trip input fuel :
  (len input < fuel)%nat ->
  let steps := LexAll_steps fuel (NewLexer input) in
  exists final,
    LexAll fuel (NewLexer input)
    = Ok (concat (map emitted steps), concat (map reported steps)) final /\
    concat (map (fun s => trivia s ++ attempt s) steps)
    = firstn (Z.to_nat (i final)) input /\
    Forall (fun s =>
              (exists tok, emitted s = [tok] /\
                           Lexeme tok = string_of_runes (attempt s))
              \/ (emitted s = [] /\ (attempt s = [] \/ reported s <> [])))
           steps /\
    (~ In NUL input -> i final = length final) /\
    (~ In NUL input -> Forall (fun r => ValidRune r = true) input ->
     concat (map reported steps) = [] -> reassemble steps = input).
Proof.
  intros Hf steps. subst steps. rewrite NewLexer_st.
  destruct (LexAll_Run fuel input [] [] [] Hf) as (final & HR & HL).
  set (steps := LexAll_steps fuel (st [] input [] [])) in *.
  destruct (Run_final _ _ _ _ _ _ HR) as (c & rf & Hin & Hn & Hc & Hfinal).
  pose proof (Run_stepOK _ _ _ _ _ _ HR) as Hok. cbn [app] in Hok, Hfinal.
  exists final. rewrite HL, Hfinal, tokens_st, errors_st, i_st, length_st.
  rewrite Nat2Z.id, Hin, firstn_exact.
  assert (Hsteps :
    Forall (fun s =>
              (exists tok, emitted s = [tok] /\
                           Lexeme tok = string_of_runes (attempt s))
              \/ (emitted s = [] /\ (attempt s = [] \/ reported s <> [])))
           steps).
  { eapply Forall_impl; [| exact Hok]. cbv beta.
    intros s (_ & _ & [(tok & He & _ & _ & Hl & _)
                      | [(He & _ & _ & msg & Hr & _)
                        | (He & _ & Ha & _)]]).
    - left. eauto.
    - right. split; [exact He |]. right. rewrite Hr. discriminate.
    - right. auto. }
  assert (Hrf : ~ In NUL (c ++ rf) -> rf = []).
  { intros Hno. destruct rf as [| r rf]; [reflexivity |]. cbn in Hn. subst r.
    exfalso. apply Hno, in_or_app. right. left. reflexivity. }
  split; [reflexivity |]. split; [exact Hc |]. split; [exact Hsteps |]. split.
  - intros Hno. rewrite (Hrf Hno), app_nil_r. reflexivity.
  - intros Hno Hvalid Herrs. rewrite (Hrf Hno), app_nil_r in *.
    rewrite reassemble_all; [exact Hc | rewrite Hc; exact Hvalid |].
    assert (Hnone : Forall (fun s => reported s = []) steps).
    { clear -Herrs. induction steps as [| s steps IH]; [constructor |].
      cbn [map concat] in Herrs. apply app_eq_nil in Herrs as [H1 H2].
      constructor; auto. }
    clear -Hsteps Hnone. induction Hsteps as [| s steps Hs _ IH];
      [constructor |].
    inversion Hnone as [| ? ? Hr Hn']; subst.
    constructor; [| exact (IH Hn')].
    destruct Hs as [Htok | (He & [Ha | Hbad])]; [left; exact Htok | |].
    + right. auto.
    + contradiction.
Qed.

(** ** Further properties *)

Lemma baseMessage_cases rest :
  hasBasePrefix rest = true ->
  In (baseMessage (nth 1 rest NUL))
     [str "invalid hex literal"; str "invalid binary literal";
      str "invalid octal literal"].
Proof.
  unfold hasBasePrefix, baseMessage. intros H.
  apply andb_true_iff in H as [_ H].
  repeat (apply orb_true_iff in H as [H | H]);
    apply Z.eqb_eq in H; rewrite H; cbn; tauto.
Qed.

Lemma numberRun_result rest m rest' res :
  numberRun rest = (m, rest', res) ->
  match res with
  | Emit ty => ty = INT_LIT \/ ty = FLOAT_LIT
  | Fail msg =>
      In msg [str "invalid hex literal"; str "invalid binary literal";
              str "invalid octal literal"; str "invalid float exponent";
              str "illegal underscore placement in number"]
  end.
Proof.
  assert (Hdec : forall x f,
            match decimalResult x f with
            | Emit ty => ty = INT_LIT \/ ty = FLOAT_LIT
            | Fail msg =>
                In msg [str "invalid hex literal"; str "invalid binary literal";
                        str "invalid octal literal"; str "invalid float exponent";
                        str "illegal underscore placement in number"]
            end).
  { intros x f. unfold decimalResult.
    destruct (negb _); [cbn; tauto |]. destruct (f || _); auto. }
  unfold numberRun, exponentRun.
  destruct (hasBasePrefix rest) eqn:Hp.
  - intros H. injection H as _ _ <-.
    destruct (_ || _); [| auto].
    pose proof (baseMessage_cases rest Hp) as Hin. cbn in Hin |- *. tauto.
  - destruct (_ || _).
    + destruct (negb _); intros H; injection H as _ _ <-;
        [cbn; tauto | apply Hdec].
    + intros H; injection H as _ _ <-. apply Hdec.
Qed.

(** X1.  [scanNumber] always returns, with exactly one of two effects: one
    error, with one of the five messages of a malformed literal, positioned
    at the first code point of the literal, and no token; or one integer or
    float token positioned there, and no error.  The message [invalid
    numeric literal] is never used. *)
Theorem scanNumber_outcomes pre rest t e fuel :
  (len rest < fuel)%nat ->
  exists lx',
    scanNumber fuel (st pre rest t e) = Ok tt lx' /\
    ((tokens lx' = t /\
      exists msg,
        errors lx' = e ++ [errorFrom pre msg] /\
        In msg [str "invalid hex literal"; str "invalid binary literal";
                str "invalid octal literal"; str "invalid float exponent";
                str "illegal underscore placement in number"])
     \/ (errors lx' = e /\
         exists ty lex,
           tokens lx' = t ++ [mkToken ty lex (fst (posAfter pre))
                                      (snd (posAfter pre)) None None] /\
           (ty = INT_LIT \/ ty = FLOAT_LIT))).
Proof.
  intros Hf. rewrite scanNumber_spec by exact Hf.
  destruct (numberRun rest) as [[m rest'] res] eqn:Hrun.
  pose proof (numberRun_result _ _ _ _ Hrun) as Hres.
  eexists. split; [reflexivity |]. cbn [after].
  destruct res as [ty | msg]; rewrite tokens_st, errors_st.
  - right. split; [reflexivity |]. exists ty, (string_of_runes m). auto.
  - left. split; [reflexivity |]. exists msg. auto.
Qed.

(** X3.  On a state that satisfies the invariant, [advance] returns the code
    point under the cursor, moves the cursor by one, and updates line and
    column by the newline rule; at the end of the input it returns the
    sentinel and changes nothing. *)
Theorem advance_contract lx :
  wf lx ->
  (i lx < length lx ->
   exists ch lx',
     advance lx = Ok ch lx' /\
     nth_error (src lx) (Z.to_nat (i lx)) = Some ch /\
     i lx' = i lx + 1 /\
     (line lx', col lx') = step_pos (line lx, col lx) ch /\
     src lx' = src lx /\ tokens lx' = tokens lx /\ errors lx' = errors lx /\
     wf lx')
  /\ (length lx <= i lx -> advance lx = Ok NUL lx).
Proof.
  intros Hwf. pose proof Hwf as (Hi & Hl & Hp). split.
  - intros Hlt.
    remember (firstn (Z.to_nat (i lx)) (src lx)) as pre eqn:Epre.
    remember (skipn (Z.to_nat (i lx)) (src lx)) as rest eqn:Erest.
    assert (Hpre : Z.of_nat (len pre) = i lx).
    { subst pre. rewrite length_firstn. lia. }
    assert (Hsrc : pre ++ rest = src lx).
    { subst pre rest. apply firstn_skipn. }
    assert (Hview : lx = st pre rest (tokens lx) (errors lx)).
    { subst pre rest. apply wf_view. exact Hwf. }
    destruct rest as [| ch rest].
    { apply (f_equal (@Datatypes.length _)) in Hsrc.
      rewrite length_app in Hsrc. cbn [len] in Hsrc. lia. }
    exists ch, (st (pre ++ [ch]) rest (tokens lx) (errors lx)).
    rewrite Hview at 1. rewrite advance_cons.
    rewrite i_st, line_st, col_st, src_st, tokens_st, errors_st.
    rewrite posAfter_snoc, length_app, <- app_assoc. cbn [len app].
    split; [reflexivity |]. split.
    { rewrite <- Hsrc, <- Hpre, Nat2Z.id, nth_error_app2, Nat.sub_diag by lia.
      reflexivity. }
    split; [lia |]. split.
    { rewrite Hp, <- surjective_pairing. reflexivity. }
    split; [exact Hsrc |]. split; [reflexivity |]. split; [reflexivity |].
    apply wf_st.
  - intros Hge. unfold advance.
    destruct (Z.geb_spec (i lx) (length lx)); [reflexivity | lia].
Qed.

(** * Further properties of the scanners *)

(** ** Character literals *)

(** The end of [scanChar]: the closing quote is there, or not. *)
Definition charClose (m r : list rune) : list rune * list rune * scanResult :=
  if nth 0 r NUL =? "'"%r then (m ++ ["'"%r], skipn 1 r, Emit CHAR_LIT)
  else (m, r, Fail (str "unterminated char literal")).

(** What [scanChar] consumes after the opening quote [q], what it leaves,
    and its result. *)
Definition charRun (q : rune) (rest : list rune)
    : list rune * list rune * scanResult :=
  let ch := nth 0 rest NUL in
  if ch =? "\"%r then
    let r1 := skipn 1 rest in
    let d := nth 0 r1 NUL in
    if (d =? NUL) || (d =? LF) then
      ([q; ch], r1, Fail (str "unterminated char escape"))
    else charClose [q; ch; d] (skipn 1 r1)
  else if (ch =? NUL) || (ch =? LF) || (ch =? "'"%r) then
    ([q], rest, Fail (str "empty or invalid char literal"))
  else charClose [q; ch] (skipn 1 rest).

(** Case analysis on the comparisons of code points in the goal. *)
Ltac eqb_known :=
  match goal with
  | H : ?a <> ?b |- context [?a =? ?b] => rewrite (proj2 (Z.eqb_neq a b) H)
  end.

Ltac eqb_case :=
  match goal with
  | |- context [?a =? ?b] =>
      is_var a;
      let E := fresh "E" in
      destruct (Z.eqb_spec a b) as [E | E]; [subst a |]
  end.

Ltac eqb_cases := repeat (msteps; repeat eqb_known; try eqb_case).

Lemma scanChar_spec pre q rest t e :
  scanChar (st pre (q :: rest) t e) = Ok tt (after pre t e (charRun q rest)).
Proof.
  unfold scanChar, orM, charRun, charClose, after, tokenAt, errorFrom,
    WriteRune, string_of_runes; cbv zeta.
  destruct rest as [| a [| b [| c rest]]];
    eqb_cases; cbn [map app]; rewrite <- ?app_assoc; reflexivity.
Qed.

(** X4.  [scanChar] emits a token exactly on [quote c quote], where [c] is
    not a backslash, a quote, a newline or U+0000, and on [quote backslash
    c quote], where [c] is not a newline or U+0000: any other code point may
    follow the backslash.  The token is a [CHAR_LIT] whose lexeme is the
    three or four code points as written.  On every other input it emits
    no token, records one of its three errors at the opening quote, and
    consumes at most three code points. *)
Theorem scanChar_accepts_iff pre rest t e :
  exists lx',
    scanChar (st pre ("'"%r :: rest) t e) = Ok tt lx' /\
    ((exists c tail,
         rest = c :: "'"%r :: tail /\
         c <> "\"%r /\ c <> "'"%r /\ c <> LF /\ c <> NUL /\
         lx' = st (pre ++ ["'"%r; c; "'"%r]) tail
                  (t ++ [mkToken CHAR_LIT (string_of_runes ["'"%r; c; "'"%r])
                                 (fst (posAfter pre)) (snd (posAfter pre))
                                 None None])
                  e)
     \/ (exists c tail,
            rest = "\"%r :: c :: "'"%r :: tail /\ c <> LF /\ c <> NUL /\
            lx' = st (pre ++ ["'"%r; "\"%r; c; "'"%r]) tail
                     (t ++ [mkToken CHAR_LIT
                                    (string_of_runes ["'"%r; "\"%r; c; "'"%r])
                                    (fst (posAfter pre)) (snd (posAfter pre))
                                    None None])
                     e)
     \/ (tokens lx' = t /\
         (forall c tail, rest = c :: "'"%r :: tail ->
                         c = "\"%r \/ c = "'"%r \/ c = LF \/ c = NUL) /\
         (forall c tail, rest = "\"%r :: c :: "'"%r :: tail ->
                         c = LF \/ c = NUL) /\
         i lx' <= i (st pre ("'"%r :: rest) t e) + 3 /\
         exists msg,
           errors lx' = e ++ [errorFrom pre msg] /\
           In msg [str "empty or invalid char literal";
                   str "unterminated char escape";
                   str "unterminated char literal"])).
Proof.
  eexists. split; [apply scanChar_spec |].
  unfold charRun, charClose; cbv zeta.
  destruct rest as [| a [| b [| c rest]]]; nsimp;
    repeat (repeat eqb_known; nsimp; try eqb_case);
    cbn [after app];
    first
      [ solve [ left; do 2 eexists;
                repeat (split; [first [reflexivity | assumption] |]);
                unfold tokenAt; rewrite <- ?app_assoc; reflexivity ]
      | solve [ right; left; do 2 eexists;
                repeat (split; [first [reflexivity | assumption] |]);
                unfold tokenAt; rewrite <- ?app_assoc; reflexivity ]
      | right; right;
        rewrite tokens_st, errors_st, !i_st, !length_app; cbn [len];
        split; [reflexivity |];
        split; [intros c0 tail H; try discriminate H;
                injection H; intros; subst; try congruence; auto 6 |];
        split; [intros c0 tail H; try discriminate H;
                injection H; intros; subst; try congruence; auto 6 |];
        split; [lia |];
        eexists; split; [reflexivity | cbn; auto] ].
Qed.

(** ** Punctuation and operators *)

(** The spellings that the [switch] of [nextToken] recognises, each with
    the kind of the token it adds. *)
Definition operators : list (gostring * TokenType) :=
  [ (str "(", LPAREN); (str ")", RPAREN); (str "{", LBRACE);
    (str "}", RBRACE); (str "[", LBRACK); (str "]", RBRACK);
    (str ",", COMMA); (str ";", SEMI); (str ":", COLON); (str ":=", DECL);
    (str ".", DOT); (str "+", PLUS); (str "+=", ADDEQ); (str "-", MINUS);
    (str "-=", SUBEQ); (str "*", STAR); (str "*=", MULEQ); (str "/", SLASH);
    (str "/=", DIVEQ); (str "%", PERCENT); (str "%=", MODEQ); (str "<", LT);
    (str "<-", CH_SEND); (str "<=", LE); (str "<<", SHL); (str "<<=", SHLEQ);
    (str ">", GT); (str ">=", GE); (str ">>", SHR); (str ">>=", SHREQ);
    (str "=", ASSIGN); (str "==", EQ); (str "!", BANG); (str "!=", NE);
    (str "&", BAND); (str "&&", ANDAND); (str "&=", ANDEQ); (str "|", BOR);
    (str "||", OROR); (str "|=", OREQ); (str "^", BXOR); (str "^=", XOREQ) ].

Definition longer (best : option (gostring * TokenType))
    (op : gostring * TokenType) : option (gostring * TokenType) :=
  match best with
  | Some b => if (len (fst b) <? len (fst op))%nat then Some op else best
  | None => Some op
  end.

(** The longest of the spellings of [ops] that the text [rest] begins with. *)
Definition longestOf (ops : list (gostring * TokenType)) (rest : list rune)
    : option (gostring * TokenType) :=
  fold_left longer (filter (fun op => HasPrefix rest (fst op)) ops) None.

Definition longestMatch (rest : list rune) : option (gostring * TokenType) :=
  longestOf operators rest.

(** What the [switch] consumes, what it leaves, and its result. *)
Definition symbolRun (rest : list rune) : list rune * list rune * scanResult :=
  match longestMatch rest with
  | Some (lex, ty) => (lex, skipn (len lex) rest, Emit ty)
  | None =>
      (firstn 1 rest, skipn 1 rest,
       Fail (str "invalid character " ++ QuoteRune (nth 0 rest NUL)))
  end.

Lemma fold_longer_spec ops : forall best,
  match fold_left longer ops best with
  | Some r =>
      (best = Some r \/ In r ops) /\
      (forall b, best = Some b -> (len (fst b) <= len (fst r))%nat) /\
      (forall op, In op ops -> (len (fst op) <= len (fst r))%nat)
  | None => best = None /\ ops = []
  end.
Proof.
  induction ops as [| op ops IH]; intros best; cbn [fold_left].
  - destruct best as [b |]; [| auto].
    split; [auto |]. split; [| intros ? []].
    intros b' H. injection H as <-. lia.
  - specialize (IH (longer best op)).
    destruct (fold_left longer ops (longer best op)) as [r |].
    + destruct IH as ([Hr | Hr] & Hb & Hops).
      * unfold longer in Hr, Hb.
        destruct best as [b |].
        -- destruct (Nat.ltb_spec (len (fst b)) (len (fst op))) as [Hlt | Hge].
           ++ injection Hr as <-.
              split; [right; left; reflexivity |]. split.
              ** intros b' H. injection H as <-. lia.
              ** intros op' [<- | Hin]; [lia | auto].
           ++ injection Hr as <-.
              split; [left; reflexivity |]. split.
              ** intros b' H. injection H as <-. lia.
              ** intros op' [<- | Hin]; [lia | auto].
        -- injection Hr as <-.
           split; [right; left; reflexivity |]. split.
           ++ intros b' H. discriminate H.
           ++ intros op' [<- | Hin]; [lia | auto].
      * split; [right; right; exact Hr |].
        assert (Hop : (len (fst op) <= len (fst r))%nat).
        { unfold longer in Hb. destruct best as [b |].
          - destruct (Nat.ltb_spec (len (fst b)) (len (fst op)));
              [apply (Hb op); reflexivity |].
            specialize (Hb b eq_refl). lia.
          - apply (Hb op). reflexivity. }
        split.
        -- intros b' ->. unfold longer in Hb.
           destruct (Nat.ltb_spec (len (fst b')) (len (fst op)));
             [lia | apply (Hb b'); reflexivity].
        -- intros op' [<- | Hin]; [exact Hop | auto].
    + destruct IH as (Hb & _). unfold longer in Hb.
      destruct best as [b |]; [| discriminate Hb].
      destruct (len (fst b) <? len (fst op))%nat; discriminate Hb.
Qed.

Lemma longestOf_Some ops rest lex ty :
  longestOf ops rest = Some (lex, ty) ->
  In (lex, ty) ops /\ HasPrefix rest lex = true /\
  forall lex' ty', In (lex', ty') ops -> HasPrefix rest lex' = true ->
                   (len lex' <= len lex)%nat.
Proof.
  unfold longestOf. intros H.
  pose proof (fold_longer_spec
                (filter (fun op => HasPrefix rest (fst op)) ops) None) as S.
  rewrite H in S. destruct S as ([Hn | Hin] & _ & Hmax); [discriminate Hn |].
  apply filter_In in Hin. destruct Hin as (Hin & Hp).
  split; [exact Hin |]. split; [exact Hp |].
  intros lex' ty' Hin' Hp'.
  apply (Hmax (lex', ty')). apply filter_In. auto.
Qed.

Lemma longestOf_None ops rest :
  longestOf ops rest = None ->
  forall lex ty, In (lex, ty) ops -> HasPrefix rest lex = false.
Proof.
  unfold longestOf. intros H lex ty Hin.
  pose proof (fold_longer_spec
                (filter (fun op => HasPrefix rest (fst op)) ops) None) as S.
  rewrite H in S. destruct S as (_ & Hnil).
  destruct (HasPrefix rest lex) eqn:Hp; [| reflexivity].
  assert (Hf : In (lex, ty) (filter (fun op => HasPrefix rest (fst op)) ops))
    by (apply filter_In; auto).
  rewrite Hnil in Hf. destruct Hf.
Qed.

Lemma HasPrefix_nil s : HasPrefix s [] = true.
Proof. destruct s; reflexivity. Qed.

Lemma longestOf_nomatch ops rest :
  Forall (fun op => HasPrefix rest (fst op) = false) ops ->
  longestOf ops rest = None.
Proof.
  unfold longestOf. intros H.
  induction H as [| op ops Hop _ IH]; [reflexivity |].
  cbn [filter]. rewrite Hop. exact IH.
Qed.

Lemma scanSymbol_spec pre ch rest t e :
  scanSymbol ch (fst (posAfter pre)) (snd (posAfter pre))
             (st pre (ch :: rest) t e)
  = Ok tt (after pre t e (symbolRun (ch :: rest))).
Proof.
  unfold scanSymbol; cbv zeta.
  destruct rest as [| a [| b rest]]; eqb_cases;
    unfold symbolRun, longestMatch;
    lazymatch goal with
    | |- context [longestOf _ (?c :: _)] =>
        tryif is_var c then
          (rewrite longestOf_nomatch;
           [ cbn [nth firstn skipn after]; reflexivity
           | unfold operators; repeat constructor;
             cbn; repeat eqb_known; reflexivity ])
        else
          (unfold longestOf, operators; cbn; repeat eqb_known;
           rewrite ?HasPrefix_nil; cbn; reflexivity)
    end.
Qed.

Lemma operators_ascii :
  Forall (fun op => string_of_runes (fst op) = fst op) operators.
Proof. unfold operators. repeat constructor. Qed.

Lemma In_operators_ascii lex ty :
  In (lex, ty) operators -> string_of_runes lex = lex.
Proof.
  intros H. pose proof operators_ascii as A.
  rewrite Forall_forall in A. apply (A (lex, ty) H).
Qed.

Lemma HasPrefix_skipn s p : HasPrefix s p = true -> s = p ++ skipn (len p) s.
Proof.
  intros H. apply HasPrefix_spec in H. destruct H as (b & ->).
  rewrite skipn_exact. reflexivity.
Qed.

(** X5.  The [switch] of [nextToken] is a longest match over the table of
    operators: it consumes the longest spelling of the table that the
    remaining input begins with and adds the token of that spelling, with
    the spelling as lexeme; when the input begins with no spelling of the
    table, it records [invalid character] with the quoted code point and
    consumes that one code point. *)
Theorem scanSymbol_longest_match pre ch rest t e :
  exists lx',
    scanSymbol ch (fst (posAfter pre)) (snd (posAfter pre))
               (st pre (ch :: rest) t e) = Ok tt lx' /\
    ((exists lex ty tail,
         In (lex, ty) operators /\ ch :: rest = lex ++ tail /\
         (forall lex' ty' tail',
             In (lex', ty') operators -> ch :: rest = lex' ++ tail' ->
             (len lex' <= len lex)%nat) /\
         lx' = st (pre ++ lex) tail
                  (t ++ [mkToken ty lex (fst (posAfter pre))
                                 (snd (posAfter pre)) None None])
                  e)
     \/ ((forall lex' ty' tail',
             In (lex', ty') operators -> ch :: rest <> lex' ++ tail') /\
         lx' = st (pre ++ [ch]) rest t
                  (e ++ [errorString (fst (posAfter pre)) (snd (posAfter pre))
                           (str "invalid character " ++ QuoteRune ch)]))).
Proof.
  eexists. split; [apply scanSymbol_spec |].
  unfold symbolRun, longestMatch.
  destruct (longestOf operators (ch :: rest)) as [[lex ty] |] eqn:Hm.
  - left. apply longestOf_Some in Hm. destruct Hm as (Hin & Hp & Hmax).
    exists lex, ty, (skipn (len lex) (ch :: rest)).
    split; [exact Hin |]. split; [apply HasPrefix_skipn; exact Hp |]. split.
    + intros lex' ty' tail' Hin' Heq. apply (Hmax lex' ty' Hin').
      apply HasPrefix_spec. exists tail'. exact Heq.
    + cbn [after]. unfold tokenAt.
      rewrite (In_operators_ascii lex ty Hin). reflexivity.
  - right. split.
    + intros lex' ty' tail' Hin' Heq.
      pose proof (longestOf_None _ _ Hm lex' ty' Hin') as Hf.
      assert (Ht : HasPrefix (ch :: rest) lex' = true)
        by (apply HasPrefix_spec; exists tail'; exact Heq).
      congruence.
    + cbn [after firstn skipn nth]. reflexivity.
Qed.

(** ** Raw strings *)

Lemma rawRun_closed body tail :
  ~ In "`"%r body -> ~ In NUL body ->
  rawRun (body ++ "`"%r :: tail) = (body ++ ["`"%r], tail, true).
Proof.
  induction body as [| c body IH]; intros Hq H0; cbn [app rawRun].
  - reflexivity.
  - destruct (Z.eqb_spec c NUL) as [-> | _]; [exfalso; apply H0; left; reflexivity |].
    destruct (Z.eqb_spec c "`"%r) as [-> | _];
      [exfalso; apply Hq; left; reflexivity |].
    rewrite IH; [reflexivity | |]; intros H; [apply Hq | apply H0]; right; exact H.
Qed.

Lemma rawRun_open body :
  ~ In "`"%r body -> ~ In NUL body -> rawRun body = (body, [], false).
Proof.
  induction body as [| c body IH]; intros Hq H0; cbn [rawRun].
  - reflexivity.
  - destruct (Z.eqb_spec c NUL) as [-> | _]; [exfalso; apply H0; left; reflexivity |].
    destruct (Z.eqb_spec c "`"%r) as [-> | _];
      [exfalso; apply Hq; left; reflexivity |].
    rewrite IH; [reflexivity | |]; intros H; [apply Hq | apply H0]; right; exact H.
Qed.

(** X6.  A raw string runs from its opening backquote to the next
    backquote, whatever code points other than U+0000 stand between them
    (newlines, quotes and backslashes included): for a body that holds
    neither a backquote nor a U+0000, [scanRawString] emits one
    [STRING_LIT] token whose lexeme is that text, both backquotes included,
    positioned at the opening backquote.  When the input ends after such a
    body, before a second backquote, it consumes the rest of the input,
    emits no token and records [unterminated raw string] at the opening
    backquote.  When a U+0000 follows such a body, it does the same but
    stops in front of the U+0000, whatever follows it, a closing backquote
    included. *)
Theorem scanRawString_contract :
  (forall fuel pre body tail t e,
      ~ In "`"%r body -> ~ In NUL body ->
      (len (body ++ "`"%r :: tail) < fuel)%nat ->
      scanRawString fuel (st pre ("`"%r :: body ++ "`"%r :: tail) t e)
      = Ok tt (st (pre ++ "`"%r :: body ++ ["`"%r]) tail
                  (t ++ [mkToken STRING_LIT
                                 (string_of_runes ("`"%r :: body ++ ["`"%r]))
                                 (fst (posAfter pre)) (snd (posAfter pre))
                                 None None])
                  e))
  /\
  (forall fuel pre body t e,
      ~ In "`"%r body -> ~ In NUL body ->
      (len body < fuel)%nat ->
      scanRawString fuel (st pre ("`"%r :: body) t e)
      = Ok tt (st (pre ++ "`"%r :: body) [] t
                  (e ++ [errorString (fst (posAfter pre)) (snd (posAfter pre))
                           (str "unterminated raw string")])))
  /\
  (forall fuel pre body tail t e,
      ~ In "`"%r body -> ~ In NUL body ->
      (len (body ++ NUL :: tail) < fuel)%nat ->
      scanRawString fuel (st pre ("`"%r :: body ++ NUL :: tail) t e)
      = Ok tt (st (pre ++ "`"%r :: body) (NUL :: tail) t
                  (e ++ [errorString (fst (posAfter pre)) (snd (posAfter pre))
                           (str "unterminated raw string")]))).
Proof.
  split; [| split].
  - intros fuel pre body tail t e Hq H0 Hf.
    rewrite scanRawString_spec by exact Hf. unfold rawAttempt.
    rewrite rawRun_closed by assumption. reflexivity.
  - intros fuel pre body t e Hq H0 Hf.
    rewrite scanRawString_spec by exact Hf. unfold rawAttempt.
    rewrite rawRun_open by assumption. reflexivity.
  - intros fuel pre body tail t e Hq H0 Hf.
    rewrite scanRawString_spec by exact Hf. unfold rawAttempt.
    rewrite rawRun_NUL by (apply rawRun_open; assumption). reflexivity.
Qed.

(** ** One call of [nextToken], as a function of the remaining input *)

(** What the scanner that [nextToken] selects consumes, what it leaves, and
    its result. *)
Definition dispatchRun (rest : list rune)
    : list rune * list rune * scanResult :=
  let ch := nth 0 rest NUL in
  if isIdentStart ch then
    (takeWhile isIdentPart rest, dropWhile isIdentPart rest,
     Emit (identKind (string_of_runes (takeWhile isIdentPart rest))))
  else if IsDigit ch then numberRun rest
  else if ch =? DQUOTE then stringAttempt ch (skipn 1 rest)
  else if ch =? "`"%r then rawAttempt ch (skipn 1 rest)
  else if ch =? "'"%r then charRun ch (skipn 1 rest)
  else symbolRun rest.

Lemma dispatch_spec fuel pre rest t e :
  (len rest < fuel)%nat -> nth 0 rest NUL <> NUL ->
  dispatch fuel (st pre rest t e)
  = Ok true (after pre t e (dispatchRun rest)).
Proof.
  intros Hf Hn. unfold dispatch, dispatchRun. msteps.
  destruct rest as [| ch rs]; [contradiction |]. nsimp. cbn [nth] in Hn.
  destruct (Z.eqb_spec ch NUL); [contradiction |]. msteps.
  destruct (isIdentStart ch) eqn:Hs.
  { erewrite bind_eq by (apply scanIdentOrKeyword_spec; exact Hf).
    reflexivity. }
  destruct (IsDigit ch) eqn:Hd.
  { erewrite bind_eq by (apply scanNumber_spec; exact Hf). reflexivity. }
  destruct (Z.eqb_spec ch DQUOTE) as [-> |].
  { erewrite bind_eq by (apply scanString_spec; cbn [len] in Hf; lia).
    reflexivity. }
  destruct (Z.eqb_spec ch "`"%r) as [-> |].
  { erewrite bind_eq by (apply scanRawString_spec; cbn [len] in Hf; lia).
    reflexivity. }
  destruct (Z.eqb_spec ch "'"%r) as [-> |].
  { erewrite bind_eq by apply scanChar_spec. reflexivity. }
  erewrite bind_eq by apply scanSymbol_spec. reflexivity.
Qed.

(** ** Line comments *)

Definition lineEnd (r : rune) : bool := (r =? LF) || (r =? NUL).

(** The text that the loop of a line comment consumes: up to and including
    the first newline or U+0000. *)
Definition lineText (rest : list rune) : list rune :=
  takeWhile (fun r => negb (lineEnd r)) rest
  ++ firstn 1 (dropWhile (fun r => negb (lineEnd r)) rest).

Definition lineRest (rest : list rune) : list rune :=
  skipn 1 (dropWhile (fun r => negb (lineEnd r)) rest).

Lemma lineText_lineRest rest : lineText rest ++ lineRest rest = rest.
Proof.
  unfold lineText, lineRest. rewrite <- app_assoc, firstn1_skipn1.
  apply takeWhile_dropWhile.
Qed.

Lemma lineComment_loop_spec fuel : forall rest ch pre t e,
  (len rest < fuel)%nat -> lineEnd ch = false ->
  lineComment_loop fuel ch (st pre rest t e)
  = Ok tt (st (pre ++ lineText rest) (lineRest rest) t e).
Proof.
  induction fuel as [| f IH]; intros rest ch pre t e Hf Hch; [lia |].
  cbn [lineComment_loop]. unfold lineEnd in Hch.
  destruct (Z.eqb_spec ch LF) as [-> | H1]; [discriminate Hch |].
  destruct (Z.eqb_spec ch NUL) as [-> | H0]; [discriminate Hch |].
  cbn [negb andb].
  destruct rest as [| x rs]; msteps.
  - rewrite lineComment_loop_stop by auto.
    unfold lineText, lineRest. cbn. rewrite !app_nil_r. reflexivity.
  - unfold lineText, lineRest. cbn [takeWhile dropWhile].
    destruct (lineEnd x) eqn:Hx; cbn [negb firstn skipn app].
    + rewrite lineComment_loop_stop
        by (unfold lineEnd in Hx; apply orb_true_iff in Hx;
            destruct Hx as [Hx | Hx]; apply Z.eqb_eq in Hx; auto).
      reflexivity.
    + rewrite IH by (cbn [len] in Hf; first [lia | exact Hx]).
      unfold lineText, lineRest. rewrite <- !app_assoc. reflexivity.
Qed.

Lemma lineText_comment body c rest :
  ~ In LF body -> ~ In NUL body -> c = LF \/ c = NUL ->
  lineText (body ++ c :: rest) = body ++ [c] /\
  lineRest (body ++ c :: rest) = rest.
Proof.
  intros H1 H0 Hc. unfold lineText, lineRest, lineEnd.
  induction body as [| x body IH]; cbn [app takeWhile dropWhile].
  - destruct Hc as [-> | ->]; split; reflexivity.
  - destruct (Z.eqb_spec x LF) as [-> | _];
      [exfalso; apply H1; left; reflexivity |].
    destruct (Z.eqb_spec x NUL) as [-> | _];
      [exfalso; apply H0; left; reflexivity |].
    cbn [orb negb].
    destruct IH as (IH1 & IH2);
      [intros H; apply H1; right; exact H
      | intros H; apply H0; right; exact H |].
    split; [cbn [app]; f_equal; exact IH1 | exact IH2].
Qed.

Lemma lineText_open body :
  ~ In LF body -> ~ In NUL body ->
  lineText body = body /\ lineRest body = [].
Proof.
  intros H1 H0. unfold lineText, lineRest, lineEnd.
  induction body as [| x body IH]; cbn [app takeWhile dropWhile].
  - split; reflexivity.
  - destruct (Z.eqb_spec x LF) as [-> | _];
      [exfalso; apply H1; left; reflexivity |].
    destruct (Z.eqb_spec x NUL) as [-> | _];
      [exfalso; apply H0; left; reflexivity |].
    cbn [orb negb].
    destruct IH as (IH1 & IH2);
      [intros H; apply H1; right; exact H
      | intros H; apply H0; right; exact H |].
    split; [cbn [app]; f_equal; exact IH1 | exact IH2].
Qed.

(** ** Block comments *)

Lemma blockRun_app n : forall rest depth,
  (len rest <= n)%nat ->
  let '(m, r, _) := blockRun depth rest in rest = m ++ r.
Proof.
  induction n as [| n IH]; intros rest depth Hn.
  - destruct rest; [| cbn in Hn; lia]. cbn [blockRun].
    destruct (depth >? 0); reflexivity.
  - destruct rest as [| c rs]; cbn [blockRun].
    { destruct (depth >? 0); reflexivity. }
    destruct (depth >? 0); [| reflexivity].
    destruct (c =? NUL); [reflexivity |].
    assert (Hone : forall d,
              let '(m, r, _) :=
                (let '(m, r, k) := blockRun d rs in (c :: m, r, k)) in
              c :: rs = m ++ r).
    { intros d. pose proof (IH rs d ltac:(cbn in Hn; lia)) as H.
      destruct (blockRun d rs) as [[m r] k]. cbn [app]. congruence. }
    destruct rs as [| x rs']; [apply Hone |].
    assert (Htwo : forall d,
              let '(m, r, _) :=
                (let '(m, r, k) := blockRun d rs' in (c :: x :: m, r, k)) in
              c :: x :: rs' = m ++ r).
    { intros d. pose proof (IH rs' d ltac:(cbn in Hn; lia)) as H.
      destruct (blockRun d rs') as [[m r] k]. cbn [app]. congruence. }
    destruct ((c =? "/"%r) && (x =? "*"%r)); [apply Htwo |].
    destruct ((c =? "*"%r) && (x =? "/"%r)); [apply Htwo |].
    apply Hone.
Qed.

Lemma blockRun_len depth rest m r k :
  blockRun depth rest = (m, r, k) -> rest = m ++ r.
Proof.
  intros H. pose proof (blockRun_app (len rest) rest depth (Nat.le_refl _)) as A.
  rewrite H in A. exact A.
Qed.

(** A comment body that closes at depth [k], read at depth [d + k], brings
    the depth back to [d]. *)
Lemma blockRun_shift n : forall x k d rest,
  (len x <= n)%nat -> 0 < k -> 0 <= d ->
  blockRun k x = (x, [], true) ->
  blockRun (d + k) (x ++ rest)
  = let '(m, r, c) := blockRun d rest in (x ++ m, r, c).
Proof.
  induction n as [| n IH]; intros x k d rest Hn Hk Hd Hx.
  - destruct x; [| cbn in Hn; lia]. cbn [blockRun] in Hx.
    destruct (Z.gtb_spec k 0) as [G | G]; [discriminate Hx | lia].
  - destruct x as [| c rs]; cbn [blockRun] in Hx.
    { destruct (Z.gtb_spec k 0) as [G | G]; [discriminate Hx | lia]. }
    destruct (Z.gtb_spec k 0) as [G | G]; [| lia].
    cbn [app blockRun].
    destruct (Z.gtb_spec (d + k) 0) as [G' | G']; [| lia].
    destruct (c =? NUL); [discriminate Hx |].
    assert (Hone : forall k',
              0 < k' ->
              (let '(m, r, c') := blockRun k' rs in (c :: m, r, c'))
              = (c :: rs, [], true) ->
              (let '(m, r, c') := blockRun (d + k') (rs ++ rest) in
               (c :: m, r, c'))
              = let '(m, r, c') := blockRun d rest in (c :: rs ++ m, r, c')).
    { intros k' Hk' HH. destruct (blockRun k' rs) as [[m r] c'] eqn:E.
      injection HH as -> -> ->.
      rewrite (IH rs k' d rest) by (cbn in Hn; first [lia | assumption]).
      destruct (blockRun d rest) as [[m r] c']. reflexivity. }
    destruct rs as [| y rs'].
    { cbn [blockRun] in Hx.
      destruct (Z.gtb_spec k 0) as [G2 | G2]; [discriminate Hx | lia]. }
    cbn [app].
    destruct ((c =? "/"%r) && (y =? "*"%r)).
    { destruct (blockRun (k + 1) rs') as [[m r] c'] eqn:E.
      injection Hx as -> -> ->.
      replace (d + k + 1) with (d + (k + 1)) by lia.
      rewrite (IH rs' (k + 1) d rest) by (cbn in Hn; first [lia | assumption]).
      destruct (blockRun d rest) as [[m r] c']. reflexivity. }
    destruct ((c =? "*"%r) && (y =? "/"%r)); [| apply (Hone k); assumption].
    destruct (blockRun (k - 1) rs') as [[m r] c'] eqn:E.
    injection Hx as -> -> ->.
    replace (d + k - 1) with (d + (k - 1)) by lia.
    destruct (Z.eq_dec k 1) as [-> | Hk1].
    + change (1 - 1) with 0 in *.
      destruct rs' as [| z rs']; cbn [blockRun] in E;
        change (0 >? 0) with false in E; [| discriminate E].
      rewrite Z.add_0_r. cbn [app].
      destruct (blockRun d rest) as [[m r] c']. reflexivity.
    + rewrite (IH rs' (k - 1) d rest) by (cbn in Hn; first [lia | assumption]).
      destruct (blockRun d rest) as [[m r] c']. reflexivity.
Qed.

(** The body of a block comment that is closed at its end: the text after
    the opening delimiter, up to and including the delimiter that closes
    the comment. *)
Definition closedComment (x : list rune) : Prop :=
  blockRun 1 x = (x, [], true).

Lemma blockRun_zero rest : blockRun 0 rest = ([], rest, true).
Proof. destruct rest; reflexivity. Qed.

Lemma blockRun_cons depth c rs :
  blockRun depth (c :: rs)
  = if depth >? 0 then
      if c =? NUL then ([], c :: rs, false)
      else
        match rs with
        | x :: rs' =>
            if (c =? "/"%r) && (x =? "*"%r) then
              let '(m, r, k) := blockRun (depth + 1) rs' in (c :: x :: m, r, k)
            else if (c =? "*"%r) && (x =? "/"%r) then
              let '(m, r, k) := blockRun (depth - 1) rs' in (c :: x :: m, r, k)
            else let '(m, r, k) := blockRun depth rs in (c :: m, r, k)
        | [] => let '(m, r, k) := blockRun depth rs in (c :: m, r, k)
        end
    else ([], c :: rs, true).
Proof. destruct rs; reflexivity. Qed.

Lemma closedComment_run x rest :
  closedComment x -> blockRun 1 (x ++ rest) = (x, rest, true).
Proof.
  intros H.
  pose proof (blockRun_shift (len x) x 1 0 rest (Nat.le_refl _)
                ltac:(lia) ltac:(lia) H) as S.
  rewrite blockRun_zero, app_nil_r in S. exact S.
Qed.

(** ** The fuel does not matter once it is above the remaining input *)

Lemma lineRest_len rest : (len (lineRest rest) <= len rest)%nat.
Proof.
  pose proof (f_equal (@Datatypes.length _) (lineText_lineRest rest)) as H.
  rewrite length_app in H. lia.
Qed.

Lemma isSpace_slash : isSpace "/"%r = false.
Proof. reflexivity. Qed.

Lemma skipWSAndComments_fuel f1 : forall f2 rest pre t e,
  (len rest < f1)%nat -> (len rest < f2)%nat ->
  skipWSAndComments f1 (st pre rest t e)
  = skipWSAndComments f2 (st pre rest t e).
Proof.
  induction f1 as [| f1 IH]; intros f2 rest pre t e H1 H2; [lia |].
  destruct f2 as [| f2]; [lia |].
  cbn [skipWSAndComments]; cbv zeta. msteps.
  destruct rest as [| ch rs]; nsimp; [reflexivity |].
  destruct (isSpace ch) eqn:Hsp; msteps.
  { apply IH; cbn [len] in *; lia. }
  destruct (Z.eqb_spec ch "/"%r) as [-> | Hs]; msteps; [| reflexivity].
  destruct rs as [| n rs']; msteps; [reflexivity |].
  destruct (Z.eqb_spec n "/"%r) as [-> | Hn]; msteps.
  - erewrite bind_eq by (apply lineComment_loop_spec; [exact H1 | reflexivity]).
    symmetry.
    erewrite bind_eq by (apply lineComment_loop_spec; [exact H2 | reflexivity]).
    symmetry.
    pose proof (lineRest_len rs') as Hl.
    apply IH; change (lineRest ("/"%r :: "/"%r :: rs')) with (lineRest rs');
      cbn [len] in *; lia.
  - destruct (Z.eqb_spec n "*"%r) as [-> | Hn']; msteps; [| reflexivity].
    erewrite bind_eq by (apply blockComment_loop_spec; cbn [len] in H1; lia).
    symmetry.
    erewrite bind_eq by (apply blockComment_loop_spec; cbn [len] in H2; lia).
    symmetry.
    destruct (blockRun 1 rs') as [[m r] k] eqn:E. cbn [blockLoopEnd].
    destruct k; [| reflexivity].
    apply blockRun_len in E. subst rs'.
    rewrite <- app_assoc.
    apply IH; cbn [len] in *; rewrite length_app in *; lia.
Qed.

Lemma nextToken_fuel f1 f2 rest pre t e :
  (len rest < f1)%nat -> (len rest < f2)%nat ->
  nextToken f1 (st pre rest t e) = nextToken f2 (st pre rest t e).
Proof.
  intros H1 H2. unfold nextToken.
  pose proof (skipWSAndComments_fuel f1 f2 rest pre t e H1 H2) as Hs.
  destruct (skipWSAndComments_skipped f2 rest pre t e H2)
    as (m & rest' & -> & [Heq | (m1 & m2 & Hm & Hn & Heq)]);
    rewrite Heq in Hs;
    erewrite bind_Ok by exact Hs; symmetry;
    erewrite bind_Ok by exact Heq; symmetry.
  - rewrite length_app in *.
    destruct (Z.eq_dec (nth 0 rest' NUL) NUL) as [Hn | Hn].
    + rewrite !dispatch_stop by exact Hn. reflexivity.
    + rewrite !dispatch_spec by (first [lia | exact Hn]). reflexivity.
  - rewrite !dispatch_stop by exact Hn. reflexivity.
Qed.

Lemma LexAll_fuel f1 : forall f2 rest pre t e,
  (len rest < f1)%nat -> (len rest < f2)%nat ->
  LexAll f1 (st pre rest t e) = LexAll f2 (st pre rest t e).
Proof.
  induction f1 as [| f1 IH]; intros f2 rest pre t e H1 H2; [lia |].
  destruct f2 as [| f2]; [lia |].
  cbn [LexAll].
  pose proof (nextToken_fuel (S f1) (S f2) rest pre t e H1 H2) as Hn.
  destruct (nextToken_post (S f2) pre rest t e H2)
    as (m & rest' & t' & e' & more & -> & Heq & Hmore & _).
  rewrite Heq in Hn.
  erewrite bind_Ok by exact Hn. symmetry.
  erewrite bind_Ok by exact Heq. symmetry.
  destruct more; [| reflexivity].
  specialize (Hmore eq_refl).
  apply IH; rewrite length_app in *; destruct m; cbn [len] in *;
    first [congruence | lia].
Qed.

Lemma LexAll_after_skip f lx lx' :
  skipWSAndComments f lx = skipWSAndComments f lx' ->
  LexAll f lx = LexAll f lx'.
Proof.
  intros H. destruct f; cbn [LexAll]; unfold nextToken, bind; rewrite H;
    reflexivity.
Qed.

(** Trivia in front of the remaining input: when the skipper, with one
    unit of fuel less, goes on from behind [x], so does the whole run. *)
Lemma LexAll_skips f f' pre x rest t e :
  (len (x ++ rest) < S f)%nat -> (len rest < f')%nat -> x <> [] ->
  skipWSAndComments (S f) (st pre (x ++ rest) t e)
  = skipWSAndComments f (st (pre ++ x) rest t e) ->
  LexAll (S f) (st pre (x ++ rest) t e) = LexAll f' (st (pre ++ x) rest t e).
Proof.
  intros Hf Hf' Hx H.
  assert (Hr : (len rest < f)%nat).
  { rewrite length_app in Hf. destruct x; [congruence | cbn [len] in Hf; lia]. }
  rewrite (LexAll_after_skip (S f) _ (st (pre ++ x) rest t e)).
  - apply LexAll_fuel; lia.
  - rewrite H. apply skipWSAndComments_fuel; lia.
Qed.

Lemma skip_line f pre body c rest t e :
  ~ In LF body -> ~ In NUL body -> c = LF \/ c = NUL ->
  (len ("/"%r :: "/"%r :: body ++ c :: rest) < S f)%nat ->
  skipWSAndComments (S f) (st pre ("/"%r :: "/"%r :: body ++ c :: rest) t e)
  = skipWSAndComments f (st (pre ++ "/"%r :: "/"%r :: body ++ [c]) rest t e).
Proof.
  intros H1 H0 Hc Hf.
  cbn [skipWSAndComments]; cbv zeta. msteps. rewrite isSpace_slash. msteps.
  erewrite bind_eq by (apply lineComment_loop_spec; [exact Hf | reflexivity]).
  destruct (lineText_comment ("/"%r :: "/"%r :: body) c rest) as (Ht & Hr).
  - intros [H | [H | H]]; [discriminate H | discriminate H | auto].
  - intros [H | [H | H]]; [discriminate H | discriminate H | auto].
  - exact Hc.
  - cbn [app] in Ht, Hr. rewrite Ht, Hr. reflexivity.
Qed.

Lemma skip_line_end f pre body t e :
  ~ In LF body -> ~ In NUL body ->
  (len ("/"%r :: "/"%r :: body) < S f)%nat ->
  skipWSAndComments (S f) (st pre ("/"%r :: "/"%r :: body) t e)
  = Ok tt (st (pre ++ "/"%r :: "/"%r :: body) [] t e).
Proof.
  intros H1 H0 Hf.
  cbn [skipWSAndComments]; cbv zeta. msteps. rewrite isSpace_slash. msteps.
  erewrite bind_eq by (apply lineComment_loop_spec; [exact Hf | reflexivity]).
  destruct (lineText_open ("/"%r :: "/"%r :: body)) as (Ht & Hr).
  - intros [H | [H | H]]; [discriminate H | discriminate H | auto].
  - intros [H | [H | H]]; [discriminate H | discriminate H | auto].
  - rewrite Ht, Hr.
    destruct f; cbn [skipWSAndComments]; cbv zeta; msteps; reflexivity.
Qed.

(** X7.  A line comment runs from [//] to the first newline or U+0000,
    which belongs to it: the run goes on behind that code point as if it
    had started there, so the text of the comment yields no token and no
    error, and a U+0000 inside a line comment does not end the run.  A line
    comment that the end of the input cuts short is skipped whole. *)
Theorem line_comment_skipped :
  (forall f f' pre body c rest t e,
      ~ In LF body -> ~ In NUL body -> c = LF \/ c = NUL ->
      (len ("/"%r :: "/"%r :: body ++ c :: rest) < f)%nat ->
      (len rest < f')%nat ->
      LexAll f (st pre ("/"%r :: "/"%r :: body ++ c :: rest) t e)
      = LexAll f' (st (pre ++ "/"%r :: "/"%r :: body ++ [c]) rest t e))
  /\
  (forall f pre body t e,
      ~ In LF body -> ~ In NUL body ->
      (len ("/"%r :: "/"%r :: body) < f)%nat ->
      LexAll f (st pre ("/"%r :: "/"%r :: body) t e)
      = Ok (t, e) (st (pre ++ "/"%r :: "/"%r :: body) [] t e)).
Proof.
  split.
  - intros f f' pre body c rest t e H1 H0 Hc Hf Hf'.
    destruct f as [| f]; [lia |].
    change ("/"%r :: "/"%r :: body ++ c :: rest)
      with (("/"%r :: "/"%r :: body) ++ c :: rest) in *.
    replace (("/"%r :: "/"%r :: body) ++ c :: rest)
      with (("/"%r :: "/"%r :: body ++ [c]) ++ rest) in *
      by (cbn [app]; rewrite <- app_assoc; reflexivity).
    apply LexAll_skips; [exact Hf | exact Hf' | discriminate |].
    cbn [app]. rewrite <- app_assoc. cbn [app].
    apply skip_line; try assumption.
    cbn [app] in Hf. rewrite <- app_assoc in Hf. exact Hf.
  - intros f pre body t e H1 H0 Hf.
    destruct f as [| f]; [lia |].
    rewrite <- (app_nil_r ("/"%r :: "/"%r :: body)) at 1.
    apply LexAll_stop; [| reflexivity].
    rewrite app_nil_r. apply skip_line_end; assumption.
Qed.

Lemma skip_block f pre x rest t e :
  closedComment x ->
  (len ("/"%r :: "*"%r :: x ++ rest) < S f)%nat ->
  skipWSAndComments (S f) (st pre ("/"%r :: "*"%r :: x ++ rest) t e)
  = skipWSAndComments f (st (pre ++ "/"%r :: "*"%r :: x) rest t e).
Proof.
  intros Hx Hf.
  cbn [skipWSAndComments]; cbv zeta. msteps. rewrite isSpace_slash. msteps.
  erewrite bind_eq by (apply blockComment_loop_spec; cbn [len] in Hf; lia).
  rewrite closedComment_run by exact Hx. cbn [blockLoopEnd].
  rewrite <- app_assoc. reflexivity.
Qed.

Lemma skip_block_open f pre x t e :
  blockRun 1 x = (x, [], false) ->
  (len ("/"%r :: "*"%r :: x) < S f)%nat ->
  skipWSAndComments (S f) (st pre ("/"%r :: "*"%r :: x) t e)
  = Ok tt (st (pre ++ "/"%r :: "*"%r :: x) [] t
              (e ++ [errorFrom pre (str "unterminated block comment")])).
Proof.
  intros Hx Hf.
  cbn [skipWSAndComments]; cbv zeta. msteps. rewrite isSpace_slash. msteps.
  erewrite bind_eq by (apply blockComment_loop_spec; cbn [len] in Hf; lia).
  rewrite Hx. cbn [blockLoopEnd]. rewrite <- app_assoc. reflexivity.
Qed.

(** X8.  Block comments nest.  The bodies that close a comment are built
    from the closing delimiter by putting in front a code point that is not
    U+0000 and forms no delimiter with the next one, or a whole inner
    comment: its opening delimiter and its body.  A comment with such a
    body is skipped whole, whatever follows it: the run goes on behind it,
    and the text of the comment yields no token and no error.  A comment
    whose body is still open where the input ends is consumed to the end,
    and the run returns with the one error [unterminated block comment] at
    the outermost opening.  A U+0000 behind a body that is still open ends
    the run in the same way, in front of the U+0000, whatever follows it, a
    closing delimiter included. *)
Theorem block_comment_nesting :
  closedComment (str "*/")
  /\
  (forall c x,
      closedComment x -> c <> NUL ->
      (c = "/"%r -> nth 0 x NUL <> "*"%r) ->
      (c = "*"%r -> nth 0 x NUL <> "/"%r) ->
      closedComment (c :: x))
  /\
  (forall inner x,
      closedComment inner -> closedComment x ->
      closedComment ("/"%r :: "*"%r :: inner ++ x))
  /\
  (forall f f' pre x rest t e,
      closedComment x ->
      (len ("/"%r :: "*"%r :: x ++ rest) < f)%nat -> (len rest < f')%nat ->
      LexAll f (st pre ("/"%r :: "*"%r :: x ++ rest) t e)
      = LexAll f' (st (pre ++ "/"%r :: "*"%r :: x) rest t e))
  /\
  (forall f pre x t e,
      blockRun 1 x = (x, [], false) ->
      (len ("/"%r :: "*"%r :: x) < f)%nat ->
      LexAll f (st pre ("/"%r :: "*"%r :: x) t e)
      = Ok (t, e ++ [errorFrom pre (str "unterminated block comment")])
           (st (pre ++ "/"%r :: "*"%r :: x) [] t
               (e ++ [errorFrom pre (str "unterminated block comment")])))
  /\
  (forall f pre x tail t e,
      blockRun 1 x = (x, [], false) ->
      (len ("/"%r :: "*"%r :: x ++ NUL :: tail) < f)%nat ->
      LexAll f (st pre ("/"%r :: "*"%r :: x ++ NUL :: tail) t e)
      = Ok (t, e ++ [errorFrom pre (str "unterminated block comment")])
           (st (pre ++ "/"%r :: "*"%r :: x) (NUL :: tail) t
               (e ++ [errorFrom pre (str "unterminated block comment")]))).
Proof.
  split; [reflexivity |]. split; [| split; [| split; [| split]]].
  - intros c x Hx Hc Ho Hcl. unfold closedComment in *.
    destruct x as [| y x']; [discriminate Hx |].
    cbn [nth] in Ho, Hcl.
    rewrite blockRun_cons. change (1 >? 0) with true. cbv iota.
    destruct (Z.eqb_spec c NUL); [contradiction |].
    assert (H1 : (c =? "/"%r) && (y =? "*"%r) = false).
    { destruct (Z.eqb_spec c "/"%r) as [-> | _]; [| reflexivity].
      destruct (Z.eqb_spec y "*"%r) as [-> | _]; [| reflexivity].
      exfalso. apply Ho; reflexivity. }
    assert (H2 : (c =? "*"%r) && (y =? "/"%r) = false).
    { destruct (Z.eqb_spec c "*"%r) as [-> | _]; [| reflexivity].
      destruct (Z.eqb_spec y "/"%r) as [-> | _]; [| reflexivity].
      exfalso. apply Hcl; reflexivity. }
    rewrite H1, H2, Hx. reflexivity.
  - intros inner x Hi Hx. unfold closedComment in *.
    assert (Hrun : blockRun 2 (inner ++ x) = (inner ++ x, [], true)).
    { pose proof (blockRun_shift (len inner) inner 1 1 x (Nat.le_refl _)
                    ltac:(lia) ltac:(lia) Hi) as S.
      change (1 + 1) with 2 in S. rewrite Hx in S. exact S. }
    rewrite blockRun_cons. change (1 >? 0) with true. cbv iota.
    change ("/"%r =? NUL) with false. cbv iota.
    cbn [andb Z.eqb Pos.eqb].
    change (1 + 1) with 2. rewrite Hrun. reflexivity.
  - intros f f' pre x rest t e Hx Hf Hf'.
    destruct f as [| f]; [lia |].
    change ("/"%r :: "*"%r :: x ++ rest)
      with (("/"%r :: "*"%r :: x) ++ rest) in *.
    apply LexAll_skips; [exact Hf | exact Hf' | discriminate |].
    apply skip_block; assumption.
  - intros f pre x t e Hx Hf.
    destruct f as [| f]; [lia |].
    rewrite <- (app_nil_r ("/"%r :: "*"%r :: x)) at 1.
    apply LexAll_stop; [| reflexivity].
    rewrite app_nil_r. apply skip_block_open; assumption.
  - intros f pre x tail t e Hx Hf.
    change ("/"%r :: "*"%r :: x ++ NUL :: tail)
      with (("/"%r :: "*"%r :: x) ++ NUL :: tail) in *.
    apply LexAll_stop; [| reflexivity].
    destruct f as [| f]; [lia |].
    cbn [app skipWSAndComments]; cbv zeta. msteps. rewrite isSpace_slash.
    msteps.
    erewrite bind_eq
      by (apply blockComment_loop_spec; cbn [len app] in Hf; lia).
    rewrite (blockRun_NUL (len x) x 1 tail (Nat.le_refl _) Hx).
    cbn [blockLoopEnd]. rewrite <- app_assoc. reflexivity.
Qed.

(** * Further properties of a whole run *)

(** ** Where the tokens are *)

(** Line and column of the code point that follows the text [before]:
    lines are counted by the newlines, columns by the code points since
    the last newline, both from 1. *)
Definition lineOf (before : list rune) : Z :=
  1 + Z.of_nat (count_occ Z.eq_dec before LF).

Definition columnOf (before : list rune) : Z :=
  1 + Z.of_nat (len (takeWhile (fun r => negb (r =? LF)) (rev before))).

Lemma posAfter_explicit pre : posAfter pre = (lineOf pre, columnOf pre).
Proof.
  induction pre as [| r pre IH] using rev_ind; [reflexivity |].
  rewrite posAfter_snoc, IH. unfold step_pos, lineOf, columnOf; cbn [fst snd].
  rewrite count_occ_app, rev_app_distr. cbn [rev app takeWhile count_occ].
  destruct (Z.eqb_spec r LF) as [-> | Hr]; cbn [negb].
  - destruct (Z.eq_dec LF LF) as [_ | Hn]; [| contradiction].
    cbn [len]. f_equal; lia.
  - destruct (Z.eq_dec r LF) as [Hn | _]; [contradiction |].
    cbn [len]. f_equal; lia.
Qed.

(** The token [tok] stands for a non-empty piece of the input: its lexeme
    is that piece, its position is the position of the first code point of
    the piece, and it carries no numeric value. *)
Definition located (input : list rune) (tok : Token) : Prop :=
  exists before a after,
    input = before ++ a ++ after /\ a <> [] /\
    Lexeme tok = string_of_runes a /\
    Line tok = lineOf before /\ Column tok = columnOf before /\
    IntVal tok = None /\ FloatVal tok = None.

Lemma Run_located pre rest t e steps final :
  Run pre rest t e steps final ->
  Forall (located (pre ++ rest)) (concat (map emitted steps)).
Proof.
  induction 1 as [pre m rest' t e e' Herr Hn
                 | pre m a rest' t e ty steps final Ha HR IH
                 | pre m a rest' t e msg steps final Ha HR IH];
    cbn [map concat].
  - rewrite emitted_same. constructor.
  - rewrite emitted_more. cbn [app]. constructor.
    + exists (pre ++ m), a, rest'. unfold tokenAt; cbn.
      rewrite posAfter_explicit; cbn [fst snd].
      rewrite <- !app_assoc. auto 10.
    + rewrite <- !app_assoc in IH. exact IH.
  - rewrite emitted_same. cbn [app]. rewrite <- !app_assoc in IH. exact IH.
Qed.

Lemma LexAll_result fuel input :
  (len input < fuel)%nat ->
  let steps := LexAll_steps fuel (NewLexer input) in
  exists final,
    Run [] input [] [] steps final /\
    LexAll fuel (NewLexer input)
    = Ok (concat (map emitted steps), concat (map reported steps)) final /\
    tokens final = concat (map emitted steps) /\
    errors final = concat (map reported steps) /\
    peek 0 final = Ok NUL final /\ wf final /\ src final = input.
Proof.
  intros Hf steps. subst steps. rewrite NewLexer_st.
  destruct (LexAll_Run fuel input [] [] [] Hf) as (final & HR & HL).
  pose proof (Run_final _ _ _ _ _ _ HR) as (c & rf & Hin & Hn & Hc & Hfin).
  exists final. split; [exact HR |].
  rewrite HL, Hfin, tokens_st, errors_st. cbn [app].
  split; [reflexivity |]. split; [reflexivity |]. split; [reflexivity |].
  split; [| split; [apply wf_st |]].
  - rewrite (peek_st 0), Hn. reflexivity.
  - rewrite src_st. cbn [app]. symmetry. exact Hin.
Qed.

(** X9.  Every token that a run of [LexAll] returns stands for a non-empty
    piece of the input: its lexeme is that piece as written, its line is
    one more than the number of newlines before the piece, its column is
    one more than the number of code points between the last of these
    newlines and the piece, and its [IntVal] and [FloatVal] are [nil]. *)
Theorem tokens_located input fuel :
  (len input < fuel)%nat ->
  exists toks errs final,
    LexAll fuel (NewLexer input) = Ok (toks, errs) final /\
    Forall (fun tok =>
              exists before a after,
                input = before ++ a ++ after /\ a <> [] /\
                Lexeme tok = string_of_runes a /\
                Line tok = 1 + Z.of_nat (count_occ Z.eq_dec before LF) /\
                Column tok
                = 1 + Z.of_nat (len (takeWhile (fun r => negb (r =? LF))
                                               (rev before))) /\
                IntVal tok = None /\ FloatVal tok = None)
           toks.
Proof.
  intros Hf.
  destruct (LexAll_result fuel input Hf) as (final & HR & HL & _).
  do 3 eexists. split; [exact HL |].
  exact (Run_located _ _ _ _ _ _ HR).
Qed.

(** ** How much a run returns *)

Lemma Run_count pre rest t e steps final :
  Run pre rest t e steps final ->
  (len (concat (map emitted steps)) + len (concat (map reported steps))
   <= len rest)%nat.
Proof.
  induction 1 as [pre m rest' t e e' Herr Hn
                 | pre m a rest' t e ty steps final Ha HR IH
                 | pre m a rest' t e msg steps final Ha HR IH];
    cbn [map concat].
  - rewrite emitted_same.
    destruct Herr as [-> | (m1 & m2 & -> & _ & ->)].
    + rewrite reported_same. cbn [len app]. lia.
    + rewrite reported_more. rewrite !length_app. cbn [len app]. lia.
  - rewrite emitted_more, reported_same. rewrite !length_app in *.
    destruct a; [congruence |]. cbn [len app] in *. lia.
  - rewrite emitted_same, reported_more. rewrite !length_app in *.
    destruct a; [congruence |]. cbn [len app] in *. lia.
Qed.

(** X10.  A run of [LexAll] returns no more tokens and errors, taken
    together, than the input has code points: every token and every error
    accounts for at least one code point of its own. *)
Theorem output_bounded input fuel :
  (len input < fuel)%nat ->
  exists toks errs final,
    LexAll fuel (NewLexer input) = Ok (toks, errs) final /\
    (len toks + len errs <= len input)%nat.
Proof.
  intros Hf.
  destruct (LexAll_result fuel input Hf) as (final & HR & HL & _).
  do 3 eexists. split; [exact HL |].
  exact (Run_count _ _ _ _ _ _ HR).
Qed.

(** ** Calling [LexAll] again *)

Lemma skip_at_end f pre rest t e :
  nth 0 rest NUL = NUL ->
  skipWSAndComments f (st pre rest t e) = Ok tt (st pre rest t e).
Proof.
  intros H. destruct f; cbn [skipWSAndComments]; cbv zeta; msteps;
    rewrite H; reflexivity.
Qed.

Lemma LexAll_at_end f pre rest t e :
  nth 0 rest NUL = NUL ->
  LexAll f (st pre rest t e) = Ok (t, e) (st pre rest t e).
Proof.
  intros Hn. pose proof (LexAll_stop f pre [] rest t e e) as H.
  cbn [app] in H. rewrite app_nil_r in H.
  apply H; [apply skip_at_end; exact Hn | exact Hn].
Qed.

(** X11.  [LexAll] leaves the lexer where a second call finds nothing to
    do: called again on the same lexer, with whatever fuel, it returns the
    same tokens and the same errors and changes nothing. *)
Theorem LexAll_idempotent input fuel fuel' :
  (len input < fuel)%nat ->
  exists toks errs final,
    LexAll fuel (NewLexer input) = Ok (toks, errs) final /\
    LexAll fuel' final = Ok (toks, errs) final.
Proof.
  intros Hf. rewrite NewLexer_st.
  destruct (LexAll_Run fuel input [] [] [] Hf) as (final & HR & HL).
  pose proof (Run_final _ _ _ _ _ _ HR) as (c & rf & Hin & Hn & Hc & Hfin).
  do 3 eexists. split; [exact HL |].
  subst final. rewrite tokens_st, errors_st.
  apply LexAll_at_end. exact Hn.
Qed.

(** ** Every call of a run *)

Lemma st_inj p r t e p' r' t' e' :
  st p r t e = st p' r' t' e' -> p = p' /\ r = r' /\ t = t' /\ e = e'.
Proof.
  intros H.
  pose proof (f_equal src H) as Hs. pose proof (f_equal i H) as Hi.
  pose proof (f_equal tokens H) as Ht. pose proof (f_equal errors H) as He.
  rewrite !src_st in Hs. rewrite !i_st in Hi.
  rewrite !tokens_st in Ht. rewrite !errors_st in He.
  assert (Hl : len p = len p') by lia.
  assert (Hp : p = p').
  { rewrite <- (firstn_exact p r), Hs, Hl. apply firstn_exact. }
  subst p'. apply app_inv_head in Hs. auto.
Qed.

Lemma dispatchRun_app rest a r res :
  nth 0 rest NUL <> NUL -> dispatchRun rest = (a, r, res) ->
  rest = a ++ r /\ a <> [].
Proof.
  intros Hn E.
  destruct (dispatch_scanned (S (len rest)) [] rest [] [] (Nat.lt_succ_diag_r _) Hn)
    as (lx' & (a' & r' & Hr & Ha & Hres) & Hd).
  rewrite dispatch_spec, E in Hd by (first [lia | exact Hn]).
  injection Hd as Hd. cbn [after] in Hd.
  destruct res as [ty | msg], Hres as [(ty' & Hlx) | (msg' & Hlx)];
    injection Hlx as Hlx; rewrite Hlx in Hd;
    apply st_inj in Hd; destruct Hd as (Hp & -> & Ht & He);
    cbn [app] in Hp; subst a'; auto.
Qed.

Lemma LexAll_steps_Forall_skip (P : step -> Prop) :
  (forall f pre m rest' t e e1,
      (len (m ++ rest') < f)%nat ->
      skipWSAndComments f (st pre (m ++ rest') t e)
      = Ok tt (st (pre ++ m) rest' t e1) ->
      skipErrors pre m rest' e e1 -> nth 0 rest' NUL = NUL ->
      P (mkStep (st pre (m ++ rest') t e) (st (pre ++ m) rest' t e1)
                (st (pre ++ m) rest' t e1))) ->
  (forall pre m a r res t e,
      nth 0 (a ++ r) NUL <> NUL -> a <> [] ->
      dispatchRun (a ++ r) = (a, r, res) ->
      P (mkStep (st pre (m ++ a ++ r) t e) (st (pre ++ m) (a ++ r) t e)
                (after (pre ++ m) t e (a, r, res)))) ->
  forall fuel rest pre t e,
    (len rest < fuel)%nat ->
    Forall P (LexAll_steps fuel (st pre rest t e)).
Proof.
  intros Hstop Hscan.
  induction fuel as [| f IH]; intros rest pre t e Hf; [lia |].
  cbn [LexAll_steps].
  destruct (skipWSAndComments_skipped (S f) rest pre t e Hf)
    as (m & rest1 & -> & Hskip).
  assert (Hend : forall e1,
            skipErrors pre m rest1 e e1 -> nth 0 rest1 NUL = NUL ->
            skipWSAndComments (S f) (st pre (m ++ rest1) t e)
            = Ok tt (st (pre ++ m) rest1 t e1) ->
            Forall P
              match skipWSAndComments (S f) (st pre (m ++ rest1) t e) with
              | Ok _ lx1 =>
                  match dispatch (S f) lx1 with
                  | Ok more lx2 =>
                      mkStep (st pre (m ++ rest1) t e) lx1 lx2
                      :: (if more then LexAll_steps f lx2 else [])
                  | _ => []
                  end
              | _ => []
              end).
  { intros e1 He1 Hn Heq. rewrite Heq, dispatch_stop by exact Hn.
    constructor; [apply (Hstop (S f)); assumption | constructor]. }
  destruct Hskip as [Heq | (m1 & m2 & Hm & Hn & Heq)].
  2:{ apply (Hend _ (or_intror (ex_intro _ m1 (ex_intro _ m2
               (conj Hm (conj Hn eq_refl))))) Hn Heq). }
  destruct (Z.eq_dec (nth 0 rest1 NUL) NUL) as [Hn | Hn].
  { apply (Hend e (or_introl eq_refl) Hn Heq). }
  rewrite length_app in Hf.
  rewrite Heq, dispatch_spec by (first [lia | exact Hn]).
  destruct (dispatchRun rest1) as [[a r] res] eqn:E.
  destruct (dispatchRun_app rest1 a r res Hn E) as (-> & Ha).
  constructor; [apply Hscan; assumption |].
  assert (Hlen : (len r < f)%nat).
  { rewrite length_app in Hf. destruct a; [congruence |]. cbn [len] in Hf. lia. }
  destruct res as [ty | msg]; cbn [after]; rewrite <- app_assoc;
    apply IH; exact Hlen.
Qed.

Lemma LexAll_steps_Forall (P : step -> Prop) :
  (forall pre m rest' t e e1,
      skipErrors pre m rest' e e1 -> nth 0 rest' NUL = NUL ->
      P (mkStep (st pre (m ++ rest') t e) (st (pre ++ m) rest' t e1)
                (st (pre ++ m) rest' t e1))) ->
  (forall pre m a r res t e,
      nth 0 (a ++ r) NUL <> NUL -> a <> [] ->
      dispatchRun (a ++ r) = (a, r, res) ->
      P (mkStep (st pre (m ++ a ++ r) t e) (st (pre ++ m) (a ++ r) t e)
                (after (pre ++ m) t e (a, r, res)))) ->
  forall fuel rest pre t e,
    (len rest < fuel)%nat ->
    Forall P (LexAll_steps fuel (st pre rest t e)).
Proof.
  intros Hstop Hscan. apply LexAll_steps_Forall_skip; [| exact Hscan].
  intros f pre m rest' t e e1 _ _. apply Hstop.
Qed.

Lemma Forall_concat_map {A B} (f : A -> list B) (Q : B -> Prop) l :
  Forall (fun a => Forall Q (f a)) l -> Forall Q (concat (map f l)).
Proof.
  induction 1 as [| a l Ha _ IH]; cbn [map concat]; [constructor |].
  apply Forall_app. auto.
Qed.

(** ** The errors of a run *)

(** The messages of the lexer, the one about an invalid character apart. *)
Definition messages : list gostring :=
  [ str "unterminated block comment";
    str "invalid hex literal"; str "invalid binary literal";
    str "invalid octal literal"; str "invalid float exponent";
    str "illegal underscore placement in number";
    str "unterminated string literal"; str "unterminated string escape";
    str "unterminated raw string";
    str "unterminated char escape"; str "empty or invalid char literal";
    str "unterminated char literal" ].

Definition knownMessage (msg : gostring) : Prop :=
  In msg messages \/ exists ch, msg = str "invalid character " ++ QuoteRune ch.

Lemma dispatchRun_Fail rest a r msg :
  dispatchRun rest = (a, r, Fail msg) -> knownMessage msg.
Proof.
  unfold dispatchRun; cbv zeta.
  destruct (isIdentStart (nth 0 rest NUL)); [discriminate |].
  destruct (IsDigit (nth 0 rest NUL)).
  { intros H. pose proof (numberRun_result _ _ _ _ H) as R. cbv beta iota in R.
    left. unfold messages. cbn [In] in *. tauto. }
  destruct (nth 0 rest NUL =? DQUOTE).
  { unfold stringAttempt. destruct (stringRun (skipn 1 rest)) as [[m r'] k].
    destruct k; cbn [stringResult]; intros H; [discriminate H | |];
      injection H as _ _ <-; left; unfold messages; cbn [In]; auto 12. }
  destruct (nth 0 rest NUL =? "`"%r).
  { unfold rawAttempt. destruct (rawRun (skipn 1 rest)) as [[m r'] k].
    destruct k; intros H; [discriminate H |].
    injection H as _ _ <-. left. unfold messages. cbn [In]. auto 12. }
  destruct (nth 0 rest NUL =? "'"%r).
  { unfold charRun, charClose; cbv zeta.
    repeat match goal with
           | |- context [if ?b then _ else _] => destruct b
           end;
      intros H; try discriminate H; injection H as _ _ <-;
      left; unfold messages; cbn [In]; auto 14. }
  unfold symbolRun. destruct (longestMatch rest) as [[lex ty] |];
    intros H; [discriminate H |].
  injection H as _ _ <-. right. eexists. reflexivity.
Qed.

(** X12.  Every error that a run of [LexAll] returns reads [lexical error at
    L:C: message], where L and C are the line and column of a place of the
    input, counted as for the tokens, and the message is one of the twelve
    fixed messages of the lexer or [invalid character] followed by the
    quoted code point.  The message [invalid numeric literal] of the
    source never appears. *)
Theorem error_messages input fuel :
  (len input < fuel)%nat ->
  exists toks errs final,
    LexAll fuel (NewLexer input) = Ok (toks, errs) final /\
    Forall (fun err =>
              exists before after msg,
                input = before ++ after /\
                err = errorString (lineOf before) (columnOf before) msg /\
                (In msg messages \/
                 exists ch, msg = str "invalid character " ++ QuoteRune ch))
           errs.
Proof.
  intros Hf.
  destruct (LexAll_result fuel input Hf) as (final & HR & HL & _).
  do 3 eexists. split; [exact HL |].
  apply Forall_concat_map.
  pose proof (Run_stepOK _ _ _ _ _ _ HR) as Hok. cbn [app] in Hok.
  assert (Hall : Forall
            (fun s => Forall
               (fun err =>
                  exists before after msg,
                    src (atCall s) = before ++ after /\
                    err = errorString (lineOf before) (columnOf before) msg /\
                    knownMessage msg) (reported s))
            (LexAll_steps fuel (NewLexer input))).
  { rewrite NewLexer_st. apply LexAll_steps_Forall; [| | exact Hf].
    - intros pre m rest' t e e1 [-> | (m1 & m2 & -> & _ & ->)] Hn.
      + rewrite reported_same. constructor.
      + rewrite reported_more. constructor; [| constructor].
        exists (pre ++ m1), ("/"%r :: "*"%r :: m2 ++ rest'),
          (str "unterminated block comment").
        cbn [atCall]. rewrite src_st. unfold errorFrom.
        rewrite posAfter_explicit; cbn [fst snd].
        rewrite <- !app_assoc. cbn [app].
        split; [reflexivity |]. split; [reflexivity |].
        left. left. reflexivity.
    - intros pre m a r res t e Hn Ha E.
      destruct res as [ty | msg]; cbn [after].
      + rewrite reported_same. constructor.
      + rewrite reported_more. constructor; [| constructor].
        exists (pre ++ m), (a ++ r), msg.
        cbn [atCall]. rewrite src_st. unfold errorFrom.
        rewrite posAfter_explicit; cbn [fst snd].
        rewrite <- !app_assoc.
        split; [reflexivity |]. split; [reflexivity |].
        exact (dispatchRun_Fail _ _ _ _ E). }
  clear HL HR.
  induction Hall as [| s steps Hs _ IH]; [constructor |].
  inversion Hok as [| ? ? Hsrc Hok']; subst.
  constructor; [| exact (IH Hok')].
  destruct Hsrc as (Hsrc & _). rewrite Hsrc in Hs. exact Hs.
Qed.

(** ** The lexeme of every kind of token *)

Definition wordKind (ty : TokenType) : bool :=
  match ty with
  | KW_PKG | KW_IMP | KW_DEF | KW_VAR | KW_CONS | KW_TYPE | KW_STRUCT
  | KW_INTERFACE | KW_MAPPING | KW_CHANNEL | KW_J | KW_SELECT | KW_LATER
  | KW_RET | KW_IF | KW_ELSE | KW_SWITCH | KW_CASE | KW_FALL | KW_FR
  | KW_RANGE | KW_BREAK | KW_CONTINUE | KW_JOTO | KW_DFT | KW_PANIC
  | KW_RECOVER | IDENT | TYPE_NAME => true
  | _ => false
  end.

(** A word: an identifier-start code point, then identifier-part code
    points; its kind is the one that the tables give to it. *)
Definition wordShape (ty : TokenType) (lex : gostring) : Prop :=
  isIdentStart (nth 0 lex NUL) = true /\
  Forall (fun r => isIdentPart r = true) lex /\
  ty = identKind lex.

(** A run of digits and underscores. *)
Definition digitsRun (l : list rune) : Prop :=
  Forall (fun r => decPart r = true) l.

(** Nothing, or a point, a digit, and digits and underscores. *)
Definition fracShape (frac : list rune) : Prop :=
  frac = [] \/
  exists d ds, frac = "."%r :: d :: ds /\ IsDigit d = true /\ digitsRun ds.

(** Nothing, or [e] or [E], an optional sign, a digit, and digits and
    underscores. *)
Definition expoShape (expo : list rune) : Prop :=
  expo = [] \/
  exists mark sign d ds,
    expo = mark :: sign ++ d :: ds /\
    (mark = "e"%r \/ mark = "E"%r) /\
    (sign = [] \/ sign = ["+"%r] \/ sign = ["-"%r]) /\
    IsDigit d = true /\ digitsRun ds.

(** A decimal literal: integer part, fraction and exponent; it is a float
    exactly when it has a fraction or an exponent. *)
Definition decimalShape (isFloat : bool) (lex : gostring) : Prop :=
  exists int frac expo,
    lex = int ++ frac ++ expo /\
    digitsRun int /\ fracShape frac /\ expoShape expo /\
    (isFloat = false -> frac = [] /\ expo = []) /\
    (isFloat = true -> frac <> [] \/ expo <> []) /\
    validUnderscores lex = true.

(** A literal with a base prefix: [0], the letter of the base, and a
    non-empty body of code points that the digit loop accepts. *)
Definition prefixedShape (lex : gostring) : Prop :=
  exists base body,
    lex = "0"%r :: base :: body /\ In base (str "xXbBoO") /\ body <> [] /\
    Forall (fun r => isBaseDigit base r = true) body /\
    validUnderscores body = true.

(** A double-quoted string without newline and U+0000, or a raw string. *)
Definition stringShape (lex : gostring) : Prop :=
  (exists body,
      lex = DQUOTE :: body ++ [DQUOTE] /\ ~ In LF body /\ ~ In NUL body)
  \/ (exists body,
         lex = "`"%r :: body ++ ["`"%r] /\ ~ In "`"%r body /\ ~ In NUL body).

Definition charShape (lex : gostring) : Prop :=
  (exists c, lex = ["'"%r; c; "'"%r] /\
             c <> "\"%r /\ c <> "'"%r /\ c <> LF /\ c <> NUL)
  \/ (exists c, lex = ["'"%r; "\"%r; c; "'"%r] /\ c <> LF /\ c <> NUL).

(** The lexemes of each kind of token. *)
Definition lexemeShape (ty : TokenType) (lex : gostring) : Prop :=
  match ty with
  | INT_LIT =>
      IsDigit (nth 0 lex NUL) = true /\
      (decimalShape false lex \/ prefixedShape lex)
  | FLOAT_LIT => IsDigit (nth 0 lex NUL) = true /\ decimalShape true lex
  | STRING_LIT => stringShape lex
  | CHAR_LIT => charShape lex
  | _ => if wordKind ty then wordShape ty lex else In (lex, ty) operators
  end.

Lemma takeWhile_Forall p l : Forall (fun r => p r = true) (takeWhile p l).
Proof.
  induction l as [| r l IH]; cbn; [constructor |].
  destruct (p r) eqn:E; constructor; assumption.
Qed.

Lemma identKind_word lex : wordKind (identKind lex) = true.
Proof.
  unfold identKind.
  destruct (keywords_lookup (strings_ToLower lex)) as [k |] eqn:E.
  - apply keywords_lookup_Some in E. unfold keywords in E. cbn [In] in E.
    repeat (destruct E as [E | E]; [injection E as _ <-; reflexivity |]).
    destruct E.
  - destruct (typeNames_mem lex); reflexivity.
Qed.

Lemma lexemeShape_word ty lex :
  wordKind ty = true -> wordShape ty lex -> lexemeShape ty lex.
Proof. destruct ty; intros H; try discriminate H; exact (fun W => W). Qed.

Lemma lexemeShape_operator ty lex :
  In (lex, ty) operators -> lexemeShape ty lex.
Proof.
  intros H. pose proof H as H'. unfold operators in H'. cbn [In] in H'.
  repeat (destruct H' as [H' | H']; [injection H' as <- <-; exact H |]).
  destruct H'.
Qed.

Lemma decimalResult_Emit m isFloat ty :
  decimalResult m isFloat = Emit ty ->
  validUnderscores (string_of_runes m) = true /\
  ty = if isFloat || ContainsAny (string_of_runes m) (str ".eE")
       then FLOAT_LIT else INT_LIT.
Proof.
  unfold decimalResult.
  destruct (validUnderscores (string_of_runes m)); cbn [negb];
    [| discriminate].
  destruct (isFloat || ContainsAny (string_of_runes m) (str ".eE"));
    intros H; injection H as <-; auto.
Qed.

Lemma decPart_plain r :
  decPart r = true -> existsb (Z.eqb (fixRune r)) (str ".eE") = false.
Proof.
  unfold decPart, IsDigit, fixRune. intros H.
  change (str ".eE") with ["."%r; "e"%r; "E"%r].
  destruct (ValidRune r); [| reflexivity].
  cbn [existsb].
  destruct (Z.eqb_spec r 46) as [-> | _]; [discriminate H |].
  destruct (Z.eqb_spec r 101) as [-> | _]; [discriminate H |].
  destruct (Z.eqb_spec r 69) as [-> | _]; [discriminate H |].
  reflexivity.
Qed.

Lemma digitsRun_plain l :
  digitsRun l -> ContainsAny (string_of_runes l) (str ".eE") = false.
Proof.
  unfold digitsRun, ContainsAny, string_of_runes.
  induction 1 as [| r l Hr _ IH]; [reflexivity |].
  cbn [map existsb]. rewrite (decPart_plain r Hr), IH. reflexivity.
Qed.

Lemma IsDigit_NUL : IsDigit NUL = false.
Proof. reflexivity. Qed.

Lemma digit_decPart d : IsDigit d = true -> decPart d = true.
Proof. unfold decPart. intros ->. reflexivity. Qed.

(** The digits of an exponent or of a fraction: a digit comes first. *)
Lemma takeWhile_digit r4 :
  IsDigit (nth 0 r4 NUL) = true ->
  exists d ds, takeWhile decPart r4 = d :: ds /\ IsDigit d = true /\
               digitsRun ds.
Proof.
  destruct r4 as [| d r4']; cbn [nth]; intros H.
  - rewrite IsDigit_NUL in H. discriminate H.
  - exists d, (takeWhile decPart r4'). cbn [takeWhile].
    rewrite (digit_decPart d H).
    split; [reflexivity |]. split; [exact H | apply takeWhile_Forall].
Qed.

Lemma exponentRun_shape m r2 isFloat a r ty :
  exponentRun m r2 isFloat = (a, r, Emit ty) ->
  validUnderscores (string_of_runes a) = true /\
  exists expo,
    a = m ++ expo /\ expoShape expo /\
    ((expo = [] /\
      ty = if isFloat || ContainsAny (string_of_runes m) (str ".eE")
           then FLOAT_LIT else INT_LIT)
     \/ (expo <> [] /\ ty = FLOAT_LIT)).
Proof.
  unfold exponentRun.
  destruct ((nth 0 r2 NUL =? "e"%r) || (nth 0 r2 NUL =? "E"%r)) eqn:He.
  - cbv zeta.
    destruct r2 as [| mk r2']; [discriminate He |]. cbn [nth] in He.
    cbn [skipn firstn app].
    assert (Hmk : mk = "e"%r \/ mk = "E"%r).
    { apply orb_true_iff in He. destruct He as [He | He];
        apply Z.eqb_eq in He; auto. }
    destruct ((nth 0 r2' NUL =? "+"%r) || (nth 0 r2' NUL =? "-"%r)) eqn:Hs.
    + destruct r2' as [| sg r4]; [discriminate Hs |]. cbn [nth] in Hs.
      cbn [skipn firstn app].
      destruct (IsDigit (nth 0 r4 NUL)) eqn:Hd; cbn [negb];
        intros H; [| discriminate H].
      injection H as <- <- Hres.
      apply decimalResult_Emit in Hres. destruct Hres as (Hv & ->).
      split; [exact Hv |].
      destruct (takeWhile_digit r4 Hd) as (d & ds & Ht & Hdd & Hds).
      exists (mk :: sg :: takeWhile decPart r4).
      split; [reflexivity |]. split.
      * right. exists mk, [sg], d, ds. rewrite Ht.
        split; [reflexivity |]. split; [exact Hmk |]. split; [| auto].
        apply orb_true_iff in Hs. destruct Hs as [Hs | Hs];
          apply Z.eqb_eq in Hs; subst sg; auto.
      * right. split; [discriminate | reflexivity].
    + destruct (IsDigit (nth 0 r2' NUL)) eqn:Hd; cbn [negb];
        intros H; [| discriminate H].
      cbn [app] in H. injection H as <- <- Hres.
      apply decimalResult_Emit in Hres. destruct Hres as (Hv & ->).
      split; [exact Hv |].
      destruct (takeWhile_digit r2' Hd) as (d & ds & Ht & Hdd & Hds).
      exists (mk :: takeWhile decPart r2').
      split; [reflexivity |]. split.
      * right. exists mk, [], d, ds. rewrite Ht. cbn [app]. auto 10.
      * right. split; [discriminate | reflexivity].
  - intros H. injection H as <- <- Hres.
    apply decimalResult_Emit in Hres. destruct Hres as (Hv & ->).
    split; [exact Hv |].
    exists []. rewrite app_nil_r. split; [reflexivity |].
    split; [left; reflexivity |]. left. auto.
Qed.

Lemma string_of_runes_app a b :
  string_of_runes (a ++ b) = string_of_runes a ++ string_of_runes b.
Proof. apply map_app. Qed.

Lemma numberRun_shape rest a r ty :
  numberRun rest = (a, r, Emit ty) -> string_of_runes a = a ->
  (ty = INT_LIT /\ (decimalShape false a \/ prefixedShape a))
  \/ (ty = FLOAT_LIT /\ decimalShape true a).
Proof.
  unfold numberRun. destruct (hasBasePrefix rest) eqn:Hp.
  - destruct (hasBasePrefix_cons rest Hp) as (c1 & tl & -> & Hc1).
    cbn [nth skipn firstn app].
    set (body := takeWhile (isBaseDigit c1) tl).
    destruct ((Z.of_nat (len body) =? 0)
              || negb (validUnderscores (string_of_runes body))) eqn:Hbad;
      intros H Hv; [discriminate H |].
    injection H as <- _ <-. left. split; [reflexivity |]. right.
    apply orb_false_iff in Hbad. destruct Hbad as (Hlen & Hval).
    apply negb_false_iff in Hval.
    apply (f_equal (skipn 2)) in Hv. unfold string_of_runes in Hv, Hval.
    cbn [skipn map] in Hv. rewrite Hv in Hval.
    exists c1, body. split; [reflexivity |]. split.
    { unfold hasBasePrefix in Hp. cbn [nth] in Hp.
      apply andb_true_iff in Hp. destruct Hp as (_ & Hp).
      repeat (apply orb_true_iff in Hp; destruct Hp as [Hp | Hp]);
        apply Z.eqb_eq in Hp; subst c1; cbn; auto 10. }
    split.
    { destruct body; [discriminate Hlen | discriminate]. }
    split; [apply takeWhile_Forall | exact Hval].
  - cbv zeta.
    set (int := takeWhile decPart rest).
    set (r1 := dropWhile decPart rest).
    destruct ((nth 0 r1 NUL =? "."%r) && IsDigit (nth 1 r1 NUL)) eqn:Hf.
    + intros H Hv. apply exponentRun_shape in H.
      destruct H as (Hval & expo & -> & He & Hty).
      rewrite Hv in Hval.
      assert (Hfrac : exists d ds,
                 firstn 1 r1 ++ takeWhile decPart (skipn 1 r1)
                 = "."%r :: d :: ds /\ IsDigit d = true /\ digitsRun ds).
      { apply andb_true_iff in Hf. destruct Hf as (Hdot & Hd).
        destruct r1 as [| p r1']; [discriminate Hdot |].
        cbn [nth] in Hdot, Hd. apply Z.eqb_eq in Hdot. subst p.
        cbn [firstn skipn app].
        destruct (takeWhile_digit r1' Hd) as (d & ds & Ht & Hdd & Hds).
        exists d, ds. rewrite Ht. auto. }
      destruct Hfrac as (d & ds & Hfr & Hdd & Hds).
      right. split.
      { destruct Hty as [(_ & ->) | (_ & ->)]; reflexivity. }
      exists int, (firstn 1 r1 ++ takeWhile decPart (skipn 1 r1)), expo.
      rewrite <- app_assoc in Hval |- *.
      split; [reflexivity |]. split; [apply takeWhile_Forall |].
      split; [right; exists d, ds; auto |]. split; [exact He |].
      split; [discriminate |]. split; [| exact Hval].
      intros _. left. rewrite Hfr. discriminate.
    + intros H Hv. apply exponentRun_shape in H.
      destruct H as (Hval & expo & -> & He & Hty).
      rewrite Hv in Hval. rewrite app_nil_r in *.
      assert (Hint : digitsRun int) by apply takeWhile_Forall.
      destruct Hty as [(-> & ->) | (Hne & ->)].
      * rewrite (digitsRun_plain int Hint). cbn [orb].
        left. split; [reflexivity |]. left.
        exists int, [], []. rewrite !app_nil_r in *.
        split; [reflexivity |]. split; [exact Hint |].
        split; [left; reflexivity |]. split; [left; reflexivity |].
        split; [auto |]. split; [discriminate | exact Hval].
      * right. split; [reflexivity |].
        exists int, [], expo. cbn [app].
        split; [reflexivity |]. split; [exact Hint |].
        split; [left; reflexivity |]. split; [exact He |].
        split; [discriminate |]. split; [auto | exact Hval].
Qed.

Lemma stringRun_closed n : forall rest m r,
  (len rest <= n)%nat ->
  stringRun rest = (m, r, StrClosed) ->
  exists body, m = body ++ [DQUOTE] /\ ~ In LF body /\ ~ In NUL body.
Proof.
  induction n as [| n IH]; intros rest m r Hn.
  { destruct rest; [discriminate | cbn in Hn; lia]. }
  destruct rest as [| c rs]; [discriminate |]. cbn [stringRun].
  destruct (Z.eqb_spec c NUL) as [-> | Hc0]; [discriminate |].
  destruct (Z.eqb_spec c LF) as [-> | Hcn]; [discriminate |]. cbn [orb].
  destruct (Z.eqb_spec c "\"%r) as [-> | Hbs].
  - destruct rs as [| d rs']; [discriminate |].
    destruct (Z.eqb_spec d NUL) as [-> | Hd0]; [discriminate |].
    destruct (Z.eqb_spec d LF) as [-> | Hdn]; [discriminate |]. cbn [orb].
    destruct (stringRun rs') as [[m' r'] k] eqn:E.
    intros H. injection H as <- <- ->.
    destruct (IH rs' m' r' ltac:(cbn in Hn; lia) E) as (body & -> & H1 & H0).
    exists ("\"%r :: d :: body). split; [reflexivity |].
    split; intros [H | [H | H]]; try discriminate H; congruence.
  - destruct (Z.eqb_spec c DQUOTE) as [-> | Hq].
    + intros H. injection H as <- <-. exists []. auto.
    + destruct (stringRun rs) as [[m' r'] k] eqn:E.
      intros H. injection H as <- <- ->.
      destruct (IH rs m' r' ltac:(cbn in Hn; lia) E) as (body & -> & H1 & H0).
      exists (c :: body). split; [reflexivity |].
      split; intros [H | H]; congruence.
Qed.

Lemma rawRun_true rest : forall m r,
  rawRun rest = (m, r, true) ->
  exists body, m = body ++ ["`"%r] /\ ~ In "`"%r body /\ ~ In NUL body.
Proof.
  induction rest as [| c rs IH]; intros m r; [discriminate |].
  cbn [rawRun].
  destruct (Z.eqb_spec c NUL) as [-> | Hc0]; [discriminate |].
  destruct (Z.eqb_spec c "`"%r) as [-> | Hq].
  - intros H. injection H as <- <-. exists []. auto.
  - destruct (rawRun rs) as [[m' r'] k] eqn:E.
    intros H. injection H as <- <- ->.
    destruct (IH m' r' eq_refl) as (body & -> & H1 & H0).
    exists (c :: body). split; [reflexivity |].
    split; intros [H | H]; congruence.
Qed.

Lemma charRun_Emit rest a r ty :
  charRun "'"%r rest = (a, r, Emit ty) -> ty = CHAR_LIT /\ charShape a.
Proof.
  unfold charRun, charClose, charShape; cbv zeta.
  destruct rest as [| x [| y [| z rest]]]; nsimp;
    repeat (repeat eqb_known; nsimp; try eqb_case);
    intros H; try discriminate H; injection H as <- <- <-;
    (split; [reflexivity |]);
    first [ left; eexists; split; [reflexivity |]; solve [auto]
          | right; eexists; split; [reflexivity |]; solve [auto] ].
Qed.

Lemma nth0_cons (rest : list rune) c :
  nth 0 rest NUL = c -> c <> NUL -> exists rs, rest = c :: rs.
Proof.
  destruct rest as [| x rs]; cbn [nth]; intros H Hc; [congruence |].
  subst x. eauto.
Qed.

Lemma dispatchRun_Emit rest a r ty :
  dispatchRun rest = (a, r, Emit ty) -> string_of_runes a = a ->
  lexemeShape ty a.
Proof.
  unfold dispatchRun; cbv zeta.
  destruct (isIdentStart (nth 0 rest NUL)) eqn:Hs.
  { intros H Hv. injection H as <- _ <-. rewrite Hv.
    apply lexemeShape_word; [apply identKind_word |].
    split; [| split; [apply takeWhile_Forall | reflexivity]].
    destruct rest as [| c rs]; [discriminate Hs |].
    cbn [nth] in Hs. cbn [takeWhile].
    rewrite (isIdentStart_Part c Hs). exact Hs. }
  destruct (IsDigit (nth 0 rest NUL)) eqn:Hd.
  { intros H Hv.
    destruct (numberRun_app rest) as (m & rest' & res & Hrun & Hr & Hm & _).
    rewrite H in Hrun. injection Hrun as <- <- <-.
    assert (Hfirst : IsDigit (nth 0 a NUL) = true).
    { specialize (Hm Hd). rewrite Hr in Hd.
      destruct a; [congruence | exact Hd]. }
    destruct (numberRun_shape rest a r ty H Hv) as [(-> & S) | (-> & S)];
      cbn [lexemeShape]; auto. }
  destruct (Z.eqb_spec (nth 0 rest NUL) DQUOTE) as [Hq | _].
  { destruct (nth0_cons rest DQUOTE Hq ltac:(discriminate)) as (rs & ->).
    cbn [nth skipn]. unfold stringAttempt.
    destruct (stringRun rs) as [[m r'] k] eqn:E.
    destruct k; cbn [stringResult]; intros H Hv; try discriminate H.
    injection H as <- <- <-.
    destruct (stringRun_closed (len rs) rs m r' (Nat.le_refl _) E)
      as (body & -> & H1 & H0).
    left. exists body. auto. }
  destruct (Z.eqb_spec (nth 0 rest NUL) "`"%r) as [Hq | _].
  { destruct (nth0_cons rest "`"%r Hq ltac:(discriminate)) as (rs & ->).
    cbn [nth skipn]. unfold rawAttempt.
    destruct (rawRun rs) as [[m r'] k] eqn:E.
    destruct k; intros H Hv; try discriminate H.
    injection H as <- <- <-.
    destruct (rawRun_true rs m r' E) as (body & -> & H1 & H0).
    right. exists body. auto. }
  destruct (Z.eqb_spec (nth 0 rest NUL) "'"%r) as [Hq | _].
  { rewrite Hq. intros H Hv. apply charRun_Emit in H.
    destruct H as (-> & S). exact S. }
  unfold symbolRun, longestMatch.
  destruct (longestOf operators rest) as [[lex ty'] |] eqn:E;
    intros H Hv; [| discriminate H].
  injection H as <- _ <-.
  apply lexemeShape_operator. apply (longestOf_Some _ _ _ _ E).
Qed.

(** X13.  On an input of valid code points, the lexeme of every token that
    a run of [LexAll] returns has the shape of its kind: a word, with the
    kind that the keyword and type-name tables give to it; a decimal
    integer or a base-prefixed integer; a float with a fraction or an
    exponent; a double-quoted string without newline, or a raw string; a
    character literal of one code point or of one backslash pair; or the
    spelling that the table of operators gives for the kind.  Numbers obey
    the underscore rule, and an integer without prefix holds digits and
    underscores only. *)
Theorem token_shapes input fuel :
  (len input < fuel)%nat ->
  Forall (fun r => ValidRune r = true) input ->
  exists toks errs final,
    LexAll fuel (NewLexer input) = Ok (toks, errs) final /\
    Forall (fun tok => lexemeShape (Type_ tok) (Lexeme tok)) toks.
Proof.
  intros Hf Hvalid.
  destruct (LexAll_result fuel input Hf) as (final & HR & HL & _).
  do 3 eexists. split; [exact HL |].
  apply Forall_concat_map.
  pose proof (Run_stepOK _ _ _ _ _ _ HR) as Hok. cbn [app] in Hok.
  assert (Hall : Forall
            (fun s =>
               Forall (fun r => ValidRune r = true) (src (atCall s)) ->
               Forall (fun tok => lexemeShape (Type_ tok) (Lexeme tok))
                      (emitted s))
            (LexAll_steps fuel (NewLexer input))).
  { rewrite NewLexer_st. apply LexAll_steps_Forall; [| | exact Hf].
    - intros pre m rest' t e e1 _ _ _. rewrite emitted_same. constructor.
    - intros pre m a r res t e Hn Ha E. cbn [atCall]. rewrite src_st.
      intros Hv.
      destruct res as [ty | msg]; cbn [after].
      + rewrite emitted_more. constructor; [| constructor].
        unfold tokenAt; cbn [Type_ Lexeme].
        assert (Hva : string_of_runes a = a).
        { apply string_of_runes_valid.
          apply Forall_app in Hv. destruct Hv as (_ & Hv).
          apply Forall_app in Hv. destruct Hv as (_ & Hv).
          apply Forall_app in Hv. destruct Hv as (Hv & _). exact Hv. }
        rewrite Hva. exact (dispatchRun_Emit _ _ _ _ E Hva).
      + rewrite emitted_same. constructor. }
  clear HL HR.
  induction Hall as [| s steps Hs _ IH]; [constructor |].
  inversion Hok as [| ? ? Hsrc Hok']; subst.
  constructor; [| exact (IH Hok')].
  destruct Hsrc as (Hsrc & _). apply Hs. rewrite Hsrc. exact Hvalid.
Qed.

(** ** What the skipper consumes *)

(** [Trivia rest' m]: the text [m], in front of the remaining input
    [rest'], is made of white space, of line comments with the newline or
    U+0000 that ends them (the last one may be cut short by the end of the
    input), and of block comments that are closed. *)
Inductive Trivia (rest' : list rune) : list rune -> Prop :=
| Trivia_nil : Trivia rest' []
| Trivia_space c m :
    isSpace c = true -> Trivia rest' m -> Trivia rest' (c :: m)
| Trivia_line body c m :
    ~ In LF body -> ~ In NUL body -> c = LF \/ c = NUL ->
    Trivia rest' m -> Trivia rest' ("/"%r :: "/"%r :: body ++ c :: m)
| Trivia_line_end body :
    ~ In LF body -> ~ In NUL body -> rest' = [] ->
    Trivia rest' ("/"%r :: "/"%r :: body)
| Trivia_block x m :
    closedComment x -> Trivia rest' m ->
    Trivia rest' ("/"%r :: "*"%r :: x ++ m).

(** Where the skipper stops: not at white space, not at a comment. *)
Definition startsTrivia (rest : list rune) : bool :=
  isSpace (nth 0 rest NUL)
  || ((nth 0 rest NUL =? "/"%r)
      && ((nth 1 rest NUL =? "/"%r) || (nth 1 rest NUL =? "*"%r))).

Lemma blockRun_closed_prefix n : forall rest d m r,
  (len rest <= n)%nat ->
  blockRun d rest = (m, r, true) -> blockRun d m = (m, [], true).
Proof.
  induction n as [| n IH]; intros rest d m r Hn Hrun.
  - destruct rest; [| cbn in Hn; lia]. cbn [blockRun] in Hrun.
    destruct (d >? 0) eqn:Hd; [discriminate Hrun |].
    injection Hrun as <- <-. cbn [blockRun]. rewrite Hd. reflexivity.
  - destruct rest as [| c rs].
    { cbn [blockRun] in Hrun. destruct (d >? 0) eqn:Hd; [discriminate Hrun |].
      injection Hrun as <- <-. cbn [blockRun]. rewrite Hd. reflexivity. }
    rewrite blockRun_cons in Hrun.
    destruct (d >? 0) eqn:Hd.
    2:{ injection Hrun as <- <-. cbn [blockRun]. rewrite Hd. reflexivity. }
    destruct (c =? NUL) eqn:Hc; [discriminate Hrun |].
    assert (Hone :
              (let '(m, r, k) := blockRun d rs in (c :: m, r, k)) = (m, r, true) ->
              (forall x rs', rs = x :: rs' ->
                 (c =? "/"%r) && (x =? "*"%r) = false /\
                 (c =? "*"%r) && (x =? "/"%r) = false) ->
              blockRun d m = (m, [], true)).
    { intros H Hplain. destruct (blockRun d rs) as [[m' r'] k] eqn:E.
      injection H as <- <- ->.
      pose proof (IH rs d m' r' ltac:(cbn in Hn; lia) E) as Hm'.
      pose proof (blockRun_len _ _ _ _ _ E) as Hsplit.
      rewrite blockRun_cons, Hd, Hc.
      destruct m' as [| x m''].
      { cbn [blockRun] in Hm'. rewrite Hd in Hm'. discriminate Hm'. }
      destruct rs as [| x0 rs']; [discriminate Hsplit |].
      injection Hsplit as <- _.
      destruct (Hplain x0 rs' eq_refl) as (-> & ->).
      rewrite Hm'. reflexivity. }
    destruct rs as [| x rs'].
    { apply Hone; [exact Hrun | intros ? ? H; discriminate H]. }
    destruct ((c =? "/"%r) && (x =? "*"%r)) eqn:Ho.
    { destruct (blockRun (d + 1) rs') as [[m' r'] k] eqn:E.
      injection Hrun as <- <- ->.
      pose proof (IH rs' (d + 1) m' r' ltac:(cbn in Hn; lia) E) as Hm'.
      rewrite blockRun_cons, Hd, Hc, Ho, Hm'. reflexivity. }
    destruct ((c =? "*"%r) && (x =? "/"%r)) eqn:Hcl.
    { destruct (blockRun (d - 1) rs') as [[m' r'] k] eqn:E.
      injection Hrun as <- <- ->.
      pose proof (IH rs' (d - 1) m' r' ltac:(cbn in Hn; lia) E) as Hm'.
      rewrite blockRun_cons, Hd, Hc, Ho, Hcl, Hm'. reflexivity. }
    apply Hone; [exact Hrun |].
    intros x0 rs0 H. injection H as <- <-. auto.
Qed.

Lemma lineText_cases rest :
  exists body,
    ~ In LF body /\ ~ In NUL body /\
    ((exists c, (c = LF \/ c = NUL) /\ lineText rest = body ++ [c]
                /\ rest = body ++ c :: lineRest rest)
     \/ (lineText rest = body /\ rest = body /\ lineRest rest = [])).
Proof.
  unfold lineText, lineRest, lineEnd.
  induction rest as [| x rest IH]; cbn [takeWhile dropWhile].
  - exists []. split; [auto |]. split; [auto |]. right. auto.
  - destruct (Z.eqb_spec x LF) as [-> | H1]; cbn [orb negb].
    { exists []. split; [auto |]. split; [auto |]. left.
      exists LF. cbn [firstn skipn app]. auto. }
    destruct (Z.eqb_spec x NUL) as [-> | H0]; cbn [orb negb].
    { exists []. split; [auto |]. split; [auto |]. left.
      exists NUL. cbn [firstn skipn app]. auto. }
    destruct IH as (body & Hb1 & Hb0 & [(c & Hc & Ht & Hr) | (Ht & Hr & Hn)]).
    + exists (x :: body).
      split; [intros [H | H]; congruence |].
      split; [intros [H | H]; congruence |].
      left. exists c. cbn [app]. rewrite Ht.
      split; [exact Hc |]. split; [reflexivity |]. f_equal. exact Hr.
    + exists (x :: body).
      split; [intros [H | H]; congruence |].
      split; [intros [H | H]; congruence |].
      right. cbn [app]. rewrite Ht.
      split; [reflexivity |]. split; [f_equal; exact Hr | exact Hn].
Qed.

Lemma Ok_inj {A} (a b : A) lx lx' : Ok a lx = Ok b lx' -> a = b /\ lx = lx'.
Proof. intros H. injection H. auto. Qed.

Lemma blockRun_false rs x r :
  blockRun 1 rs = (x, r, false) -> nth 0 r NUL = NUL.
Proof.
  intros E.
  assert (Hf : (len rs < S (len rs))%nat) by lia.
  destruct (blockComment_loop_post (S (len rs)) rs [] 0 0 1 [] [] Hf)
    as (m' & r' & Hs & [Hrun | (Hn & Hrun)]);
    rewrite blockComment_loop_spec, E in Hrun by exact Hf;
    cbn [blockLoopEnd] in Hrun; [discriminate Hrun |].
  apply Ok_inj in Hrun. destruct Hrun as (_ & Hrun). apply st_inj in Hrun.
  destruct Hrun as (_ & -> & _). exact Hn.
Qed.

(** The skipper against the grammar of trivia, by induction on the fuel. *)
Lemma skipWSAndComments_Trivia fuel : forall rest pre t e,
  (len rest < fuel)%nat ->
  exists m rest',
    rest = m ++ rest' /\
    ((skipWSAndComments fuel (st pre rest t e)
      = Ok tt (st (pre ++ m) rest' t e) /\
      Trivia rest' m /\ startsTrivia rest' = false)
     \/ (exists m0 x,
            m = m0 ++ "/"%r :: "*"%r :: x /\
            Trivia ("/"%r :: "*"%r :: x ++ rest') m0 /\
            blockRun 1 (x ++ rest') = (x, rest', false) /\
            nth 0 rest' NUL = NUL /\
            skipWSAndComments fuel (st pre rest t e)
            = Ok tt (st (pre ++ m) rest' t
                        (e ++ [errorFrom (pre ++ m0)
                                 (str "unterminated block comment")])))).
Proof.
  induction fuel as [| f IH]; intros rest pre t e Hf; [lia |].
  cbn [skipWSAndComments]; cbv zeta. msteps.
  assert (Hstop : startsTrivia rest = false ->
            exists m rest',
              rest = m ++ rest' /\
              ((Ok tt (st pre rest t e) = Ok tt (st (pre ++ m) rest' t e) /\
                Trivia rest' m /\ startsTrivia rest' = false)
               \/ (exists m0 x,
                      m = m0 ++ "/"%r :: "*"%r :: x /\
                      Trivia ("/"%r :: "*"%r :: x ++ rest') m0 /\
                      blockRun 1 (x ++ rest') = (x, rest', false) /\
                      nth 0 rest' NUL = NUL /\
                      Ok tt (st pre rest t e)
                      = Ok tt (st (pre ++ m) rest' t
                                  (e ++ [errorFrom (pre ++ m0)
                                           (str "unterminated block comment")]))))).
  { intros Hs. exists [], rest. split; [reflexivity |]. left.
    rewrite app_nil_r. split; [reflexivity |]. split; [constructor | exact Hs]. }
  (* one piece [x] of trivia, then the rest of the loop *)
  assert (Hmore : forall x rest1,
            rest = x ++ rest1 -> x <> [] ->
            (forall idx m, Trivia idx m -> Trivia idx (x ++ m)) ->
            exists m rest',
              rest = m ++ rest' /\
              ((skipWSAndComments f (st (pre ++ x) rest1 t e)
                = Ok tt (st (pre ++ m) rest' t e) /\
                Trivia rest' m /\ startsTrivia rest' = false)
               \/ (exists m0 x0,
                      m = m0 ++ "/"%r :: "*"%r :: x0 /\
                      Trivia ("/"%r :: "*"%r :: x0 ++ rest') m0 /\
                      blockRun 1 (x0 ++ rest') = (x0, rest', false) /\
                      nth 0 rest' NUL = NUL /\
                      skipWSAndComments f (st (pre ++ x) rest1 t e)
                      = Ok tt (st (pre ++ m) rest' t
                                  (e ++ [errorFrom (pre ++ m0)
                                           (str "unterminated block comment")]))))).
  { intros x rest1 -> Hx Hcons.
    assert (Hl : (len rest1 < f)%nat).
    { rewrite length_app in Hf. destruct x; [congruence | cbn [len] in Hf; lia]. }
    destruct (IH rest1 (pre ++ x) t e Hl)
      as (m' & rest' & -> & [(Heq & Htr & Hst) | (m0 & x0 & -> & Htr & Hb & Hn & Heq)]).
    - exists (x ++ m'), rest'. rewrite <- !app_assoc in *.
      split; [reflexivity |]. left. auto.
    - exists (x ++ m0 ++ "/"%r :: "*"%r :: x0), rest'.
      rewrite <- !app_assoc in *. split; [reflexivity |]. right.
      exists (x ++ m0), x0. rewrite <- !app_assoc.
      split; [reflexivity |]. split; [apply Hcons; exact Htr |]. auto. }
  destruct rest as [| ch rs]; nsimp; [apply Hstop; reflexivity |].
  destruct (isSpace ch) eqn:Hsp; msteps.
  { apply (Hmore [ch] rs); [reflexivity | discriminate |].
    intros idx m Hm. cbn [app]. constructor; assumption. }
  destruct (Z.eqb_spec ch "/"%r) as [-> | Hs]; msteps.
  2:{ apply Hstop. unfold startsTrivia. cbn [nth]. rewrite Hsp.
      destruct (Z.eqb_spec ch "/"%r); [contradiction | reflexivity]. }
  destruct rs as [| n rs']; msteps; [apply Hstop; reflexivity |].
  destruct (Z.eqb_spec n "/"%r) as [-> | Hn]; msteps.
  - erewrite bind_eq by (apply lineComment_loop_spec; [exact Hf | reflexivity]).
    change (lineText ("/"%r :: "/"%r :: rs'))
      with ("/"%r :: "/"%r :: lineText rs').
    change (lineRest ("/"%r :: "/"%r :: rs')) with (lineRest rs').
    destruct (lineText_cases rs')
      as (body & Hb1 & Hb0 & [(c & Hc & Ht & Hr) | (Ht & Hr & Hnil)]).
    + rewrite Ht.
      replace ("/"%r :: "/"%r :: body ++ [c])
        with (("/"%r :: "/"%r :: body) ++ [c]) by reflexivity.
      apply (Hmore (("/"%r :: "/"%r :: body) ++ [c]) (lineRest rs')).
      * cbn [app]. rewrite <- app_assoc. cbn [app]. rewrite <- Hr. reflexivity.
      * discriminate.
      * intros idx m Hm. cbn [app]. rewrite <- app_assoc. cbn [app].
        apply Trivia_line; assumption.
    + rewrite Ht, Hnil. exists ("/"%r :: "/"%r :: body), [].
      split; [rewrite app_nil_r, Hr; reflexivity |]. left.
      split; [| split; [| reflexivity]].
      * rewrite skip_at_end by reflexivity. reflexivity.
      * apply Trivia_line_end; auto.
  - destruct (Z.eqb_spec n "*"%r) as [-> | Hn']; msteps.
    2:{ apply Hstop. unfold startsTrivia. cbn [nth].
        destruct (Z.eqb_spec n "/"%r); [contradiction |].
        destruct (Z.eqb_spec n "*"%r); [contradiction | reflexivity]. }
    erewrite bind_eq by (apply blockComment_loop_spec; cbn [len] in Hf; lia).
    destruct (blockRun 1 rs') as [[x r] k] eqn:E. cbn [blockLoopEnd].
    pose proof (blockRun_len _ _ _ _ _ E) as Hsplit. subst rs'.
    destruct k.
    + rewrite <- app_assoc. cbn [app].
      apply (Hmore ("/"%r :: "*"%r :: x) r); [reflexivity | discriminate |].
      intros idx m Hm. apply Trivia_block; [| exact Hm].
      exact (blockRun_closed_prefix _ _ _ _ _ (Nat.le_refl _) E).
    + exists ("/"%r :: "*"%r :: x), r. split; [reflexivity |]. right.
      exists [], x. rewrite app_nil_r, <- app_assoc. cbn [app].
      split; [reflexivity |]. split; [constructor |].
      split; [exact E |]. split; [| reflexivity].
      exact (blockRun_false (x ++ r) x r E).
Qed.

(** X14.  [skipWSAndComments] consumes white space and comments and nothing
    else.  When it returns without error, the text it has consumed is a
    sequence of white-space code points, of line comments, each with the
    newline or U+0000 that ends it (the last one may run to the end of the
    input), and of closed block comments; and it has stopped where no
    white space and no comment begins.  Otherwise the text it has consumed
    is such a sequence followed by the opening of a block comment whose
    body is still open where the input ends or a U+0000 stands, and the one
    error it has recorded is [unterminated block comment] at that opening. *)
Theorem skipper_consumes_trivia fuel : forall rest pre t e,
  (len rest < fuel)%nat ->
  exists m rest',
    rest = m ++ rest' /\
    ((skipWSAndComments fuel (st pre rest t e)
      = Ok tt (st (pre ++ m) rest' t e) /\
      Trivia rest' m /\ startsTrivia rest' = false)
     \/ (exists m0 x,
            m = m0 ++ "/"%r :: "*"%r :: x /\
            Trivia ("/"%r :: "*"%r :: x ++ rest') m0 /\
            blockRun 1 (x ++ rest') = (x, rest', false) /\
            nth 0 rest' NUL = NUL /\
            skipWSAndComments fuel (st pre rest t e)
            = Ok tt (st (pre ++ m) rest' t
                        (e ++ [errorFrom (pre ++ m0)
                                 (str "unterminated block comment")])))).
Proof. exact (skipWSAndComments_Trivia fuel). Qed.

(** ** C9: positions and spans *)

(** The last call in full.  Beyond [lastStep]: the text it skips is
    trivia, up to where no trivia begins; or it is trivia followed by the
    opening of a block comment whose body is still open where the skipper
    stops, and then the one error of the call is positioned at that
    opening, the first code point of the comment that failed. *)
Definition finalStep (input : list rune) (s : step) : Prop :=
  lastStep input s /\
  (let rest' := skipn (Z.to_nat (i (atScan s))) input in
   (reported s = [] /\ Trivia rest' (trivia s) /\ startsTrivia rest' = false)
   \/ exists m0 x,
        trivia s = m0 ++ "/"%r :: "*"%r :: x /\
        Trivia ("/"%r :: "*"%r :: x ++ rest') m0 /\
        blockRun 1 (x ++ rest') = (x, rest', false) /\
        reported s
        = [errorString
             (fst (posAt input (i (atCall s) + Z.of_nat (len m0))))
             (snd (posAt input (i (atCall s) + Z.of_nat (len m0))))
             (str "unterminated block comment")]).

Lemma LexAll_steps_final fuel rest pre t e :
  (len rest < fuel)%nat ->
  Forall (fun s => lastStep (src (atCall s)) s -> finalStep (src (atCall s)) s)
         (LexAll_steps fuel (st pre rest t e)).
Proof.
  apply LexAll_steps_Forall_skip.
  - intros f pre0 m rest' t0 e0 e1 Hf Heq _ _ Hlast.
    split; [exact Hlast |]. cbn [atCall atScan]. cbv zeta.
    rewrite trivia_mk, src_st, !i_st, Nat2Z.id, app_assoc, skipn_exact.
    destruct (skipWSAndComments_Trivia f (m ++ rest') pre0 t0 e0 Hf)
      as (m' & r' & Hsplit
          & [(Heq' & Htr & Hst) | (m0 & x & Hm & Htr & Hb & _ & Heq')]);
      rewrite Heq in Heq'; apply Ok_inj in Heq'; destruct Heq' as (_ & Heq');
      apply st_inj in Heq'; destruct Heq' as (Hp & <- & _ & ->);
      apply app_inv_head in Hp; subst m.
    + left. rewrite reported_same. auto.
    + right. exists m0, x. rewrite reported_more.
      split; [exact Hm |]. split; [exact Htr |]. split; [exact Hb |].
      unfold posAt, errorFrom.
      rewrite <- Nat2Z.inj_add, Nat2Z.id, <- length_app.
      rewrite Hm, <- !app_assoc, (app_assoc pre0 m0), firstn_exact.
      reflexivity.
  - intros pre0 m a r res t0 e0 _ Ha _ (_ & _ & Hatt & _).
    exfalso. apply Ha. rewrite <- Hatt. symmetry.
    destruct res as [ty | msg]; cbn [after]; apply between_st; reflexivity.
Qed.

(** C9.  In one run of [LexAll]: the tokens come in non-decreasing order of
    (line, column); the text of a later call starts where the text of an
    earlier call ended, or after it, so no two spans overlap; and every
    call is of one of three kinds.  It emits one token, or it records one
    error of its scanner: either is positioned at the line and column of
    the first code point of the text the scanner consumed (the cursor after
    the trivia, not the cursor after the scan).  Or it is the last call,
    which emits nothing: what it has skipped is trivia, and it records no
    error; or it is trivia followed by a block comment that is still open
    where the call stops, and its one error is positioned at the first code
    point of that comment. *)
Theorem C9_positions input fuel :
  (len input < fuel)%nat ->
  let steps := LexAll_steps fuel (NewLexer input) in
  exists toks errs final,
    LexAll fuel (NewLexer input) = Ok (toks, errs) final /\
    toks = concat (map emitted steps) /\
    errs = concat (map reported steps) /\
    StronglySorted (fun t1 t2 => pos_le (tokenPos t1) (tokenPos t2)) toks /\
    StronglySorted (fun s s' => i (atReturn s) <= i (atScan s')) steps /\
    Forall (fun s =>
              i (atCall s) <= i (atScan s) <= i (atReturn s) /\
              (tokenStep input s \/ failedStep input s \/ finalStep input s))
           steps.
Proof.
  intros Hf steps. subst steps. rewrite NewLexer_st.
  destruct (LexAll_Run fuel input [] [] [] Hf) as (final & HR & HL).
  pose proof (LexAll_steps_final fuel input [] [] [] Hf) as Hfin.
  set (steps := LexAll_steps fuel (st [] input [] [])) in *.
  destruct (Run_final _ _ _ _ _ _ HR) as (c & rf & Hin & Hn & Hc & Hfinal).
  exists (concat (map emitted steps)), (concat (map reported steps)), final.
  split.
  { rewrite HL, Hfinal, tokens_st, errors_st. reflexivity. }
  split; [reflexivity |]. split; [reflexivity |].
  split; [exact (Run_tokens_sorted _ _ _ _ _ _ HR) |].
  split; [exact (Run_ordered _ _ _ _ _ _ HR) |].
  pose proof (Run_stepOK _ _ _ _ _ _ HR) as Hok. cbn [app] in Hok.
  apply Forall_forall. intros s Hs.
  destruct (proj1 (Forall_forall _ _) Hok s Hs) as (Hsrc & Hi & Hk).
  pose proof (proj1 (Forall_forall _ _) Hfin s Hs) as Hl. cbv beta in Hl.
  rewrite Hsrc in Hl.
  split; [exact Hi |].
  destruct Hk as [Hk | [Hk | Hk]]; auto.
Qed.

(** ** The numbers that [scanNumber] accepts *)

Lemma decPart_NUL_false : decPart NUL = false.
Proof. reflexivity. Qed.

Lemma takeWhile_digits run tail :
  digitsRun run -> decPart (nth 0 tail NUL) = false ->
  takeWhile decPart (run ++ tail) = run /\
  dropWhile decPart (run ++ tail) = tail.
Proof.
  intros Hr Ht. apply takeWhile_app; [exact Hr | exact Ht | reflexivity].
Qed.

Lemma digit_not_sign d :
  IsDigit d = true -> (d =? "+"%r) || (d =? "-"%r) = false.
Proof.
  intros H.
  destruct (Z.eqb_spec d "+"%r) as [-> | _]; [discriminate H |].
  destruct (Z.eqb_spec d "-"%r) as [-> | _]; [discriminate H |].
  reflexivity.
Qed.

(** The exponent of a literal, in front of [tail]. *)
Lemma exponentRun_accepts m expo tail isFloat :
  expoShape expo ->
  decPart (nth 0 tail NUL) = false ->
  (expo = [] ->
   (nth 0 tail NUL =? "e"%r) || (nth 0 tail NUL =? "E"%r) = false) ->
  exponentRun m (expo ++ tail) isFloat
  = (m ++ expo, tail,
     decimalResult (m ++ expo)
                   (match expo with [] => isFloat | _ => true end)).
Proof.
  intros [-> | (mark & sign & d & ds & -> & Hmark & Hsign & Hd & Hds)] Ht He.
  - unfold exponentRun. cbn [app]. rewrite (He eq_refl), app_nil_r.
    reflexivity.
  - unfold exponentRun. cbn [app nth].
    assert (Hm : (mark =? "e"%r) || (mark =? "E"%r) = true).
    { destruct Hmark as [-> | ->]; reflexivity. }
    rewrite Hm. cbv zeta. cbn [skipn firstn app].
    assert (Htake : takeWhile decPart (d :: ds ++ tail) = d :: ds /\
                    dropWhile decPart (d :: ds ++ tail) = tail).
    { apply (takeWhile_digits (d :: ds) tail); [| exact Ht].
      constructor; [apply digit_decPart; exact Hd | exact Hds]. }
    destruct Htake as (Htk & Hdr).
    destruct Hsign as [-> | [-> | ->]]; cbn [app nth skipn firstn].
    + rewrite (digit_not_sign d Hd). cbn [nth app]. rewrite Hd. cbn [negb].
      rewrite Htk, Hdr. reflexivity.
    + cbn [Z.eqb Pos.eqb orb nth app]. rewrite Hd. cbn [negb].
      rewrite Htk, Hdr. reflexivity.
    + cbn [Z.eqb Pos.eqb orb nth app]. rewrite Hd. cbn [negb].
      rewrite Htk, Hdr. reflexivity.
Qed.

Lemma expo_head_plain expo tail :
  expoShape expo -> decPart (nth 0 tail NUL) = false ->
  decPart (nth 0 (expo ++ tail) NUL) = false.
Proof.
  intros [-> | (mark & sign & d & ds & -> & [-> | ->] & _)] Ht;
    [exact Ht | reflexivity | reflexivity].
Qed.

Lemma expo_head_noPoint expo tail :
  expoShape expo -> expo <> [] ->
  (nth 0 (expo ++ tail) NUL =? "."%r) = false.
Proof.
  intros [-> | (mark & sign & d & ds & -> & [-> | ->] & _)] Hne;
    [congruence | reflexivity | reflexivity].
Qed.

(** X17.  [scanNumber] accepts every literal of its two grammars that is
    not followed by a code point that would continue it.  A decimal
    literal (digits and underscores, an optional fraction, an optional
    exponent) that passes the underscore rule and has no base prefix gives
    one token whose lexeme is the literal, of kind [INT_LIT] when it has
    neither fraction nor exponent and of kind [FLOAT_LIT] otherwise.  A
    prefix [0x], [0b] or [0o], in either case, followed by a non-empty
    body of code points that the digit loop accepts and that passes the
    underscore rule, gives one [INT_LIT] token. *)
Theorem number_literals_accepted :
  (forall fuel pre int frac expo tail t e,
      digitsRun int -> fracShape frac -> expoShape expo ->
      validUnderscores (string_of_runes (int ++ frac ++ expo)) = true ->
      hasBasePrefix ((int ++ frac ++ expo) ++ tail) = false ->
      decPart (nth 0 tail NUL) = false ->
      (expo = [] ->
       (nth 0 tail NUL =? "e"%r) || (nth 0 tail NUL =? "E"%r) = false) ->
      (frac = [] -> expo = [] ->
       (nth 0 tail NUL =? "."%r) && IsDigit (nth 1 tail NUL) = false) ->
      (len ((int ++ frac ++ expo) ++ tail) < fuel)%nat ->
      scanNumber fuel (st pre ((int ++ frac ++ expo) ++ tail) t e)
      = Ok tt (st (pre ++ int ++ frac ++ expo) tail
                  (t ++ [mkToken (match frac, expo with
                                  | [], [] => INT_LIT
                                  | _, _ => FLOAT_LIT
                                  end)
                                 (string_of_runes (int ++ frac ++ expo))
                                 (fst (posAfter pre)) (snd (posAfter pre))
                                 None None])
                  e))
  /\
  (forall fuel pre base body tail t e,
      In base (str "xXbBoO") -> body <> [] ->
      Forall (fun r => isBaseDigit base r = true) body ->
      validUnderscores (string_of_runes body) = true ->
      isBaseDigit base (nth 0 tail NUL) = false ->
      (len ("0"%r :: base :: body ++ tail) < fuel)%nat ->
      scanNumber fuel (st pre ("0"%r :: base :: body ++ tail) t e)
      = Ok tt (st (pre ++ "0"%r :: base :: body) tail
                  (t ++ [mkToken INT_LIT
                                 (string_of_runes ("0"%r :: base :: body))
                                 (fst (posAfter pre)) (snd (posAfter pre))
                                 None None])
                  e)).
Proof.
  split.
  - intros fuel pre int frac expo tail t e Hint Hfrac Hexpo Hvalid
      Hpre Htail Hnoexp Hnofrac Hf.
    rewrite scanNumber_spec by exact Hf.
    unfold numberRun. rewrite Hpre. cbv zeta.
    rewrite <- !app_assoc.
    assert (Hhead : decPart (nth 0 (frac ++ expo ++ tail) NUL) = false).
    { destruct Hfrac as [-> | (d & ds & -> & _)]; [| reflexivity].
      cbn [app]. apply (expo_head_plain expo tail); assumption. }
    destruct (takeWhile_digits int (frac ++ expo ++ tail) Hint Hhead)
      as (Htk & Hdr).
    rewrite Htk, Hdr.
    destruct Hfrac as [-> | (d & ds & -> & Hd & Hds)].
    + (* no fraction *)
      cbn [app].
      assert (Hnf : (nth 0 (expo ++ tail) NUL =? "."%r)
                    && IsDigit (nth 1 (expo ++ tail) NUL) = false).
      { destruct expo as [| mk ex] eqn:Ee.
        - cbn [app]. apply Hnofrac; reflexivity.
        - rewrite <- Ee in *.
          rewrite (expo_head_noPoint expo tail Hexpo)
            by (rewrite Ee; discriminate).
          reflexivity. }
      rewrite Hnf. rewrite app_nil_r.
      rewrite (exponentRun_accepts int expo tail false Hexpo Htail Hnoexp).
      cbn [app] in Hvalid.
      unfold decimalResult. rewrite Hvalid. cbn [negb].
      destruct expo as [| mk ex].
      * rewrite app_nil_r in *. rewrite (digitsRun_plain int Hint).
        cbn [orb after]. unfold tokenAt. reflexivity.
      * cbn [orb after]. unfold tokenAt. reflexivity.
    + (* a fraction *)
      cbn [app nth]. cbn [Z.eqb Pos.eqb]. rewrite Hd. cbn [andb].
      cbn [firstn skipn app].
      assert (Htake : takeWhile decPart (d :: ds ++ expo ++ tail) = d :: ds /\
                      dropWhile decPart (d :: ds ++ expo ++ tail)
                      = expo ++ tail).
      { apply (takeWhile_digits (d :: ds) (expo ++ tail)).
        - constructor; [apply digit_decPart; exact Hd | exact Hds].
        - apply (expo_head_plain expo tail); assumption. }
      destruct Htake as (Htk2 & Hdr2). rewrite Htk2, Hdr2.
      rewrite (exponentRun_accepts _ expo tail true Hexpo Htail Hnoexp).
      replace (match expo with [] => true | _ :: _ => true end) with true
        by (destruct expo; reflexivity).
      rewrite <- !app_assoc. cbn [app].
      unfold decimalResult. cbn [app] in Hvalid. rewrite Hvalid.
      cbn [negb orb after]. unfold tokenAt. reflexivity.
  - intros fuel pre base body tail t e Hbase Hne Hbody Hvalid Htail Hf.
    rewrite scanNumber_spec by exact Hf.
    unfold numberRun.
    assert (Hp : hasBasePrefix ("0"%r :: base :: body ++ tail) = true).
    { unfold hasBasePrefix. cbn [nth].
      vm_compute in Hbase.
      repeat (destruct Hbase as [Hbase | Hbase]; [subst base; reflexivity |]).
      destruct Hbase. }
    rewrite Hp. cbv zeta. cbn [nth skipn firstn app].
    destruct (takeWhile_app (isBaseDigit base) body tail Hbody Htail
                (isBaseDigit_NUL base)) as (Htk & Hdr).
    rewrite Htk, Hdr, Hvalid.
    destruct body as [| b0 body0]; [congruence |].
    cbn [len Z.of_nat negb orb]. cbn [after]. unfold tokenAt.
    reflexivity.
Qed.

(** ** The strings that [scanString] accepts *)

(** The body of a double-quoted string: code points other than the quote,
    the backslash, the newline and U+0000, and pairs of a backslash and
    any code point other than the newline and U+0000. *)
Inductive StringBody : list rune -> Prop :=
| StringBody_nil : StringBody []
| StringBody_plain c body :
    c <> DQUOTE -> c <> "\"%r -> c <> LF -> c <> NUL ->
    StringBody body -> StringBody (c :: body)
| StringBody_escape d body :
    d <> LF -> d <> NUL ->
    StringBody body -> StringBody ("\"%r :: d :: body).

Lemma stringRun_body body tail :
  StringBody body ->
  stringRun (body ++ DQUOTE :: tail) = (body ++ [DQUOTE], tail, StrClosed).
Proof.
  induction 1 as [| c body Hq Hb Hn H0 _ IH | d body Hn H0 _ IH];
    cbn [app stringRun].
  - reflexivity.
  - destruct (Z.eqb_spec c NUL); [contradiction |].
    destruct (Z.eqb_spec c LF); [contradiction |].
    destruct (Z.eqb_spec c "\"%r); [contradiction |].
    destruct (Z.eqb_spec c DQUOTE); [contradiction |].
    cbn [orb]. rewrite IH. reflexivity.
  - destruct (Z.eqb_spec d NUL); [contradiction |].
    destruct (Z.eqb_spec d LF); [contradiction |].
    cbn [orb]. rewrite IH. reflexivity.
Qed.

(** X18.  [scanString] accepts every double-quoted string: an opening
    quote, a body of code points other than the quote, the backslash, the
    newline and U+0000 and of backslash pairs (a backslash and any code
    point other than the newline and U+0000, the quote included), and a
    closing quote.  It emits one [STRING_LIT] token whose lexeme is the
    whole text as written, and leaves the cursor behind the closing quote,
    whatever follows. *)
Theorem string_literals_accepted fuel pre body tail t e :
  StringBody body ->
  (len (body ++ DQUOTE :: tail) < fuel)%nat ->
  scanString fuel (st pre (DQUOTE :: body ++ DQUOTE :: tail) t e)
  = Ok tt (st (pre ++ DQUOTE :: body ++ [DQUOTE]) tail
              (t ++ [mkToken STRING_LIT
                             (string_of_runes (DQUOTE :: body ++ [DQUOTE]))
                             (fst (posAfter pre)) (snd (posAfter pre))
                             None None])
              e).
Proof.
  intros Hb Hf. rewrite scanString_spec by exact Hf.
  unfold stringAttempt. rewrite (stringRun_body body tail Hb).
  reflexivity.
Qed.

End Lexer.

(** * Instances and refutations

    The inputs below are ASCII, so that [latin1Tables] stands for any
    tables: no lookup beyond Latin-1 takes place. *)

(** C5 at [If(]: the keyword [if], spelled as written. *)
Lemma C5_witness :
  exists kind,
    scanIdentOrKeyword latin1Tables 4 (st [] (str "If(") [] [])
    = Ok tt (st (str "If") (str "(")
                [mkToken kind (str "If") 1 1 None None] [])
    /\ kind = KW_IF.
Proof.
  destruct (C5_identifier_kinds latin1Tables [] (str "If") (str "(") [] [] 4)
    as (kind & Heq & Hkw & _).
  - reflexivity.
  - repeat constructor.
  - reflexivity.
  - repeat constructor.
  - vm_compute. lia.
  - exists kind. split; [exact Heq |].
    apply Hkw. vm_compute. tauto.
Defined.

(** C6 at a closed string with an escaped quote inside. *)
Lemma C6_witness :
  scanString 8 (st [] (DQUOTE :: str "a\" ++ [DQUOTE; "b"%r; DQUOTE; ";"%r])
                   [] [])
  = Ok tt (st (DQUOTE :: str "a\" ++ [DQUOTE; "b"%r; DQUOTE]) [";"%r]
              [mkToken STRING_LIT
                       (DQUOTE :: str "a\" ++ [DQUOTE; "b"%r; DQUOTE])
                       1 1 None None]
              []).
Proof.
  apply (C6_scanString [] (str "a\" ++ [DQUOTE; "b"%r; DQUOTE; ";"%r]) [] [] 8).
  vm_compute. lia.
Defined.

(** C6 as stated fails where a U+0000 stands inside the quotes: the closing
    quote is there, no newline and no end of input precede it, and still
    the scanner reports an unterminated literal and emits nothing. *)
Lemma C6_counterexample :
  exists lx',
    scanString 3 (NewLexer [DQUOTE; NUL; DQUOTE]) = Ok tt lx' /\
    tokens lx' = [] /\
    errors lx' = [str "lexical error at 1:1: unterminated string literal"] /\
    tokens lx'
    <> [mkToken STRING_LIT [DQUOTE; NUL; DQUOTE] 1 1 None None].
Proof.
  eexists. split; [vm_compute; reflexivity |].
  cbn [tokens errors]. repeat split. discriminate.
Qed.

(** C7 at [0x_1]: the text after the prefix starts with an underscore. *)
Lemma C7_witness :
  exists lx',
    scanNumber latin1Tables 5 (st [] (str "0x_1") [] []) = Ok tt lx' /\
    tokens lx' = [] /\
    exists msg, errors lx' = [errorFrom [] msg].
Proof.
  destruct (proj2 (C7_validUnderscores_rule latin1Tables) [] (str "0x_1") [] [] 5%nat)
    as (lx' & Heq & Hbad & _).
  - vm_compute. lia.
  - exists lx'. split; [exact Heq |].
    apply Hbad.
    assert (Hlx : Ok tt lx'
                  = scanNumber latin1Tables 5 (st [] (str "0x_1") [] []))
      by (symmetry; exact Heq).
    vm_compute in Hlx. injection Hlx as ->. vm_compute. reflexivity.
Defined.

(** C1 at a short program without errors: the lexemes and the trivia give
    back the input. *)
Lemma C1_witness :
  reassemble (LexAll_steps latin1Tables 20 (NewLexer (str "var x = 1 // c")))
  = str "var x = 1 // c".
Proof.
  pose proof (C1_round_trip latin1Tables (str "var x = 1 // c") 20) as H.
  cbv zeta in H.
  destruct H as (final & _ & _ & _ & _ & Hrt).
  - vm_compute. lia.
  - apply Hrt.
    + intros Hin. vm_compute in Hin.
      repeat (destruct Hin as [Hin | Hin]; [discriminate Hin |]).
      exact Hin.
    + repeat constructor.
    + vm_compute. reflexivity.
Defined.

(** C1 as stated fails on [@], whose only code point belongs to a failed
    attempt, and on [a], U+0000, [b], where the run stops at the U+0000
    without any error. *)
Lemma C1_counterexample :
  reassemble (LexAll_steps latin1Tables 2 (NewLexer (str "@"))) <> str "@"
  /\ reassemble (LexAll_steps latin1Tables 4 (NewLexer ["a"%r; NUL; "b"%r]))
     <> ["a"%r; NUL; "b"%r].
Proof. split; vm_compute; discriminate. Qed.

(** C2 at [@]: the call returns and the cursor moves on; the run returns. *)
Lemma C2_witness :
  (exists more lx',
      nextToken latin1Tables 2 (NewLexer (str "@")) = Ok more lx' /\
      (more = true -> i (NewLexer (str "@")) < i lx'))
  /\ (exists toks errs final,
         LexAll latin1Tables 2 (NewLexer (str "@")) = Ok (toks, errs) final).
Proof.
  destruct (C2_progress_and_termination latin1Tables) as [Hstep Hall].
  split.
  - destruct (Hstep (NewLexer (str "@")) 2%nat)
      as (more & lx' & Heq & _ & _ & _ & _ & Hlt & _).
    + rewrite NewLexer_st. apply wf_st.
    + vm_compute. lia.
    + eauto.
  - apply Hall. vm_compute. lia.
Defined.

(** C2 as stated fails where the cursor stands on a U+0000 that is not the
    end of the input: [nextToken] returns [false] and the cursor has not
    moved. *)
Lemma C2_counterexample :
  exists lx',
    nextToken latin1Tables 2 (NewLexer [NUL; "a"%r]) = Ok false lx' /\
    i (NewLexer [NUL; "a"%r]) < length (NewLexer [NUL; "a"%r]) /\
    ~ i (NewLexer [NUL; "a"%r]) < i lx'.
Proof.
  eexists. split; [vm_compute; reflexivity |].
  cbn [i length NewLexer len]. split; lia.
Qed.

(** C8 as stated fails on the quotes: the message shows the character
    between single quotes, not double quotes. *)
Lemma C8_counterexample :
  exists toks errs final,
    LexAll latin1Tables 2 (NewLexer (str "@")) = Ok (toks, errs) final /\
    errs <> [str "lexical error at 1:1: invalid character "
               ++ [DQUOTE; "@"%r; DQUOTE]].
Proof.
  do 3 eexists. split; [vm_compute; reflexivity |].
  vm_compute. discriminate.
Qed.

(** The input of the instance of C9: a word, a newline, a closed block
    comment and the opening of one that the input leaves open. *)
Definition openCommentInput : list rune :=
  "a"%r :: LF :: str "/* c */ /* b".

(** Its run: one token at 1:1, and the error of the last call at 2:9, the
    opening of the second comment. *)
Lemma openCommentInput_run :
  exists final,
    LexAll latin1Tables 15 (NewLexer openCommentInput)
    = Ok ([mkToken IDENT (str "a") 1 1 None None],
          [str "lexical error at 2:9: unterminated block comment"])
         final.
Proof. eexists. vm_compute. reflexivity. Qed.

(** C9 on that input. *)
Lemma C9_witness :
  exists toks errs final,
    LexAll latin1Tables 15 (NewLexer openCommentInput) = Ok (toks, errs) final /\
    toks = concat (map emitted
                       (LexAll_steps latin1Tables 15 (NewLexer openCommentInput))) /\
    errs = concat (map reported
                       (LexAll_steps latin1Tables 15 (NewLexer openCommentInput))) /\
    StronglySorted (fun t1 t2 => pos_le (tokenPos t1) (tokenPos t2)) toks /\
    StronglySorted (fun s s' => i (atReturn s) <= i (atScan s'))
                   (LexAll_steps latin1Tables 15 (NewLexer openCommentInput)) /\
    Forall (fun s =>
              i (atCall s) <= i (atScan s) <= i (atReturn s) /\
              (tokenStep openCommentInput s \/ failedStep openCommentInput s
               \/ finalStep openCommentInput s))
           (LexAll_steps latin1Tables 15 (NewLexer openCommentInput)).
Proof.
  apply (C9_positions latin1Tables openCommentInput 15).
  vm_compute. lia.
Defined.

(** C10 at a U+0000 in front of more input, at one inside a string that a
    closing quote follows, and at one inside a block comment, after a
    nested comment, that a closing delimiter follows. *)
Lemma C10_witness :
  LexAll latin1Tables 1 (st [] (NUL :: str "x") [] [])
  = Ok ([], []) (st [] (NUL :: str "x") [] [])
  /\ scanString 5 (st [] (DQUOTE :: str "ab" ++ [NUL; DQUOTE]) [] [])
     = Ok tt (st (DQUOTE :: str "ab") [NUL; DQUOTE] []
                 [errorFrom [] (str "unterminated string literal")])
  /\ LexAll latin1Tables 18
       (st [] (str "/* /* a */ b" ++ NUL :: str "*/ c") [] [])
     = Ok ([], [errorFrom [] (str "unterminated block comment")])
          (st (str "/* /* a */ b") (NUL :: str "*/ c") []
              [errorFrom [] (str "unterminated block comment")]).
Proof.
  destruct (C10_NUL_is_end_of_input latin1Tables)
    as (Hstop & Hstr & _ & _ & _ & _ & Hblock).
  split; [| split].
  - apply (Hstop 1%nat [] [] (str "x") [] []).
    apply skipWSAndComments_NUL.
  - apply (Hstr 5%nat [] (str "ab") [DQUOTE] [] [] StrOpen).
    + reflexivity.
    + discriminate.
    + vm_compute. lia.
  - apply (Hblock 18%nat [] (str " /* a */ b") (str "*/ c") [] []).
    + vm_compute. reflexivity.
    + vm_compute. lia.
Defined.

(** C10 as stated fails for a U+0000 that stands where the character of a
    character literal is expected: the error recorded is [empty or invalid
    char literal], which is none of the [unterminated ...] errors. *)
Lemma C10_counterexample :
  exists lx',
    scanChar (NewLexer ["'"%r; NUL; "'"%r]) = Ok tt lx' /\
    errors lx'
    = [errorString 1 1 (str "empty or invalid char literal")] /\
    ~ exists what,
        errors lx' = [errorString 1 1 (str "unterminated " ++ what)].
Proof.
  eexists. split; [vm_compute; reflexivity |].
  cbn [errors]. split; [vm_compute; reflexivity |].
  intros (what & H). vm_compute in H. discriminate H.
Qed.

(** [scanNumber_outcomes] at [1e+]. *)
Lemma scanNumber_outcomes_witness :
  exists lx',
    scanNumber latin1Tables 4 (st [] (str "1e+") [] []) = Ok tt lx' /\
    tokens lx' = [] /\
    errors lx' = [str "lexical error at 1:1: invalid float exponent"].
Proof.
  destruct (scanNumber_outcomes latin1Tables [] (str "1e+") [] [] 4)
    as (lx' & Heq & _).
  - vm_compute. lia.
  - exists lx'. split; [exact Heq |].
    assert (Hlx : Ok tt lx'
                  = scanNumber latin1Tables 4 (st [] (str "1e+") [] []))
      by (symmetry; exact Heq).
    vm_compute in Hlx. injection Hlx as ->. split; reflexivity.
Defined.

(** [peek_from_zero] at the look-behind of [scanString]: one code point
    back from cursor 1. *)
Lemma peek_from_zero_witness :
  peek (-1) (st [DQUOTE] (str "a") [] []) = Ok DQUOTE (st [DQUOTE] (str "a") [] []).
Proof.
  apply (peek_from_zero (st [DQUOTE] (str "a") [] []) (-1)).
  - apply wf_st.
  - vm_compute. discriminate.
  - vm_compute. split; discriminate.
Defined.

(** [advance_contract] at a newline. *)
Lemma advance_contract_witness :
  exists lx',
    advance (NewLexer [LF; "a"%r]) = Ok LF lx' /\
    i lx' = 1 /\ (line lx', col lx') = (2, 1).
Proof.
  destruct (advance_contract (NewLexer [LF; "a"%r])) as [Hin _].
  - rewrite NewLexer_st. apply wf_st.
  - destruct Hin as (ch & lx' & Heq & Hch & Hi & Hpos & _).
    + vm_compute. reflexivity.
    + vm_compute in Hch. injection Hch as <-.
      exists lx'. split; [exact Heq |]. split; [exact Hi |]. exact Hpos.
Defined.

(** * The name of the output file

    [outputFileName] works on the bytes of its argument; a string is here
    the list of its bytes.  [filepath.Base] is the one of a system whose
    path separator is the slash. *)

Definition isSlash (c : Z) : bool := c =? "/"%r.

(** [filepath.Base]: [.] for the empty path; otherwise the trailing
    slashes are removed, then everything up to the last slash; a path of
    slashes only gives one slash. *)
Definition Base (path : gostring) : gostring :=
  match path with
  | [] => str "."
  | _ =>
      let stripped := rev (dropWhile isSlash (rev path)) in
      let last := rev (takeWhile (fun c => negb (isSlash c)) (rev stripped)) in
      match last with
      | [] => str "/"
      | _ => last
      end
  end.

(** [strings.ReplaceAll s old new] for a non-empty [old]: the occurrences
    of [old] in [s], from the left and without overlap, are replaced by
    [new]; [skip] counts the bytes of an occurrence still to pass over. *)
Fixpoint ReplaceAll_from (skip : nat) (s old new : gostring) : gostring :=
  match s with
  | [] => []
  | c :: s' =>
      match skip with
      | S k => ReplaceAll_from k s' old new
      | O =>
          if HasPrefix s old then new ++ ReplaceAll_from (len old - 1) s' old new
          else c :: ReplaceAll_from 0 s' old new
      end
  end.

Definition ReplaceAll (s old new : gostring) : gostring :=
  ReplaceAll_from 0 s old new.

Definition outputFileName (arg : gostring) : gostring :=
  if gostring_eqb arg [] || gostring_eqb arg (str "-") then
    str "stdin_output.txt"
  else
    let base := Base arg in
    let base := ReplaceAll base (str ".") (str "_") in
    base ++ str "_output.txt".

(** The name with every point replaced by an underscore. *)
Definition noPoints (name : gostring) : gostring :=
  map (fun c => if c =? "."%r then "_"%r else c) name.

Lemma ReplaceAll_point s : ReplaceAll s (str ".") (str "_") = noPoints s.
Proof.
  unfold ReplaceAll, noPoints.
  change (str ".") with ["."%r]. change (str "_") with ["_"%r].
  induction s as [| c s IH]; [reflexivity |].
  cbn [ReplaceAll_from HasPrefix map len Nat.sub].
  rewrite HasPrefix_nil, andb_true_r, IH.
  destruct (c =? "."%r); reflexivity.
Qed.

Lemma noPoints_free name : ~ In "."%r (noPoints name).
Proof.
  unfold noPoints. intros H. apply in_map_iff in H.
  destruct H as (c & Hc & _).
  destruct (Z.eqb_spec c "."%r); [discriminate Hc | congruence].
Qed.

Lemma noPoints_slash name : In "/"%r (noPoints name) -> In "/"%r name.
Proof.
  unfold noPoints. intros H. apply in_map_iff in H.
  destruct H as (c & Hc & Hin).
  destruct (Z.eqb_spec c "."%r); [discriminate Hc | congruence].
Qed.

Lemma takeWhile_notSlash l :
  ~ In "/"%r (takeWhile (fun c => negb (isSlash c)) l).
Proof.
  induction l as [| c l IH]; cbn [takeWhile]; [auto |].
  unfold isSlash at 1. destruct (Z.eqb_spec c "/"%r); cbn [negb]; [auto |].
  intros [H | H]; [congruence | auto].
Qed.

Lemma dropWhile_all_slash l :
  dropWhile isSlash l = [] -> Forall (fun c => c = "/"%r) l.
Proof.
  induction l as [| c l IH]; cbn [dropWhile]; [constructor |].
  unfold isSlash at 1. destruct (Z.eqb_spec c "/"%r); [| discriminate].
  intros H. constructor; auto.
Qed.

Lemma takeWhile_nil_head l :
  takeWhile (fun c => negb (isSlash c)) l = [] ->
  l = [] \/ exists l', l = "/"%r :: l'.
Proof.
  destruct l as [| c l]; cbn [takeWhile]; [auto |].
  unfold isSlash. destruct (Z.eqb_spec c "/"%r) as [-> | _]; cbn [negb];
    [eauto | discriminate].
Qed.

Lemma dropWhile_head_notSlash l c l' :
  dropWhile isSlash l = c :: l' -> c <> "/"%r.
Proof.
  induction l as [| x l IH]; cbn [dropWhile]; [discriminate |].
  unfold isSlash at 1. destruct (Z.eqb_spec x "/"%r); [exact IH |].
  intros H. injection H as <- _. assumption.
Qed.

(** [Base] gives a non-empty name without slash, or the one slash of a
    path made of slashes. *)
Lemma Base_spec path :
  Base path <> [] /\
  (In "/"%r (Base path) ->
   Base path = str "/" /\ path <> [] /\ Forall (fun c => c = "/"%r) path).
Proof.
  unfold Base. destruct path as [| c0 path0] eqn:Ep.
  { split; [discriminate |]. intros H. vm_compute in H.
    destruct H as [H | []]. discriminate H. }
  rewrite <- Ep. cbv zeta. rewrite rev_involutive.
  destruct (rev (takeWhile (fun c => negb (isSlash c))
                           (dropWhile isSlash (rev path)))) as [| x l] eqn:El.
  - split; [discriminate |]. intros _. split; [reflexivity |].
    split; [rewrite Ep; discriminate |].
    apply (f_equal (@rev _)) in El. rewrite rev_involutive in El.
    cbn [rev] in El. apply takeWhile_nil_head in El.
    destruct El as [Hd | (l' & Hd)].
    + apply dropWhile_all_slash in Hd. apply Forall_rev in Hd.
      rewrite rev_involutive in Hd. exact Hd.
    + apply dropWhile_head_notSlash in Hd. congruence.
  - split; [discriminate |]. intros Hin. exfalso.
    rewrite <- El in Hin. apply in_rev in Hin.
    exact (takeWhile_notSlash _ Hin).
Qed.

(** X15.  [outputFileName] always returns a non-empty stem followed by
    [_output.txt]; the stem holds no point; and it holds no slash, so that
    the file lands in the current directory, unless the argument is made of
    slashes only: then the stem is one slash and the file lands in the
    root directory. *)
Theorem outputFileName_shape arg :
  exists stem,
    outputFileName arg = stem ++ str "_output.txt" /\
    stem <> [] /\ ~ In "."%r stem /\
    (In "/"%r stem ->
     stem = str "/" /\ arg <> [] /\ Forall (fun c => c = "/"%r) arg).
Proof.
  unfold outputFileName.
  destruct (gostring_eqb arg [] || gostring_eqb arg (str "-")).
  - exists (str "stdin"). split; [reflexivity |]. split; [discriminate |].
    split; intros H; vm_compute in H;
      repeat (destruct H as [H | H]; [discriminate H |]); destruct H.
  - cbv zeta. rewrite ReplaceAll_point.
    destruct (Base_spec arg) as (Hne & Hslash).
    exists (noPoints (Base arg)). split; [reflexivity |]. split.
    { destruct (Base arg); [congruence | discriminate]. }
    split; [apply noPoints_free |].
    intros Hin. apply noPoints_slash in Hin.
    destruct (Hslash Hin) as (Hb & Ha & Hall).
    rewrite Hb. auto.
Qed.

Lemma rev_repeat {A} (x : A) k : rev (repeat x k) = repeat x k.
Proof.
  induction k as [| k IH]; [reflexivity |].
  cbn [repeat rev]. rewrite IH. symmetry. apply repeat_cons.
Qed.

Lemma dropWhile_repeat_slash k l :
  dropWhile isSlash (repeat "/"%r k ++ l) = dropWhile isSlash l.
Proof. induction k as [| k IH]; [reflexivity | exact IH]. Qed.

Lemma takeWhile_until_slash name l :
  ~ In "/"%r name ->
  takeWhile (fun c => negb (isSlash c)) (name ++ "/"%r :: l) = name.
Proof.
  induction name as [| c name IH]; intros H; cbn [app takeWhile].
  - reflexivity.
  - unfold isSlash at 1. destruct (Z.eqb_spec c "/"%r) as [-> | _];
      [exfalso; apply H; left; reflexivity |].
    cbn [negb]. rewrite IH; [reflexivity |].
    intros Hin. apply H. right. exact Hin.
Qed.

Lemma dropWhile_name name l :
  name <> [] -> ~ In "/"%r name ->
  dropWhile isSlash (rev name ++ l) = rev name ++ l.
Proof.
  intros Hne Hs. destruct (rev name) as [| c r] eqn:E.
  - apply (f_equal (@rev _)) in E. rewrite rev_involutive in E.
    contradiction.
  - cbn [app dropWhile]. unfold isSlash.
    destruct (Z.eqb_spec c "/"%r) as [-> | _]; [| reflexivity].
    exfalso. apply Hs. apply in_rev. rewrite E. left. reflexivity.
Qed.

Lemma Base_cons path :
  path <> [] ->
  Base path
  = match rev (takeWhile (fun c => negb (isSlash c))
                         (dropWhile isSlash (rev path))) with
    | [] => str "/"
    | c :: l => c :: l
    end.
Proof.
  destruct path as [| z path]; [congruence |]. intros _. unfold Base. cbv zeta.
  rewrite rev_involutive.
  destruct (rev (takeWhile (fun c => negb (isSlash c))
                           (dropWhile isSlash (rev (z :: path)))));
    reflexivity.
Qed.

(** X16.  Of a path, [outputFileName] keeps the last element only: for a
    non-empty name without slash, behind whatever directory and followed by
    any number of slashes, it returns the name with every point replaced by
    an underscore, followed by [_output.txt].  Directories are dropped, so
    files of the same name in two directories get the same output file. *)
Theorem outputFileName_last_element dir name k :
  name <> [] -> ~ In "/"%r name ->
  outputFileName (dir ++ "/"%r :: name ++ repeat "/"%r k)
  = noPoints name ++ str "_output.txt".
Proof.
  intros Hne Hs. unfold outputFileName.
  set (arg := dir ++ "/"%r :: name ++ repeat "/"%r k).
  assert (Hlen : (2 <= len arg)%nat).
  { subst arg. rewrite length_app. cbn [len]. rewrite length_app.
    destruct name; [congruence | cbn [len]; lia]. }
  assert (H1 : gostring_eqb arg [] = false).
  { destruct (gostring_eqb arg []) eqn:E; [| reflexivity].
    apply gostring_eqb_eq in E. rewrite E in Hlen. cbn in Hlen. lia. }
  assert (H2 : gostring_eqb arg (str "-") = false).
  { destruct (gostring_eqb arg (str "-")) eqn:E; [| reflexivity].
    apply gostring_eqb_eq in E. rewrite E in Hlen. cbn in Hlen. lia. }
  rewrite H1, H2. cbn [orb]. cbv zeta. rewrite ReplaceAll_point.
  f_equal. f_equal.
  rewrite Base_cons by (intros E; rewrite E in Hlen; cbn in Hlen; lia).
  assert (Hrev : rev arg = repeat "/"%r k ++ rev name ++ "/"%r :: rev dir).
  { subst arg.
    change (dir ++ "/"%r :: name ++ repeat "/"%r k)
      with (dir ++ ["/"%r] ++ name ++ repeat "/"%r k).
    rewrite !rev_app_distr, rev_repeat. cbn [rev app].
    rewrite <- !app_assoc. reflexivity. }
  rewrite Hrev, dropWhile_repeat_slash, dropWhile_name by assumption.
  rewrite takeWhile_until_slash
    by (intros Hin; apply Hs; apply in_rev; exact Hin).
  rewrite rev_involutive.
  destruct name; [congruence | reflexivity].
Qed.

(** * Instances of the further properties *)

Ltac not_in :=
  let H := fresh "H" in
  intros H; vm_compute in H;
  repeat (destruct H as [H | H]; [discriminate H |]); exact H.

(** [scanRawString_contract] at a raw string that holds a newline, a
    quote and a backslash. *)
Lemma scanRawString_contract_witness :
  scanRawString 8
    (st [] ("`"%r :: ["a"%r; LF; DQUOTE; "\"%r] ++ "`"%r :: str ";") [] [])
  = Ok tt (st ("`"%r :: ["a"%r; LF; DQUOTE; "\"%r] ++ ["`"%r]) (str ";")
              [mkToken STRING_LIT
                       (string_of_runes
                          ("`"%r :: ["a"%r; LF; DQUOTE; "\"%r] ++ ["`"%r]))
                       1 1 None None]
              []).
Proof.
  destruct scanRawString_contract as (H & _).
  apply (H 8%nat [] ["a"%r; LF; DQUOTE; "\"%r] (str ";") [] []).
  - not_in.
  - not_in.
  - vm_compute. lia.
Defined.

(** [line_comment_skipped] at a line comment that a U+0000 ends: the run
    goes on behind the U+0000. *)
Lemma line_comment_skipped_witness :
  LexAll latin1Tables 8 (st [] ("/"%r :: "/"%r :: str " c" ++ NUL :: str "x") [] [])
  = LexAll latin1Tables 2
      (st ("/"%r :: "/"%r :: str " c" ++ [NUL]) (str "x") [] []).
Proof.
  destruct (line_comment_skipped latin1Tables) as (H & _).
  apply (H 8%nat 2%nat [] (str " c") NUL (str "x") [] []).
  - not_in.
  - not_in.
  - right. reflexivity.
  - vm_compute. lia.
  - vm_compute. lia.
Defined.

(** [block_comment_nesting] at a comment that holds a comment. *)
Lemma block_comment_nesting_witness :
  closedComment ("/"%r :: "*"%r :: str " in */" ++ str " out */")
  /\ LexAll latin1Tables 30
       (st [] ("/"%r :: "*"%r
               :: ("/"%r :: "*"%r :: str " in */" ++ str " out */")
               ++ str "x") [] [])
     = LexAll latin1Tables 2
         (st ("/"%r :: "*"%r
              :: "/"%r :: "*"%r :: str " in */" ++ str " out */")
             (str "x") [] []).
Proof.
  destruct (block_comment_nesting latin1Tables) as (_ & _ & Hnest & Hskip & _).
  assert (Hc : closedComment ("/"%r :: "*"%r :: str " in */" ++ str " out */")).
  { apply Hnest; reflexivity. }
  split; [exact Hc |].
  apply (Hskip 30%nat 2%nat []
           ("/"%r :: "*"%r :: str " in */" ++ str " out */") (str "x") [] []).
  - exact Hc.
  - vm_compute. lia.
  - vm_compute. lia.
Defined.

(** [tokens_located] on two lines of input. *)
Lemma tokens_located_witness :
  exists toks errs final,
    LexAll latin1Tables 12 (NewLexer (str "x :=" ++ LF :: str "  0x1F"))
    = Ok (toks, errs) final /\
    Forall (fun tok =>
              exists before a after,
                str "x :=" ++ LF :: str "  0x1F" = before ++ a ++ after /\
                a <> [] /\
                Lexeme tok = string_of_runes a /\
                Line tok = 1 + Z.of_nat (count_occ Z.eq_dec before LF) /\
                Column tok
                = 1 + Z.of_nat (len (takeWhile (fun r => negb (r =? LF))
                                               (rev before))) /\
                IntVal tok = None /\ FloatVal tok = None)
           toks.
Proof.
  apply (tokens_located latin1Tables (str "x :=" ++ LF :: str "  0x1F") 12).
  vm_compute. lia.
Defined.

(** [output_bounded] on an input that gives one token and one error. *)
Lemma output_bounded_witness :
  exists toks errs final,
    LexAll latin1Tables 4 (NewLexer (str "a@ ")) = Ok (toks, errs) final /\
    (len toks + len errs <= len (str "a@ "))%nat.
Proof.
  apply (output_bounded latin1Tables (str "a@ ") 4). vm_compute. lia.
Defined.

(** [LexAll_idempotent] on an input that ends inside a block comment. *)
Lemma LexAll_idempotent_witness :
  exists toks errs final,
    LexAll latin1Tables 6 (NewLexer (str "a /* ")) = Ok (toks, errs) final /\
    LexAll latin1Tables 0 final = Ok (toks, errs) final.
Proof.
  apply (LexAll_idempotent latin1Tables (str "a /* ") 6 0). vm_compute. lia.
Defined.

(** [error_messages] on the six malformed pieces of [errors_demo.jl]. *)
Lemma error_messages_witness :
  exists toks errs final,
    LexAll latin1Tables 30 (NewLexer (str "0x_1 0b 0o 1e+ 123_ @"))
    = Ok (toks, errs) final /\
    Forall (fun err =>
              exists before after msg,
                str "0x_1 0b 0o 1e+ 123_ @" = before ++ after /\
                err = errorString (lineOf before) (columnOf before) msg /\
                (In msg messages \/
                 exists ch,
                   msg = str "invalid character " ++ QuoteRune latin1Tables ch))
           errs.
Proof.
  apply (error_messages latin1Tables (str "0x_1 0b 0o 1e+ 123_ @") 30).
  vm_compute. lia.
Defined.

(** [token_shapes] on a declaration. *)
Lemma token_shapes_witness :
  exists toks errs final,
    LexAll latin1Tables 30 (NewLexer (str "var x: f64 = 1_0.5e-3;"))
    = Ok (toks, errs) final /\
    Forall (fun tok => lexemeShape latin1Tables (Type_ tok) (Lexeme tok)) toks.
Proof.
  apply (token_shapes latin1Tables (str "var x: f64 = 1_0.5e-3;") 30).
  - vm_compute. lia.
  - apply Forall_forall. apply (proj1 (forallb_forall ValidRune _)).
    vm_compute. reflexivity.
Defined.

(** [skipper_consumes_trivia] in front of an identifier. *)
Lemma skipper_consumes_trivia_witness :
  exists m rest',
    str " // c" ++ LF :: str "/* d */ x" = m ++ rest' /\
    ((skipWSAndComments 20 (st [] (str " // c" ++ LF :: str "/* d */ x") [] [])
      = Ok tt (st ([] ++ m) rest' [] []) /\
      Trivia rest' m /\ startsTrivia rest' = false)
     \/ (exists m0 x,
            m = m0 ++ "/"%r :: "*"%r :: x /\
            Trivia ("/"%r :: "*"%r :: x ++ rest') m0 /\
            blockRun 1 (x ++ rest') = (x, rest', false) /\
            nth 0 rest' NUL = NUL /\
            skipWSAndComments 20
              (st [] (str " // c" ++ LF :: str "/* d */ x") [] [])
            = Ok tt (st ([] ++ m) rest' []
                        ([] ++ [errorFrom ([] ++ m0)
                                  (str "unterminated block comment")])))).
Proof.
  apply (skipper_consumes_trivia 20 (str " // c" ++ LF :: str "/* d */ x")
           [] [] []).
  vm_compute. lia.
Defined.

(** [number_literals_accepted] at a float with underscore, fraction and signed
    exponent, in front of a semicolon. *)
Lemma number_literals_accepted_witness :
  scanNumber latin1Tables 12
    (st [] ((str "1_0" ++ str ".5" ++ str "e-3") ++ str ";") [] [])
  = Ok tt (st ([] ++ str "1_0" ++ str ".5" ++ str "e-3") (str ";")
              ([] ++ [mkToken FLOAT_LIT
                              (string_of_runes
                                 (str "1_0" ++ str ".5" ++ str "e-3"))
                              1 1 None None])
              []).
Proof.
  destruct (number_literals_accepted latin1Tables) as (H & _).
  apply (H 12%nat [] (str "1_0") (str ".5") (str "e-3") (str ";") [] []).
  - vm_compute. repeat constructor.
  - right. exists "5"%r, []. repeat split. constructor.
  - right. exists "e"%r, ["-"%r], "3"%r, [].
    split; [reflexivity |]. split; [left; reflexivity |].
    split; [right; right; reflexivity |]. split; [reflexivity | constructor].
  - reflexivity.
  - reflexivity.
  - reflexivity.
  - intros H0. discriminate H0.
  - intros H0. discriminate H0.
  - vm_compute. lia.
Defined.

(** [outputFileName_last_element] at the example of the source:
    [main.jl] gives [main_jl_output.txt], here behind a directory. *)
Lemma outputFileName_last_element_witness :
  outputFileName (str "src" ++ "/"%r :: str "main.jl" ++ repeat "/"%r 0)
  = str "main_jl_output.txt".
Proof.
  apply (outputFileName_last_element (str "src") (str "main.jl") 0).
  - discriminate.
  - not_in.
Defined.

(** [string_literals_accepted] at a string that holds an escaped quote and an
    escaped backslash. *)
Lemma string_literals_accepted_witness :
  scanString 9
    (st [] (DQUOTE :: ["a"%r; "\"%r; DQUOTE; "\"%r; "\"%r]
                   ++ DQUOTE :: str ";") [] [])
  = Ok tt (st ([] ++ DQUOTE :: ["a"%r; "\"%r; DQUOTE; "\"%r; "\"%r]
                  ++ [DQUOTE])
              (str ";")
              ([] ++ [mkToken STRING_LIT
                              (string_of_runes
                                 (DQUOTE
                                  :: ["a"%r; "\"%r; DQUOTE; "\"%r; "\"%r]
                                  ++ [DQUOTE]))
                              1 1 None None])
              []).
Proof.
  apply (string_literals_accepted 9 [] ["a"%r; "\"%r; DQUOTE; "\"%r; "\"%r]
           (str ";") [] []).
  - apply StringBody_plain; try discriminate.
    apply StringBody_escape; try discriminate.
    apply StringBody_escape; try discriminate.
    apply StringBody_nil.
  - vm_compute. lia.
Defined.
